(** * The training script (train.py) and the SegRNN forecaster (models/SegRNN.py)

    A shallow embedding of the two source files and the properties proved
    about them.  Library calls (torch, tqdm, the data set and the plotting
    helpers) are operations of an interface; the Python code that glues them
    is translated line by line. *)

From Stdlib Require Import ZArith List Lia Bool.
From Stdlib Require Import Floats.PrimFloat.
From stdpp Require Import base gmap strings list.

(* ===================================================================== *)
(** * Python runtime: exceptions, console, library calls *)
(* ===================================================================== *)

Module Py.

(** Exception classes.  [except RuntimeError] catches the class and its
    subclasses (torch.cuda.OutOfMemoryError, NotImplementedError, ...). *)
Inductive exn : Type :=
| RuntimeError
| RuntimeErrorSubclass (cls : string)
| ZeroDivisionError
| KeyError (key : string)
| OtherException (cls : string).

Definition isinstance_RuntimeError (e : exn) : bool :=
  match e with
  | RuntimeError | RuntimeErrorSubclass _ => true
  | _ => false
  end.

(** Python floats are IEEE binary64 numbers, as are Rocq's primitive floats. *)
Fixpoint float_of_positive (p : positive) : float :=
  match p with
  | xH => 1%float
  | xO q => (2 * float_of_positive q)%float
  | xI q => (2 * float_of_positive q + 1)%float
  end.

(** int -> float conversion of a length (exact below 2^53). *)
Definition float_of_nat (n : nat) : float :=
  match N.of_nat n with
  | N0 => 0%float
  | Npos p => float_of_positive p
  end.

(** The lines the script prints. [StatusLine] is the f-string of train.py:155. *)
Inductive line : Type :=
| StatusLine (train_loss test_loss train_acc test_acc : float)
| LoadedLine (path : string)
| MismatchLine
| SavedLine (path : string).

(** The library calls of train.py that can fail. *)
Inductive call : Type :=
| Cmodel_train | Cmodel_eval
| Citer | Clen | Cto | Cforward | Cunsqueeze | Closs_fn | Citem | Cacc_fn
| Czero_grad | Cbackward | Coptimizer_step
| Ctrange (epochs : Z) | Cnext (epoch : nat) | Cstop_iteration
| Cscheduler_step (metrics : float)
| Ccuda_is_available | CWeatherDataset (path : string) | CDataLoader
| CLSTMModel | Cmodel_to | CMSELoss | Cparameters | CAdam | CReduceLROnPlateau
| Cexists (path : string) | Ctorch_load (path : string) | Cload_state_dict
| Cplot_loss_curves | Cstate_dict | Ctorch_save (path : string).

(** What a run does, in order: library calls, exceptions raised, lines printed. *)
Inductive event : Type :=
| EvCall (c : call)
| EvRaise (e : exn)
| EvPrint (l : line).

(** A library function: reads and updates the interpreter state, returns or raises. *)
Definition libfn (W A : Type) : Type := W -> (A + exn) * W.

(** The libraries train.py runs on.  [World] is everything they own: model
    parameters, optimizer and scheduler state, random generators, the file
    system.  [Obj] is an opaque Python object (module, tensor, loader, ...). *)
Class Torch : Type := {
  World : Type;
  Obj : Type;
  Param : Type;
  param_shape : Param -> list nat;
  (* nn.Module *)
  model_train : Obj -> libfn World unit;
  model_eval : Obj -> libfn World unit;
  model_call : Obj -> Obj -> libfn World Obj;
  model_to : Obj -> string -> libfn World unit;
  parameters : Obj -> libfn World Obj;
  state_dict : Obj -> libfn World (gmap string Param);
  load_state_dict : Obj -> gmap string Param -> libfn World unit;
  model_params : Obj -> World -> gmap string Param;
  (* tensors *)
  tensor_to : Obj -> string -> libfn World Obj;
  unsqueeze : Obj -> Z -> libfn World Obj;
  item : Obj -> libfn World float;
  backward : Obj -> libfn World unit;
  (* torch.inference_mode(): a thread-local flag set and restored *)
  inference_mode_enter : World -> World;
  inference_mode_exit : World -> World;
  (* loss, metric, optimizer, scheduler *)
  loss_call : Obj -> Obj -> Obj -> libfn World Obj;
  acc_call : Obj -> Obj -> Obj -> libfn World float;
  zero_grad : Obj -> libfn World unit;
  optimizer_step : Obj -> libfn World unit;
  scheduler_step : Obj -> float -> libfn World unit;
  (* DataLoader *)
  loader_iter : Obj -> libfn World (list (Obj * Obj));
  loader_len : Obj -> libfn World nat;
  (* tqdm.trange *)
  trange : Z -> libfn World Obj;
  bar_next : Obj -> nat -> libfn World unit;
  bar_stop : Obj -> libfn World unit;
  (* constructors and helpers of __main__ *)
  cuda_is_available : libfn World bool;
  WeatherDataset : string -> Z -> libfn World Obj;
  DataLoader : Obj -> Z -> bool -> libfn World Obj;
  LSTMModel : Z -> Z -> Z -> Z -> libfn World Obj;
  MSELoss : libfn World Obj;
  Adam : Obj -> float -> float -> libfn World Obj;
  ReduceLROnPlateau : Obj -> string -> Z -> float -> bool -> libfn World Obj;
  accuracy : Obj;
  plot_loss_curves : gmap string (list float) -> libfn World unit;
  path_exists : string -> libfn World bool;
  torch_load : string -> libfn World (gmap string Param);
  torch_save : gmap string Param -> string -> libfn World unit
}.

Section Exec.
Context `{T : Torch}.

(** The outcome of running a piece of the script. *)
Record outcome (A : Type) : Type := Outcome {
  result : A + exn;
  world : World;
  emitted : list event
}.
#[global] Arguments Outcome {A} _ _ _.
#[global] Arguments result {A} _.
#[global] Arguments world {A} _.
#[global] Arguments emitted {A} _.

Definition M (A : Type) : Type := World -> outcome A.

Definition ret {A : Type} (a : A) : M A :=
  fun w => Outcome (inl a) w [].

Definition raise {A : Type} (e : exn) : M A :=
  fun w => Outcome (inr e) w [EvRaise e].

Definition bind {A B : Type} (m : M A) (k : A -> M B) : M B :=
  fun w =>
    let o := m w in
    match result o with
    | inl a =>
        let o' := k a (world o) in
        Outcome (result o') (world o') (emitted o ++ emitted o')
    | inr e => Outcome (inr e) (world o) (emitted o)
    end.

(** A library call: logged, and its exception (if any) raised in the script. *)
Definition lib {A : Type} (c : call) (f : libfn World A) : M A :=
  fun w =>
    match f w with
    | (inl a, w') => Outcome (inl a) w' [EvCall c]
    | (inr e, w') => Outcome (inr e) w' [EvCall c; EvRaise e]
    end.

Definition print (l : line) : M unit :=
  fun w => Outcome (inl tt) w [EvPrint l].

(** [try: body / except RuntimeError as e: handler]. *)
Definition try_except_RuntimeError {A : Type} (body : M A) (handler : exn -> M A) : M A :=
  fun w =>
    let o := body w in
    match result o with
    | inl _ => o
    | inr e =>
        if isinstance_RuntimeError e then
          let o' := handler e (world o) in
          Outcome (result o') (world o') (emitted o ++ emitted o')
        else o
    end.

(** [with torch.inference_mode(): body]: the flag is restored on both exits. *)
Definition with_inference_mode {A : Type} (body : M A) : M A :=
  fun w =>
    let o := body (inference_mode_enter w) in
    Outcome (result o) (inference_mode_exit (world o)) (emitted o).

(** [a / n] with [n] an int: ZeroDivisionError when [n] is 0. *)
Definition truediv (a : float) (n : nat) : M float :=
  if (n =? 0)%nat then raise ZeroDivisionError
  else ret (a / float_of_nat n)%float.

End Exec.

Declare Scope py_scope.
Delimit Scope py_scope with py.
Notation "x <- c1 ;; c2" := (bind c1 (fun x => c2))
  (at level 100, c1 at next level, right associativity) : py_scope.

End Py.

(* ===================================================================== *)
(** * train.py *)
(* ===================================================================== *)

Module Train.
Import Py.
Local Open Scope py_scope.

Section Script.
Context `{T : Torch}.

(** The body of the batch loop of [train_step] (train.py:35-54), with the two
    accumulators threaded through. *)
Fixpoint train_batches (model loss_fn optimizer acc_fn : Obj) (device : string)
    (batches : list (Obj * Obj)) (train_loss train_acc : float) : M (float * float) :=
  match batches with
  | [] => ret (train_loss, train_acc)
  | (X, y) :: rest =>
      X <- lib Cto (tensor_to X device) ;;
      y <- lib Cto (tensor_to y device) ;;
      y_logits <- lib Cforward (model_call model X) ;;
      pred <- lib Cunsqueeze (unsqueeze y_logits 2) ;;
      loss <- lib Closs_fn (loss_call loss_fn pred y) ;;
      l <- lib Citem (item loss) ;;
      pred' <- lib Cunsqueeze (unsqueeze y_logits 2) ;;
      a <- lib Cacc_fn (acc_call acc_fn pred' y) ;;
      _ <- lib Czero_grad (zero_grad optimizer) ;;
      _ <- lib Cbackward (backward loss) ;;
      _ <- lib Coptimizer_step (optimizer_step optimizer) ;;
      train_batches model loss_fn optimizer acc_fn device rest
        (train_loss + l)%float (train_acc + a)%float
  end.

(** train.py:12-60. *)
Definition train_step (model data_loader loss_fn optimizer acc_fn : Obj) (device : string)
    : M (float * float) :=
  _ <- lib Cmodel_train (model_train model) ;;
  batches <- lib Citer (loader_iter data_loader) ;;
  sums <- train_batches model loss_fn optimizer acc_fn device batches 0%float 0%float ;;
  n <- lib Clen (loader_len data_loader) ;;
  train_loss <- truediv (fst sums) n ;;
  n' <- lib Clen (loader_len data_loader) ;;
  train_acc <- truediv (snd sums) n' ;;
  ret (train_loss, train_acc).

(** The body of the batch loop of [test_step] (train.py:83-92). *)
Fixpoint test_batches (model loss_fn acc_fn : Obj) (device : string)
    (batches : list (Obj * Obj)) (test_loss test_acc : float) : M (float * float) :=
  match batches with
  | [] => ret (test_loss, test_acc)
  | (X, y) :: rest =>
      X <- lib Cto (tensor_to X device) ;;
      y <- lib Cto (tensor_to y device) ;;
      y_logits <- lib Cforward (model_call model X) ;;
      pred <- lib Cunsqueeze (unsqueeze y_logits 2) ;;
      loss <- lib Closs_fn (loss_call loss_fn pred y) ;;
      l <- lib Citem (item loss) ;;
      pred' <- lib Cunsqueeze (unsqueeze y_logits 2) ;;
      a <- lib Cacc_fn (acc_call acc_fn pred' y) ;;
      test_batches model loss_fn acc_fn device rest
        (test_loss + l)%float (test_acc + a)%float
  end.

(** train.py:62-98. *)
Definition test_step (model data_loader loss_fn acc_fn : Obj) (device : string)
    : M (float * float) :=
  _ <- lib Cmodel_eval (model_eval model) ;;
  with_inference_mode (
    batches <- lib Citer (loader_iter data_loader) ;;
    sums <- test_batches model loss_fn acc_fn device batches 0%float 0%float ;;
    n <- lib Clen (loader_len data_loader) ;;
    test_loss <- truediv (fst sums) n ;;
    n' <- lib Clen (loader_len data_loader) ;;
    test_acc <- truediv (snd sums) n' ;;
    ret (test_loss, test_acc)).

(** The results dictionary of train.py:125-128. *)
Definition empty_results : gmap string (list float) :=
  <["train_loss" := []]> (<["test_loss" := []]>
    (<["train_acc" := []]> (<["test_acc" := []]> ∅))).

(** [results[key].append(v)]. *)
Definition append (key : string) (v : float) (results : gmap string (list float))
    : M (gmap string (list float)) :=
  match results !! key with
  | Some l => ret (<[key := l ++ [v]]> results)
  | None => raise (KeyError key)
  end.

(** The threshold of train.py:150. *)
Definition threshold : float := 7%float.

(** How one pass through a loop body ends. *)
Inductive flow (S : Type) : Type :=
| Continue (s : S)
| Break (s : S).
#[global] Arguments Continue {S} _.
#[global] Arguments Break {S} _.

(** The body of the epoch loop (train.py:133-161). *)
Definition epoch_body (model train_dataloader test_dataloader loss_fn optimizer
    scheduler acc_fn : Obj) (device : string) (epoch : nat)
    (results : gmap string (list float)) : M (flow (gmap string (list float))) :=
  tr <- train_step model train_dataloader loss_fn optimizer acc_fn device ;;
  let '(train_loss, train_acc) := tr in
  te <- test_step model test_dataloader loss_fn acc_fn device ;;
  let '(test_loss, test_acc) := te in
  _ <- lib (Cscheduler_step test_loss) (scheduler_step scheduler test_loss) ;;
  if (test_loss <? threshold)%float then ret (Break results)
  else
    _ <- (if (epoch mod 10 =? 0)%nat
          then print (StatusLine train_loss test_loss train_acc test_acc)
          else ret tt) ;;
    results <- append "train_loss" train_loss results ;;
    results <- append "test_loss" test_loss results ;;
    results <- append "train_acc" train_acc results ;;
    results <- append "test_acc" test_acc results ;;
    ret (Continue results).

(** [for epoch in progress_bar: body], over the indices the bar yields. *)
Fixpoint for_epochs {S : Type} (progress_bar : Obj) (body : nat -> S -> M (flow S))
    (indices : list nat) (s : S) : M S :=
  match indices with
  | [] => _ <- lib Cstop_iteration (bar_stop progress_bar) ;; ret s
  | epoch :: rest =>
      _ <- lib (Cnext epoch) (bar_next progress_bar epoch) ;;
      f <- body epoch s ;;
      match f with
      | Continue s' => for_epochs progress_bar body rest s'
      | Break s' => ret s'
      end
  end.

(** train.py:100-163. *)
Definition train (model : Obj) (epochs : Z) (train_dataloader test_dataloader loss_fn
    optimizer scheduler acc_fn : Obj) (device : string) : M (gmap string (list float)) :=
  let results := empty_results in
  progress_bar <- lib (Ctrange epochs) (trange epochs) ;;
  for_epochs progress_bar
    (epoch_body model train_dataloader test_dataloader loss_fn optimizer scheduler
       acc_fn device)
    (seq 0 (Z.to_nat epochs)) results.

Definition save_path : string := "models/model.pth".

(** The statements inside the [try] of train.py:190-193. *)
Definition load_saved (model : Obj) : M unit :=
  found <- lib (Cexists save_path) (path_exists save_path) ;;
  if (found : bool) then
    saved <- lib (Ctorch_load save_path) (torch_load save_path) ;;
    _ <- lib Cload_state_dict (load_state_dict model saved) ;;
    print (LoadedLine save_path)
  else ret tt.

(** train.py:190-195. *)
Definition load_checkpoint (model : Obj) : M unit :=
  try_except_RuntimeError (load_saved model) (fun _ => print MismatchLine).

(** train.py:165-212, the script run as a program. *)
Definition main : M unit :=
  cuda <- lib Ccuda_is_available cuda_is_available ;;
  let device : string := if (cuda : bool) then "cuda" else "cpu" in
  train_dataset <- lib (CWeatherDataset "./data/train") (WeatherDataset "./data/train" 20) ;;
  test_dataset <- lib (CWeatherDataset "./data/test") (WeatherDataset "./data/test" 20) ;;
  training_dataloader <- lib CDataLoader (DataLoader train_dataset 64 true) ;;
  testing_dataloader <- lib CDataLoader (DataLoader test_dataset 64 false) ;;
  model <- lib CLSTMModel (LSTMModel 22 128 2 24) ;;
  _ <- lib Cmodel_to (model_to model device) ;;
  loss_fn <- lib CMSELoss MSELoss ;;
  params <- lib Cparameters (parameters model) ;;
  optimizer <- lib CAdam (Adam params 0.0001%float 1.5e-3%float) ;;
  scheduler <- lib CReduceLROnPlateau
                 (ReduceLROnPlateau optimizer "min" 10 0.5%float true) ;;
  _ <- load_checkpoint model ;;
  results <- train model 10 training_dataloader testing_dataloader loss_fn optimizer
               scheduler accuracy device ;;
  _ <- lib Cplot_loss_curves (plot_loss_curves results) ;;
  sd <- lib Cstate_dict (state_dict model) ;;
  _ <- lib (Ctorch_save save_path) (torch_save sd save_path) ;;
  print (SavedLine save_path).

End Script.
End Train.

(* ===================================================================== *)
(** * Reading a run: what the log of events says *)
(* ===================================================================== *)

Module Trace.
Import Py Train.

(** The epochs that were started: the indices the progress bar yielded. *)
Fixpoint executed_epochs (tr : list event) : list nat :=
  match tr with
  | [] => []
  | EvCall (Cnext i) :: rest => i :: executed_epochs rest
  | _ :: rest => executed_epochs rest
  end.

(** A call returned when no exception follows it in the log. *)
Definition returned (rest : list event) : bool :=
  match rest with
  | EvRaise _ :: _ => false
  | _ => true
  end.

(** The epochs that went past the threshold test of train.py:150, each with
    its test loss: the scheduler step returned and the loss was not below the
    threshold.  [cur] is the epoch under way. *)
Fixpoint recorded_from (cur : option nat) (tr : list event) : list (nat * float) :=
  match tr with
  | [] => []
  | EvCall (Cnext i) :: rest => recorded_from (Some i) rest
  | EvCall (Cscheduler_step tl) :: rest =>
      match cur with
      | Some i =>
          if returned rest && negb (tl <? threshold)%float
          then (i, tl) :: recorded_from cur rest
          else recorded_from cur rest
      | None => recorded_from cur rest
      end
  | _ :: rest => recorded_from cur rest
  end.

Definition recorded_epochs (tr : list event) : list (nat * float) :=
  recorded_from None tr.

(** The epochs during which the status line of train.py:155 was printed. *)
Fixpoint status_epochs_from (cur : option nat) (tr : list event) : list nat :=
  match tr with
  | [] => []
  | EvCall (Cnext i) :: rest => status_epochs_from (Some i) rest
  | EvPrint (StatusLine _ _ _ _) :: rest =>
      match cur with
      | Some i => i :: status_epochs_from cur rest
      | None => status_epochs_from cur rest
      end
  | _ :: rest => status_epochs_from cur rest
  end.

Definition status_epochs (tr : list event) : list nat :=
  status_epochs_from None tr.

(** The calls made by [train_step] and [test_step]. *)
Definition inner_call (c : call) : bool :=
  match c with
  | Cmodel_train | Cmodel_eval | Citer | Clen | Cto | Cforward | Cunsqueeze
  | Closs_fn | Citem | Cacc_fn | Czero_grad | Cbackward | Coptimizer_step => true
  | _ => false
  end.

Definition inner_event (ev : event) : Prop :=
  match ev with
  | EvCall c => inner_call c = true
  | _ => False
  end.

(** The calls inside the [try] of train.py:190-193. *)
Definition guarded_call (c : call) : bool :=
  match c with
  | Cexists _ | Ctorch_load _ | Cload_state_dict => true
  | _ => false
  end.

Definition plain_event (ev : event) : Prop :=
  match ev with
  | EvRaise _ => False
  | _ => True
  end.

(** Logs in which every exception raised was caught by the guard of
    train.py:194: it is a RuntimeError, raised by a call inside the [try],
    and the mismatch line follows. *)
Inductive handled : list event -> Prop :=
| handled_nil : handled []
| handled_plain ev tr : plain_event ev -> handled tr -> handled (ev :: tr)
| handled_caught c e tr :
    guarded_call c = true -> isinstance_RuntimeError e = true -> handled tr ->
    handled (EvCall c :: EvRaise e :: EvPrint MismatchLine :: tr).



(** The four metric names of the results dictionary. *)
Definition metric_names : list string :=
  ["train_loss"; "test_loss"; "train_acc"; "test_acc"].

Definition has_keys (results : gmap string (list float)) : Prop :=
  Forall (fun k => is_Some (results !! k)) metric_names.

(** The length of the list under a key (0 when the key is absent). *)
Definition entries (results : gmap string (list float)) (k : string) : nat :=
  match results !! k with
  | Some l => length l
  | None => 0
  end.

(** The four lists have one length. *)
Definition balanced (results : gmap string (list float)) : Prop :=
  has_keys results /\
  Forall (fun k => entries results k = entries results "train_loss") metric_names.

(** [results[key].append(v)] on a dictionary that has the key. *)
Definition append_value (key : string) (v : float) (results : gmap string (list float))
    : gmap string (list float) :=
  match results !! key with
  | Some l => <[key := l ++ [v]]> results
  | None => results
  end.

(** The four appends of train.py:158-161. *)
Definition appended (results : gmap string (list float))
    (train_loss test_loss train_acc test_acc : float) : gmap string (list float) :=
  append_value "test_acc" test_acc
    (append_value "train_acc" train_acc
       (append_value "test_loss" test_loss
          (append_value "train_loss" train_loss results))).

(** A run keeps to [P] when every event it logs satisfies [P], the exception
    it ends with (if any) apart, which is the last event. *)
Definition disciplined `{T : Torch} (P : event -> Prop) {A : Type} (o : outcome A) : Prop :=
  match result o with
  | inl _ => Forall P (emitted o)
  | inr e => exists tr, emitted o = tr ++ [EvRaise e] /\ Forall P tr
  end.

Definition quiet (A : list event) : Prop := Forall inner_event A.

(** The status line of train.py:153-155. *)
Definition status_of (epoch : nat) (trl tl tra ta : float) : list event :=
  if (epoch mod 10 =? 0)%nat then [EvPrint (StatusLine trl tl tra ta)] else [].

(** The four ways one pass through the loop body ends. *)
Inductive body_run (epoch : nat) (r : gmap string (list float))
    : flow (gmap string (list float)) + exn -> list event -> Prop :=
| body_inner_raise A e :
    quiet A -> body_run epoch r (inr e) (A ++ [EvRaise e])
| body_scheduler_raise A tl e :
    quiet A -> body_run epoch r (inr e) (A ++ [EvCall (Cscheduler_step tl); EvRaise e])
| body_break A tl :
    quiet A -> (tl <? threshold)%float = true ->
    body_run epoch r (inl (Break r)) (A ++ [EvCall (Cscheduler_step tl)])
| body_continue A trl tl tra ta :
    quiet A -> (tl <? threshold)%float = false ->
    body_run epoch r (inl (Continue (appended r trl tl tra ta)))
      (A ++ EvCall (Cscheduler_step tl) :: status_of epoch trl tl tra ta).

(** The runs of the epoch loop. *)
Inductive loop_run : list nat -> gmap string (list float) ->
    gmap string (list float) + exn -> list event -> Prop :=
| loop_done r : loop_run [] r (inl r) [EvCall Cstop_iteration]
| loop_stop_raise r e : loop_run [] r (inr e) [EvCall Cstop_iteration; EvRaise e]
| loop_next_raise i rest r e : loop_run (i :: rest) r (inr e) [EvCall (Cnext i); EvRaise e]
| loop_body_raise i rest r e tr :
    body_run i r (inr e) tr -> loop_run (i :: rest) r (inr e) (EvCall (Cnext i) :: tr)
| loop_break i rest r r' tr :
    body_run i r (inl (Break r')) tr -> loop_run (i :: rest) r (inl r') (EvCall (Cnext i) :: tr)
| loop_continue i rest r r' tr res tr' :
    body_run i r (inl (Continue r')) tr -> has_keys r' -> loop_run rest r' res tr' ->
    loop_run (i :: rest) r res (EvCall (Cnext i) :: tr ++ tr').

(** Nothing follows a scheduler step whose test loss is below the threshold,
    but the exception that very call raised. *)
Definition stop_ok {R : Type} (res : R + exn) (tr : list event) : Prop :=
  forall pre tl post,
    tr = pre ++ EvCall (Cscheduler_step tl) :: post ->
    (tl <? threshold)%float = true ->
    (post = [] /\ exists r, res = inl r) \/ (exists e, post = [EvRaise e] /\ res = inr e).

Definition tenth (i : nat) : bool := (i mod 10 =? 0)%nat.

(** A run in which every exception but the one it ends with was caught. *)
Definition propagates `{T : Torch} {A : Type} (o : outcome A) : Prop :=
  match result o with
  | inl _ => handled (emitted o)
  | inr e => exists tr, emitted o = tr ++ [EvRaise e] /\ handled tr
  end.

End Trace.

(* ===================================================================== *)
(** * A small concrete library, to run the script on *)
(* ===================================================================== *)

Module Lab.
Import Py.

(** Saved tensors: a shape and the values. *)
Definition lab_param : Type := list nat * list Z.

Record lab_world : Type := LabWorld {
  readings : list float;                       (* what the next loss.item() calls return *)
  weights : gmap string lab_param;             (* the parameters of the model *)
  disk : option (gmap string lab_param);       (* the content of the checkpoint file *)
  load_failure : option exn                    (* what torch.load raises, if anything *)
}.

Definition quietly {A : Type} (a : A) : libfn lab_world A :=
  fun w => (inl a, w).

Definition lab_item : libfn lab_world float :=
  fun w =>
    match readings w with
    | [] => (inl 0%float, w)
    | x :: rest =>
        (inl x, LabWorld rest (weights w) (disk w) (load_failure w))
    end.

Definition lab_torch_load : libfn lab_world (gmap string lab_param) :=
  fun w =>
    match load_failure w, disk w with
    | Some e, _ => (inr e, w)
    | None, Some saved => (inl saved, w)
    | None, None => (inr (OtherException "FileNotFoundError"), w)
    end.

(** What a strict load copies into one parameter. *)
Definition loaded_entry (saved : gmap string lab_param) (k : string) (p : lab_param)
    : lab_param :=
  match saved !! k with
  | Some q => if decide (fst q = fst p) then q else p
  | None => p
  end.

(** A parameter the checkpoint cannot fill: the key is missing or the shape differs. *)
Definition mismatched (saved : gmap string lab_param) (k : string) (p : lab_param) : bool :=
  match saved !! k with
  | Some q => negb (bool_decide (fst q = fst p))
  | None => true
  end.

(** Whether a strict load reports an error: an unexpected key, a missing key
    or a shape that differs. *)
Definition load_errors (saved current : gmap string lab_param) : bool :=
  negb (bool_decide (dom saved ⊆ dom current))
  || existsb (fun kp => mismatched saved (fst kp) (snd kp)) (map_to_list current).

Definition lab_load_state_dict (saved : gmap string lab_param) : libfn lab_world unit :=
  fun w =>
    let w' := LabWorld (readings w) (map_imap (fun k p => Some (loaded_entry saved k p)) (weights w))
                (disk w) (load_failure w) in
    if load_errors saved (weights w) then (inr RuntimeError, w') else (inl tt, w').

Definition lab_torch_save (sd : gmap string lab_param) : libfn lab_world unit :=
  fun w => (inl tt, LabWorld (readings w) (weights w) (Some sd) (load_failure w)).

#[global] Instance lab : Torch := {|
  World := lab_world;
  Obj := unit;
  Param := lab_param;
  param_shape := fst;
  model_train := fun _ => quietly tt;
  model_eval := fun _ => quietly tt;
  model_call := fun _ _ => quietly tt;
  model_to := fun _ _ => quietly tt;
  parameters := fun _ => quietly tt;
  state_dict := fun _ w => (inl (weights w), w);
  load_state_dict := fun _ saved => lab_load_state_dict saved;
  model_params := fun _ w => weights w;
  tensor_to := fun _ _ => quietly tt;
  unsqueeze := fun _ _ => quietly tt;
  item := fun _ => lab_item;
  backward := fun _ => quietly tt;
  inference_mode_enter := fun w => w;
  inference_mode_exit := fun w => w;
  loss_call := fun _ _ _ => quietly tt;
  acc_call := fun _ _ _ => quietly 0.5%float;
  zero_grad := fun _ => quietly tt;
  optimizer_step := fun _ => quietly tt;
  scheduler_step := fun _ _ => quietly tt;
  loader_iter := fun _ => quietly [(tt, tt)];
  loader_len := fun _ => quietly 1%nat;
  trange := fun _ => quietly tt;
  bar_next := fun _ _ => quietly tt;
  bar_stop := fun _ => quietly tt;
  cuda_is_available := quietly false;
  WeatherDataset := fun _ _ => quietly tt;
  DataLoader := fun _ _ _ => quietly tt;
  LSTMModel := fun _ _ _ _ => quietly tt;
  MSELoss := quietly tt;
  Adam := fun _ _ _ => quietly tt;
  ReduceLROnPlateau := fun _ _ _ _ _ => quietly tt;
  accuracy := tt;
  plot_loss_curves := fun _ => quietly tt;
  path_exists := fun _ w => (inl (bool_decide (is_Some (disk w))), w);
  torch_load := fun _ => lab_torch_load;
  torch_save := fun sd _ => lab_torch_save sd
|}.

(** A run of [train] on the lab library, with the given loss readings. *)
Definition lab_train (epochs : Z) (losses : list float) : outcome (gmap string (list float)) :=
  Train.train tt epochs tt tt tt tt tt tt "cpu" (LabWorld losses ∅ None None).

(** One epoch whose test loss is 5: the loop stops in epoch 0. *)
Definition stopped_run : outcome (gmap string (list float)) :=
  lab_train 1 [9; 5]%float.

(** Two epochs with test losses 8 and 5. *)
Definition two_epoch_run : outcome (gmap string (list float)) :=
  lab_train 2 [9; 8; 9; 5]%float.

(** The checkpoint file is there and cannot be unpickled. *)
Definition truncated_file_world : lab_world :=
  LabWorld [] ∅ (Some ∅) (Some (OtherException "EOFError")).

(** The model has a vector of 2 and a vector of 3; the file has a vector of 2
    and a vector of 4. *)
Definition model_weights : gmap string lab_param :=
  <["fc.bias" := ([3], [0; 0; 0]%Z)]> (<["fc.weight" := ([2], [0; 0]%Z)]> ∅).

Definition saved_weights : gmap string lab_param :=
  <["fc.bias" := ([4], [1; 2; 3; 4]%Z)]> (<["fc.weight" := ([2], [5; 6]%Z)]> ∅).

Definition mismatch_world : lab_world :=
  LabWorld [] model_weights (Some saved_weights) None.

End Lab.

(* ===================================================================== *)
(** * Tensors: the torch operations models/SegRNN.py uses *)
(* ===================================================================== *)

Module Tensor.

(** The numbers in a tensor, with the arithmetic the layers need. *)
Class Scalar : Type := {
  num : Type;
  zero : num;
  one : num;
  sadd : num -> num -> num;
  ssub : num -> num -> num;
  smul : num -> num -> num;
  relu : num -> num;
  sigmoid : num -> num;
  tanh : num -> num
}.

Section Ops.
Context `{Sc : Scalar}.

(** A contiguous tensor: its sizes and its elements in row-major order. *)
Record tensor : Type := Tensor {
  shape : list nat;
  data : list num
}.

Definition numel (sh : list nat) : nat := foldr Nat.mul 1 sh.

Definition well_formed (t : tensor) : Prop := length (data t) = numel (shape t).

(** The first [count] pieces of [size] elements. *)
Fixpoint chunks {A : Type} (count size : nat) (l : list A) : list (list A) :=
  match count with
  | 0 => []
  | S count' => take size l :: chunks count' size (drop size l)
  end.

(** [x.size(0)]. *)
Definition size0 (t : tensor) : option nat := head (shape t).

(** [x[:, -1:, :]]: the last step along dimension 1 (none when it is empty). *)
Definition last_step (t : tensor) : option tensor :=
  match shape t with
  | b :: s :: c :: rest =>
      let row := numel (c :: rest) in
      Some (Tensor (b :: Nat.min 1 s :: c :: rest)
              (concat (map (fun batch => drop ((s - 1) * row) batch)
                         (chunks b (s * row) (data t)))))
  | _ => None
  end.

(** The shape two operands broadcast to, sizes aligned from the right. *)
Fixpoint broadcast_rev (a b : list nat) : option (list nat) :=
  match a, b with
  | [], _ => Some b
  | _, [] => Some a
  | x :: a', y :: b' =>
      rest ← broadcast_rev a' b';
      if (x =? y)%nat then Some (x :: rest)
      else if (x =? 1)%nat then Some (y :: rest)
      else if (y =? 1)%nat then Some (x :: rest)
      else None
  end.

Definition broadcast_shapes (a b : list nat) : option (list nat) :=
  reverse <$> broadcast_rev (reverse a) (reverse b).

(** [sh] with sizes 1 in front, up to [rank] dimensions. *)
Definition pad_shape (rank : nat) (sh : list nat) : list nat :=
  replicate (rank - length sh) 1 ++ sh.

(** The elements of a tensor of shape [src] expanded to [tgt]: a dimension of
    size 1 is repeated. *)
Fixpoint expand (src tgt : list nat) (l : list num) : list num :=
  match src, tgt with
  | s :: src', t :: tgt' =>
      let rows := map (expand src' tgt') (chunks s (numel src') l) in
      if (s =? t)%nat then concat rows else concat (replicate t (concat rows))
  | _, _ => l
  end.

(** An elementwise binary operation with broadcasting ([x - y], [x + y]). *)
Definition broadcast (op : num -> num -> num) (x y : tensor) : option tensor :=
  sh ← broadcast_shapes (shape x) (shape y);
  let rank := length sh in
  Some (Tensor sh
          (zip_with op (expand (pad_shape rank (shape x)) sh (data x))
                       (expand (pad_shape rank (shape y)) sh (data y)))).

(** [x + c] for a Python number [c]. *)
Definition add_scalar (x : tensor) (c : num) : tensor :=
  Tensor (shape x) (map (fun v => sadd v c) (data x)).

(** The columns of a matrix given by its rows. *)
Definition transpose {A : Type} (cols : nat) (rows : list (list A)) : list (list A) :=
  foldr (zip_with cons) (replicate cols []) rows.

(** [x.permute(0, 2, 1)]. *)
Definition permute021 (t : tensor) : option tensor :=
  match shape t with
  | [b; s; c] =>
      Some (Tensor [b; c; s]
              (concat (map (fun batch => concat (transpose c (chunks s c batch)))
                         (chunks b (s * c) (data t)))))
  | _ => None
  end.

(** The sizes asked of [reshape]/[view], [None] standing for -1. *)
Definition known_numel (dims : list (option nat)) : nat :=
  foldr (fun d acc => from_option id 1 d * acc) 1 dims.

Definition inferred (dims : list (option nat)) : nat :=
  length (filter (fun d => d = None) dims).

(** [x.reshape(dims)] and, on a contiguous tensor, [x.view(dims)]. *)
Definition reshape (dims : list (option nat)) (t : tensor) : option tensor :=
  let n := numel (shape t) in
  let q := known_numel dims in
  match inferred dims with
  | 0 => if (q =? n)%nat then Some (Tensor (map (from_option id 1) dims) (data t)) else None
  | 1 =>
      if (q =? 0)%nat then None
      else if (n mod q =? 0)%nat
           then Some (Tensor (map (from_option id (n / q)) dims) (data t))
           else None
  | _ => None
  end.

(** [x.unsqueeze(k)]. *)
Definition unsqueeze (k : nat) (t : tensor) : option tensor :=
  if (k <=? length (shape t))%nat
  then Some (Tensor (take k (shape t) ++ 1 :: drop k (shape t)) (data t))
  else None.

(** The elements of a tensor of shape [sh] tiled [reps] times along each dimension. *)
Fixpoint tile (sh reps : list nat) (l : list num) : list num :=
  match sh, reps with
  | d :: sh', r :: reps' =>
      concat (replicate r (concat (map (tile sh' reps') (chunks d (numel sh') l))))
  | _, _ => l
  end.

(** [x.repeat(reps)]. *)
Definition repeat (reps : list nat) (t : tensor) : option tensor :=
  if (length (shape t) <=? length reps)%nat then
    let sh := pad_shape (length reps) (shape t) in
    Some (Tensor (zip_with Nat.mul sh reps) (tile sh reps (data t)))
  else None.

(** [torch.cat([x, y], dim=-1)]. *)
Definition cat_last (x y : tensor) : option tensor :=
  match reverse (shape x), reverse (shape y) with
  | lx :: rx, ly :: ry =>
      if decide (rx = ry) then
        let rows := numel rx in
        Some (Tensor (reverse rx ++ [lx + ly])
                (concat (zip_with app (chunks rows lx (data x)) (chunks rows ly (data y)))))
      else None
  | _, _ => None
  end.

Definition dot (u v : list num) : num :=
  foldl sadd zero (zip_with smul u v).

(** One row through a linear layer: [W row + bias]. *)
Definition affine (weight : list (list num)) (bias : list num) (row : list num) : list num :=
  zip_with (fun w b => sadd (dot row w) b) weight bias.

(** [nn.Linear(in_features, out_features)] with its parameters. *)
Record linear_layer : Type := Linear {
  in_features : nat;
  out_features : nat;
  weight : list num;      (* out_features x in_features *)
  bias : list num         (* out_features *)
}.

Definition weight_rows (l : linear_layer) : list (list num) :=
  chunks (out_features l) (in_features l) (weight l).

Definition linear (l : linear_layer) (t : tensor) : option tensor :=
  match reverse (shape t) with
  | k :: lead =>
      if (k =? in_features l)%nat then
        Some (Tensor (reverse lead ++ [out_features l])
                (concat (map (affine (weight_rows l) (bias l))
                           (chunks (numel lead) k (data t)))))
      else None
  | [] => None
  end.

(** [nn.ReLU()]. *)
Definition relu_layer (t : tensor) : tensor :=
  Tensor (shape t) (map relu (data t)).

(** [nn.Dropout(p)]: the identity in evaluation mode; in training mode each
    element is multiplied by the factor drawn for it (0 or 1/(1-p)). *)
Definition dropout (mask : option (nat -> num)) (t : tensor) : tensor :=
  match mask with
  | None => t
  | Some factor => Tensor (shape t) (imap (fun i v => smul v (factor i)) (data t))
  end.

(** [nn.GRU(input_size, hidden_size, num_layers=1, batch_first=True)]. *)
Record gru_layer : Type := GRU {
  input_size : nat;
  hidden_size : nat;
  weight_ih : list num;   (* 3*hidden_size x input_size: reset, update, new *)
  weight_hh : list num;   (* 3*hidden_size x hidden_size *)
  bias_ih : list num;     (* 3*hidden_size *)
  bias_hh : list num      (* 3*hidden_size *)
}.

(** One step of the cell:
    r = sigmoid(W_ir x + b_ir + W_hr h + b_hr), z likewise,
    n = tanh(W_in x + b_in + r * (W_hn h + b_hn)), h' = (1 - z) * n + z * h. *)
Definition gru_cell (g : gru_layer) (h x : list num) : list num :=
  let k := hidden_size g in
  let gi := affine (chunks (3 * k) (input_size g) (weight_ih g)) (bias_ih g) x in
  let gh := affine (chunks (3 * k) k (weight_hh g)) (bias_hh g) h in
  let r := zip_with (fun a b => sigmoid (sadd a b)) (take k gi) (take k gh) in
  let z := zip_with (fun a b => sigmoid (sadd a b)) (take k (drop k gi)) (take k (drop k gh)) in
  let n := zip_with (fun a rb => tanh (sadd a rb)) (drop (2 * k) gi)
             (zip_with smul r (drop (2 * k) gh)) in
  zip_with (fun zn h0 => sadd (smul (ssub one (fst zn)) (snd zn)) (smul (fst zn) h0))
    (zip z n) h.

(** The hidden states of one sequence, step by step, and the last one. *)
Fixpoint gru_scan (g : gru_layer) (h : list num) (steps : list (list num))
    : list (list num) * list num :=
  match steps with
  | [] => ([], h)
  | x :: rest =>
      let h' := gru_cell g h x in
      let '(states, hn) := gru_scan g h' rest in
      (h' :: states, hn)
  end.

(** [rnn(x, h0)] on a batch [x] of shape [N, L, input_size]; [h0] of shape
    [1, N, hidden_size] defaults to zeros.  Returns [(output, hn)].
    [empty_batch_ok] says whether the back end accepts a batch of no
    sequences. *)
Definition gru (empty_batch_ok : bool) (g : gru_layer) (x : tensor) (h0 : option tensor)
    : option (tensor * tensor) :=
  match shape x with
  | [n; len; k] =>
      let k' := hidden_size g in
      if negb (k =? input_size g)%nat then None
      else if (len =? 0)%nat then None
      else if (n =? 0)%nat && negb empty_batch_ok then None
      else
        init ← match h0 with
                | None => Some (replicate n (replicate k' zero))
                | Some h =>
                    if decide (shape h = [1; n; k']) then Some (chunks n k' (data h))
                    else None
                end;
        let runs := zip_with (fun h seq => gru_scan g h (chunks len k seq))
                      init (chunks n (len * k) (data x)) in
        Some (Tensor [n; len; k'] (concat (map (fun r => concat (fst r)) runs)),
              Tensor [1; n; k'] (concat (map snd runs)))
  | _ => None
  end.

End Ops.
End Tensor.

(* ===================================================================== *)
(** * models/SegRNN.py *)
(* ===================================================================== *)

Module SegRNN.
Import Tensor.

Section Model.
Context `{Sc : Scalar}.

(** The integer fields of [configs].  [configs.dropout], the rate of the
    Dropout layer, shows in the mask handed to [forward]. *)
Record configs : Type := Configs {
  cfg_seq_len : nat;
  cfg_pred_len : nat;
  cfg_enc_in : nat;
  cfg_d_model : nat;
  cfg_seg_len : nat
}.

(** The numbers the parameters are filled with (random at construction, or
    loaded from a checkpoint). *)
Record values : Type := Values {
  v_embed_weight : list num;
  v_embed_bias : list num;
  v_weight_ih : list num;
  v_weight_hh : list num;
  v_bias_ih : list num;
  v_bias_hh : list num;
  v_pos_emb : list num;
  v_channel_emb : list num;
  v_predict_weight : list num;
  v_predict_bias : list num
}.

(** The module built by [__init__]. *)
Record model : Type := Model {
  seq_len : nat;
  pred_len : nat;
  enc_in : nat;
  d_model : nat;
  seg_len : nat;
  seg_num_x : nat;
  seg_num_y : nat;
  valueEmbedding : linear_layer;     (* followed by ReLU *)
  rnn : gru_layer;
  pos_emb : tensor;
  channel_emb : tensor;
  predict : linear_layer             (* preceded by Dropout *)
}.

(** SegRNN.py:5-31.  [//] raises ZeroDivisionError when [seg_len] is 0, and
    nn.GRU raises ValueError when its hidden size, [d_model], is 0.  The rate
    [configs.dropout], which nn.Dropout checks to lie between 0 and 1, is no
    field of [configs]: a valid rate is assumed. *)
Definition init (c : configs) (v : values) : option model :=
  if (cfg_seg_len c =? 0)%nat then None
  else if (cfg_d_model c =? 0)%nat then None
  else
    let seg_num_x := cfg_seq_len c / cfg_seg_len c in
    let seg_num_y := cfg_pred_len c / cfg_seg_len c in
    Some {|
      seq_len := cfg_seq_len c;
      pred_len := cfg_pred_len c;
      enc_in := cfg_enc_in c;
      d_model := cfg_d_model c;
      seg_len := cfg_seg_len c;
      seg_num_x := seg_num_x;
      seg_num_y := seg_num_y;
      valueEmbedding := Linear (cfg_seg_len c) (cfg_d_model c)
                          (v_embed_weight v) (v_embed_bias v);
      rnn := GRU (cfg_d_model c) (cfg_d_model c) (v_weight_ih v) (v_weight_hh v)
               (v_bias_ih v) (v_bias_hh v);
      pos_emb := Tensor [seg_num_y; cfg_d_model c / 2] (v_pos_emb v);
      channel_emb := Tensor [cfg_enc_in c; cfg_d_model c / 2] (v_channel_emb v);
      predict := Linear (cfg_d_model c) (cfg_seg_len c)
                   (v_predict_weight v) (v_predict_bias v)
    |}.

(** SegRNN.py:33-71.  [mask] is the dropout of this call: [None] in
    evaluation mode. *)
Definition forward (empty_batch_ok : bool) (self : model) (mask : option (nat -> num))
    (x : tensor) : option tensor :=
  batch_size ← size0 x;
  (* normalization and permute     b,s,c -> b,c,s *)
  seq_last ← last_step x;
  x ← broadcast ssub x seq_last;
  x ← permute021 x;
  (* segment and embedding    b,c,s -> bc,n,w -> bc,n,d *)
  x ← reshape [None; Some (seg_num_x self); Some (seg_len self)] x;
  x ← linear (valueEmbedding self) x;
  let x := relu_layer x in
  (* encoding *)
  enc ← gru empty_batch_ok (rnn self) x None;
  let hn := snd enc in
  (* m,d//2 -> 1,m,d//2 -> c,m,d//2 ; c,d//2 -> c,1,d//2 -> c,m,d//2 *)
  p ← unsqueeze 0 (pos_emb self);
  p ← repeat [enc_in self; 1; 1] p;
  c ← unsqueeze 1 (channel_emb self);
  c ← repeat [1; seg_num_y self; 1] c;
  pe ← cat_last p c;
  pe ← reshape [None; Some 1; Some (d_model self)] pe;
  pe ← repeat [batch_size; 1; 1] pe;
  h0 ← repeat [1; 1; seg_num_y self] hn;
  h0 ← reshape [Some 1; None; Some (d_model self)] h0;
  dec ← gru empty_batch_ok (rnn self) pe (Some h0);
  let hy := snd dec in
  (* 1,bcm,d -> 1,bcm,w -> b,c,s *)
  y ← linear (predict self) (dropout mask hy);
  y ← reshape [None; Some (enc_in self); Some (pred_len self)] y;
  (* permute and denorm *)
  y ← permute021 y;
  broadcast sadd y seq_last.

End Model.
End SegRNN.

(** * The shapes forward computes *)

Module Shapes.
Import Tensor SegRNN.

Section ShapeOps.
Context `{Sc : Scalar}.

Definition last_step_shape (sh : list nat) : option (list nat) :=
  match sh with
  | b :: s :: c :: rest => Some (b :: Nat.min 1 s :: c :: rest)
  | _ => None
  end.

Definition permute021_shape (sh : list nat) : option (list nat) :=
  match sh with
  | [b; s; c] => Some [b; c; s]
  | _ => None
  end.

Definition reshape_shape (dims : list (option nat)) (sh : list nat) : option (list nat) :=
  let n := numel sh in
  let q := known_numel dims in
  match inferred dims with
  | 0 => if (q =? n)%nat then Some (map (from_option id 1) dims) else None
  | 1 =>
      if (q =? 0)%nat then None
      else if (n mod q =? 0)%nat then Some (map (from_option id (n / q)) dims) else None
  | _ => None
  end.

Definition unsqueeze_shape (k : nat) (sh : list nat) : option (list nat) :=
  if (k <=? length sh)%nat then Some (take k sh ++ 1 :: drop k sh) else None.

Definition repeat_shape (reps sh : list nat) : option (list nat) :=
  if (length sh <=? length reps)%nat
  then Some (zip_with Nat.mul (pad_shape (length reps) sh) reps)
  else None.

Definition cat_last_shape (x y : list nat) : option (list nat) :=
  match reverse x, reverse y with
  | lx :: rx, ly :: ry => if decide (rx = ry) then Some (reverse rx ++ [lx + ly]) else None
  | _, _ => None
  end.

Definition linear_shape (l : linear_layer) (sh : list nat) : option (list nat) :=
  match reverse sh with
  | k :: lead =>
      if (k =? in_features l)%nat then Some (reverse lead ++ [out_features l]) else None
  | [] => None
  end.

(** The shape of [hn]. *)
Definition gru_shape (empty_batch_ok : bool) (g : gru_layer) (x : list nat)
    (h0 : option (list nat)) : option (list nat) :=
  match x with
  | [n; len; k] =>
      if negb (k =? input_size g)%nat then None
      else if (len =? 0)%nat then None
      else if (n =? 0)%nat && negb empty_batch_ok then None
      else
        match h0 with
        | None => Some [1; n; hidden_size g]
        | Some h => if decide (h = [1; n; hidden_size g]) then Some [1; n; hidden_size g]
                    else None
        end
  | _ => None
  end.

Definition forward_shape (empty_batch_ok : bool) (self : model) (x : list nat)
    : option (list nat) :=
  batch_size ← head x;
  seq_last ← last_step_shape x;
  x ← broadcast_shapes x seq_last;
  x ← permute021_shape x;
  x ← reshape_shape [None; Some (seg_num_x self); Some (seg_len self)] x;
  x ← linear_shape (valueEmbedding self) x;
  hn ← gru_shape empty_batch_ok (rnn self) x None;
  p ← unsqueeze_shape 0 (shape (pos_emb self));
  p ← repeat_shape [enc_in self; 1; 1] p;
  c ← unsqueeze_shape 1 (shape (channel_emb self));
  c ← repeat_shape [1; seg_num_y self; 1] c;
  pe ← cat_last_shape p c;
  pe ← reshape_shape [None; Some 1; Some (d_model self)] pe;
  pe ← repeat_shape [batch_size; 1; 1] pe;
  h0 ← repeat_shape [1; 1; seg_num_y self] hn;
  h0 ← reshape_shape [Some 1; None; Some (d_model self)] h0;
  hy ← gru_shape empty_batch_ok (rnn self) pe (Some h0);
  y ← linear_shape (predict self) hy;
  y ← reshape_shape [None; Some (enc_in self); Some (pred_len self)] y;
  y ← permute021_shape y;
  broadcast_shapes y seq_last.

(** What [__init__] establishes. *)
Record built (self : model) : Prop := Built {
  built_seg_len : seg_len self <> 0;
  built_seg_num_x : seg_num_x self = seq_len self / seg_len self;
  built_seg_num_y : seg_num_y self = pred_len self / seg_len self;
  built_embed_in : in_features (valueEmbedding self) = seg_len self;
  built_embed_out : out_features (valueEmbedding self) = d_model self;
  built_rnn_in : input_size (rnn self) = d_model self;
  built_rnn_hidden : hidden_size (rnn self) = d_model self;
  built_pos_emb : shape (pos_emb self) = [seg_num_y self; d_model self / 2];
  built_channel_emb : shape (channel_emb self) = [enc_in self; d_model self / 2];
  built_predict_in : in_features (predict self) = d_model self;
  built_predict_out : out_features (predict self) = seg_len self
}.

End ShapeOps.
End Shapes.

Module Numbers.
Import Tensor.

(** Exact arithmetic: the integers, with stand-ins for the two activation
    functions that have no integer counterpart. *)
#[export] Instance integers : Scalar := {|
  num := Z;
  zero := 0%Z;
  one := 1%Z;
  sadd := Z.add;
  ssub := Z.sub;
  smul := Z.mul;
  relu := Z.max 0;
  sigmoid := fun x => x;
  tanh := Z.sgn
|}.

Definition float_abs (x : float) : float := PrimFloat.abs x.

(** IEEE binary64 arithmetic (torch.float64).  [tanh] and [sigmoid] are
    rational stand-ins that agree with the real functions at 0. *)
Definition binary64 : Scalar := {|
  num := float;
  zero := 0%float;
  one := 1%float;
  sadd := PrimFloat.add;
  ssub := PrimFloat.sub;
  smul := PrimFloat.mul;
  relu := fun x => if (x <? 0)%float then 0%float else x;
  sigmoid := fun x => (0.5 + 0.5 * (x / (2 + float_abs x)))%float;
  tanh := fun x => (x / (1 + float_abs x))%float
|}.

End Numbers.

(** Small models and inputs to run [forward] on. *)
Module Bench.
Import Tensor SegRNN Numbers.

(** Integer parameters of the sizes [__init__] gives them. *)
Definition int_values (c : configs) : values (Sc := integers) :=
  let w := cfg_seg_len c in
  let d := cfg_d_model c in
  let m := cfg_pred_len c / w in
  Values (Sc := integers)
    (replicate (d * w) 1%Z) (replicate d 0%Z)
    (replicate (3 * d * d) 1%Z) (replicate (3 * d * d) 0%Z)
    (replicate (3 * d) 0%Z) (replicate (3 * d) 0%Z)
    (map Z.of_nat (seq 0 (m * (d / 2))))
    (map (fun i => (100 + Z.of_nat i)%Z) (seq 0 (cfg_enc_in c * (d / 2))))
    (replicate (w * d) 1%Z) (replicate w 0%Z).

(** The tensor of shape [b, s, c] that counts 0, 1, 2, ... *)
Definition int_input (b s c : nat) : tensor (Sc := integers) :=
  Tensor (Sc := integers) [b; s; c] (map Z.of_nat (seq 0 (b * s * c))).

(** seq_len 4, pred_len 2, enc_in 3, d_model 2, seg_len 2. *)
Definition even_cfg : configs := Configs 4 2 3 2 2.

(** The same with pred_len 4 and d_model 3. *)
Definition odd_cfg : configs := Configs 4 4 3 3 2.

(** seq_len 3 and seg_len 2: the division leaves a remainder. *)
Definition ragged_cfg : configs := Configs 3 2 1 2 2.

(** One channel, one step in, one step out, in binary64: every weight is 0
    and the bias of the projection is 1, so the network answers 1. *)
Definition unit_cfg : configs := Configs 1 1 1 2 1.

Definition unit_values : values (Sc := binary64) :=
  Values (Sc := binary64) [0; 0]%float [0; 0]%float
    (replicate 12 0%float) (replicate 12 0%float)
    (replicate 6 0%float) (replicate 6 0%float)
    [0]%float [0]%float [0; 0]%float [1]%float.

Definition unit_input : tensor (Sc := binary64) :=
  Tensor (Sc := binary64) [1; 1; 1] [1%float].

(** 2^53, where binary64 stops telling odd integers apart. *)
Definition big_shift : float := 0x1p53%float.

End Bench.

(* ===================================================================== *)
(** * The segment-wise recurrent forecaster, series by series *)
(* ===================================================================== *)

Module Forecaster.
Import Tensor SegRNN Shapes.

Section Spec.
Context `{Sc : Scalar}.
Variable self : model.
Variable mask : option (nat -> num).

(** One segment of [seg_len] numbers, embedded into [d_model] dimensions:
    the linear layer, then ReLU. *)
Definition embed (segment : list num) : list num :=
  map relu (affine (weight_rows (valueEmbedding self)) (bias (valueEmbedding self)) segment).

(** One series of [seq_len] numbers: split into [seq_len // seg_len] segments
    of [seg_len] numbers, each embedded, the embeddings fed in order through
    the recurrent layer, from the zero state. *)
Definition encode (series : list num) : list num :=
  foldl (gru_cell (rnn self)) (replicate (d_model self) zero)
    (map embed (chunks (seg_num_x self) (seg_len self) series)).

(** The rows of the two embedding tables. *)
Definition positions : list (list num) :=
  chunks (seg_num_y self) (d_model self / 2) (data (pos_emb self)).

Definition channels : list (list num) :=
  chunks (enc_in self) (d_model self / 2) (data (channel_emb self)).

(** The recurrent states a series is forecast from: one step of the
    recurrent layer from the encoded series, for every segment to forecast,
    on the segment's position joined to the channel of the series. *)
Definition decode (hidden channel : list num) : list (list num) :=
  map (fun position => gru_cell (rnn self) hidden (position ++ channel)) positions.

(** The last step of one element of the batch, and its series, one per
    channel, with the last step subtracted. *)
Definition last_of (batch : list num) : list num :=
  drop ((seq_len self - 1) * enc_in self) batch.

Definition normalized (batch : list num) : list (list num) :=
  map (fun step => zip_with ssub step (last_of batch))
    (chunks (seq_len self) (enc_in self) batch).

Definition series_of (batch : list num) : list (list num) :=
  transpose (enc_in self) (normalized batch).

Definition states_of (batch : list num) : list (list (list num)) :=
  zip_with (fun series channel => decode (encode series) channel) (series_of batch) channels.

(** A recurrent state projected back to a prediction of [seg_len] numbers
    (after dropout, when training; [slot] numbers the states of the call). *)
Definition project (slot : nat) (state : list num) : list num :=
  affine (weight_rows (predict self)) (bias (predict self))
    match mask with
    | None => state
    | Some factor => imap (fun k v => smul v (factor (slot * d_model self + k))) state
    end.

(** The forecast: the predictions of a series concatenated, the series of a
    batch element put back side by side, and the last step added back. *)
Definition forecast_data (batches : list (list num)) : list num :=
  let states := concat (concat (map states_of batches)) in
  let predictions := imap project states in
  let per_series :=
    map (@concat num) (chunks (length batches * enc_in self) (seg_num_y self) predictions) in
  let per_batch := chunks (length batches) (enc_in self) per_series in
  concat (zip_with (fun batch forecasts =>
                      concat (map (fun step => zip_with sadd step (last_of batch))
                                (transpose (pred_len self) forecasts)))
            batches per_batch).

Definition forecast (x : tensor) : tensor :=
  let b := hd 0 (shape x) in
  Tensor [b; pred_len self; enc_in self]
    (forecast_data (chunks b (seq_len self * enc_in self) (data x))).

(** In evaluation mode, the forecast of one element of the batch on its own. *)
Definition forecast_element (batch : list num) : list num :=
  concat (map (fun step => zip_with sadd step (last_of batch))
            (transpose (pred_len self)
               (map (fun states =>
                       concat (map (affine (weight_rows (predict self)) (bias (predict self)))
                                 states))
                  (states_of batch)))).

(** Channel [i] of a list of steps: what each step holds at position [i]. *)
Definition column (i : nat) (rows : list (list num)) : list num :=
  map (fun r => nth i r zero) rows.

(** In evaluation mode, the forecast of one series on the channel with the
    embedding [channel]: the last value is taken off, the series is encoded
    segment by segment, one state is decoded and projected for every segment
    to forecast, and the last value is added back. *)
Definition forecast_channel (channel series : list num) : list num :=
  let last_value := List.last series zero in
  map (fun v => sadd v last_value)
    (concat (map (affine (weight_rows (predict self)) (bias (predict self)))
               (decode (encode (map (fun v => ssub v last_value) series)) channel))).

End Spec.

(** Lists of rows of one length, and lists of such lists. *)
Definition uniform {A : Type} (size : nat) (rows : list (list A)) : Prop :=
  Forall (fun r => length r = size) rows.

Definition cube `{Sc : Scalar} (b s c : nat) (X : list (list (list num))) : Prop :=
  length X = b /\ Forall (fun rs => length rs = s /\ uniform c rs) X.

(** The parameters have the sizes [__init__] gives them (SegRNN.py:15-31). *)
Record sized `{Sc : Scalar} (c : configs) (v : values) : Prop := Sized {
  sized_embed_weight : length (v_embed_weight v) = cfg_d_model c * cfg_seg_len c;
  sized_embed_bias : length (v_embed_bias v) = cfg_d_model c;
  sized_weight_ih : length (v_weight_ih v) = 3 * cfg_d_model c * cfg_d_model c;
  sized_weight_hh : length (v_weight_hh v) = 3 * cfg_d_model c * cfg_d_model c;
  sized_bias_ih : length (v_bias_ih v) = 3 * cfg_d_model c;
  sized_bias_hh : length (v_bias_hh v) = 3 * cfg_d_model c;
  sized_pos_emb :
    length (v_pos_emb v) = cfg_pred_len c / cfg_seg_len c * (cfg_d_model c / 2);
  sized_channel_emb : length (v_channel_emb v) = cfg_enc_in c * (cfg_d_model c / 2);
  sized_predict_weight : length (v_predict_weight v) = cfg_seg_len c * cfg_d_model c;
  sized_predict_bias : length (v_predict_bias v) = cfg_seg_len c
}.

(** A model that [forward] runs through: parameters of the sizes [__init__]
    gives them, exact divisions, an even [d_model], no empty dimension. *)
Record ready `{Sc : Scalar} (self : model) : Prop := Ready {
  ready_built : built self;
  ready_embed_bias : length (bias (valueEmbedding self)) = d_model self;
  ready_bias_ih : length (bias_ih (rnn self)) = 3 * d_model self;
  ready_bias_hh : length (bias_hh (rnn self)) = 3 * d_model self;
  ready_predict_bias : length (bias (predict self)) = seg_len self;
  ready_pos_emb : length (data (pos_emb self)) = seg_num_y self * (d_model self / 2);
  ready_channel_emb : length (data (channel_emb self)) = enc_in self * (d_model self / 2);
  ready_segments_x : seg_num_x self * seg_len self = seq_len self;
  ready_segments_y : seg_num_y self * seg_len self = pred_len self;
  ready_halves : d_model self / 2 + d_model self / 2 = d_model self;
  ready_seq_len : 0 < seq_len self;
  ready_pred_len : 0 < pred_len self;
  ready_enc_in : 0 < enc_in self;
  ready_d_model : 0 < d_model self
}.

(** The tensors along [forward], as lists of rows. *)
Section Stages.
Context `{Sc : Scalar}.
Variable self : model.
Variable mask : option (nat -> num).
Variable b : nat.
Variable batches : list (list num).

(** All the series of the call, batch element after batch element. *)
Definition all_series : list (list num) := concat (map (series_of self) batches).

Definition segments : list (list num) :=
  concat (map (chunks (seg_num_x self) (seg_len self)) all_series).

Definition embedded : list (list (list num)) :=
  map (fun series => map (embed self) (chunks (seg_num_x self) (seg_len self) series))
    all_series.

Definition hidden : list (list num) := map (encode self) all_series.

(** The inputs of the second call of the recurrent layer, for one element of
    the batch: for every channel, for every segment to forecast, the position
    joined to the channel. *)
Definition queries : list (list num) :=
  concat (map (fun channel => map (fun position => position ++ channel) (positions self))
            (channels self)).

Definition states : list (list num) := concat (concat (map (states_of self) batches)).

Definition predictions : list (list num) := imap (project self mask) states.

(** The forecasts: one list of [pred_len] numbers per series, the series of
    one element of the batch together. *)
Definition per_series : list (list num) :=
  map (@concat num) (chunks (b * enc_in self) (seg_num_y self) predictions).

Definition per_batch : list (list (list num)) := chunks b (enc_in self) per_series.

End Stages.

End Forecaster.

(* ===================================================================== *)
(** * Counting calls in a log *)
(* ===================================================================== *)

Module Calls.
Import Py Train Trace Lab.

(** How many calls of a log satisfy [p]. *)
Fixpoint count_calls (p : call -> bool) (tr : list event) : nat :=
  match tr with
  | [] => 0
  | EvCall c :: rest => (if p c then 1 else 0) + count_calls p rest
  | _ :: rest => count_calls p rest
  end.

Definition is_forward (c : call) : bool :=
  match c with Cforward => true | _ => false end.

Definition is_zero_grad (c : call) : bool :=
  match c with Czero_grad => true | _ => false end.

Definition is_backward (c : call) : bool :=
  match c with Cbackward => true | _ => false end.

Definition is_optimizer_step (c : call) : bool :=
  match c with Coptimizer_step => true | _ => false end.

(** The calls that put the model in training mode or change what it learnt. *)
Definition updating_call (c : call) : bool :=
  match c with
  | Cmodel_train | Czero_grad | Cbackward | Coptimizer_step => true
  | _ => false
  end.

Definition evaluating (ev : event) : Prop :=
  match ev with
  | EvCall c => updating_call c = false
  | _ => True
  end.

(** Neither the call that writes the checkpoint nor the line that reports it. *)
Definition not_saving (ev : event) : Prop :=
  match ev with
  | EvCall (Ctorch_save _) => False
  | EvPrint (SavedLine _) => False
  | _ => True
  end.

(** No scheduler step of the log has a test loss below the threshold. *)
Definition never_below (tr : list event) : Prop :=
  forall tl, In (EvCall (Cscheduler_step tl)) tr -> (tl <? threshold)%float = false.

(** The four counts of a log of [train_step]: each forward pass is followed
    by zero_grad, backward and the optimizer step, in this order. *)
Definition in_step (res_ok : bool) (tr : list event) : Prop :=
  let f := count_calls is_forward tr in
  let z := count_calls is_zero_grad tr in
  let k := count_calls is_backward tr in
  let s := count_calls is_optimizer_step tr in
  s <= k /\ k <= z /\ z <= f /\ f <= S s /\ (res_ok = true -> f = s).

Definition returns {A : Type} (res : A + exn) : bool :=
  match res with inl _ => true | inr _ => false end.

(** How a run of the script stands to the checkpoint: a run that returns
    ends with the call that writes it and the line that reports it; a run
    that raises wrote nothing, or raised in that very call. *)
Definition saved_last (res : unit + exn) (tr : list event) : Prop :=
  match res with
  | inl _ =>
      exists pre, tr = pre ++ [EvCall (Ctorch_save save_path); EvPrint (SavedLine save_path)] /\
                  Forall not_saving pre
  | inr e =>
      exists pre, tr = pre ++ [EvRaise e] /\
        (Forall not_saving pre \/
         exists pre', pre = pre' ++ [EvCall (Ctorch_save save_path)] /\ Forall not_saving pre')
  end.

(** The lab library with a loader that yields the given batches. *)
Definition lab_loader (batches : list (unit * unit)) : Torch := {|
  World := lab_world;
  Obj := unit;
  Param := lab_param;
  param_shape := fst;
  model_train := fun _ => quietly tt;
  model_eval := fun _ => quietly tt;
  model_call := fun _ _ => quietly tt;
  model_to := fun _ _ => quietly tt;
  parameters := fun _ => quietly tt;
  state_dict := fun _ w => (inl (weights w), w);
  load_state_dict := fun _ saved => lab_load_state_dict saved;
  model_params := fun _ w => weights w;
  tensor_to := fun _ _ => quietly tt;
  unsqueeze := fun _ _ => quietly tt;
  item := fun _ => lab_item;
  backward := fun _ => quietly tt;
  inference_mode_enter := fun w => w;
  inference_mode_exit := fun w => w;
  loss_call := fun _ _ _ => quietly tt;
  acc_call := fun _ _ _ => quietly 0.5%float;
  zero_grad := fun _ => quietly tt;
  optimizer_step := fun _ => quietly tt;
  scheduler_step := fun _ _ => quietly tt;
  loader_iter := fun _ => quietly batches;
  loader_len := fun _ => quietly (length batches);
  trange := fun _ => quietly tt;
  bar_next := fun _ _ => quietly tt;
  bar_stop := fun _ => quietly tt;
  cuda_is_available := quietly false;
  WeatherDataset := fun _ _ => quietly tt;
  DataLoader := fun _ _ _ => quietly tt;
  LSTMModel := fun _ _ _ _ => quietly tt;
  MSELoss := quietly tt;
  Adam := fun _ _ _ => quietly tt;
  ReduceLROnPlateau := fun _ _ _ _ _ => quietly tt;
  accuracy := tt;
  plot_loss_curves := fun _ => quietly tt;
  path_exists := fun _ w => (inl (bool_decide (is_Some (disk w))), w);
  torch_load := fun _ => lab_torch_load;
  torch_save := fun sd _ => lab_torch_save sd
|}.

(** A fresh interpreter state: no readings, no parameters, no checkpoint file. *)
Definition fresh_world : lab_world := LabWorld [] ∅ None None.

(** Two epochs with test loss 8: no early stop. *)
Definition full_run : outcome (gmap string (list float)) :=
  lab_train 2 [9; 8; 9; 8]%float.

End Calls.

(* ===================================================================== *)
(** * models/SegRNN.py: [forward] before the last step is added back *)
(* ===================================================================== *)

Module Residual.
Import Tensor SegRNN.

Section Model.
Context `{Sc : Scalar}.

(** SegRNN.py:36-69, [forward] up to the addition of line 69: the tensor
    [y.permute(0, 2, 1)] and [seq_last], which is added to it. *)
Definition forward_before_denorm (empty_batch_ok : bool) (self : model)
    (mask : option (nat -> num)) (x : tensor) : option (tensor * tensor) :=
  batch_size ← size0 x;
  seq_last ← last_step x;
  x ← broadcast ssub x seq_last;
  x ← permute021 x;
  x ← reshape [None; Some (seg_num_x self); Some (seg_len self)] x;
  x ← linear (valueEmbedding self) x;
  let x := relu_layer x in
  enc ← gru empty_batch_ok (rnn self) x None;
  let hn := snd enc in
  p ← unsqueeze 0 (pos_emb self);
  p ← repeat [enc_in self; 1; 1] p;
  c ← unsqueeze 1 (channel_emb self);
  c ← repeat [1; seg_num_y self; 1] c;
  pe ← cat_last p c;
  pe ← reshape [None; Some 1; Some (d_model self)] pe;
  pe ← repeat [batch_size; 1; 1] pe;
  h0 ← repeat [1; 1; seg_num_y self] hn;
  h0 ← reshape [Some 1; None; Some (d_model self)] h0;
  dec ← gru empty_batch_ok (rnn self) pe (Some h0);
  let hy := snd dec in
  y ← linear (predict self) (dropout mask hy);
  y ← reshape [None; Some (enc_in self); Some (pred_len self)] y;
  y ← permute021 y;
  Some (y, seq_last).

End Model.
End Residual.

(* ===================================================================== *)
(** * Properties of train.py *)
(* ===================================================================== *)

Module TrainProofs.
Import Py Train Trace Lab.
Local Open Scope py_scope.


Section Discipline.
Context `{T : Torch}.
Variable P : event -> Prop.

Lemma disciplined_ret {A : Type} (a : A) w : disciplined P (ret a w).
Proof. constructor. Qed.

Lemma disciplined_raise {A : Type} e w : disciplined P (raise (A:=A) e w).
Proof. exists []. split; [reflexivity | constructor]. Qed.

Lemma disciplined_lib {A : Type} c (f : libfn World A) w :
  P (EvCall c) -> disciplined P (lib c f w).
Proof.
  intros Hc. unfold disciplined, lib. destruct (f w) as [[a|e] w']; simpl.
  - repeat constructor; assumption.
  - exists [EvCall c]. split; [reflexivity | repeat constructor; assumption].
Qed.

Lemma disciplined_print l w : P (EvPrint l) -> disciplined P (print l w).
Proof. intros Hl. unfold disciplined, print; simpl. repeat constructor; assumption. Qed.

Lemma disciplined_bind {A B : Type} (m : M A) (k : A -> M B) w :
  disciplined P (m w) -> (forall a w', disciplined P (k a w')) -> disciplined P (bind m k w).
Proof.
  unfold disciplined, bind. intros Hm Hk.
  destruct (m w) as [[a|e] w1 tr1]; simpl in *.
  - specialize (Hk a w1). destruct (k a w1) as [[b|e] w2 tr2]; simpl in *.
    + apply Forall_app; split; assumption.
    + destruct Hk as (tr & -> & Htr). exists (tr1 ++ tr). split.
      * now rewrite app_assoc.
      * apply Forall_app; split; assumption.
  - assumption.
Qed.

Lemma disciplined_truediv a n w : disciplined P (truediv a n w).
Proof.
  unfold truediv. destruct (n =? 0)%nat; [apply disciplined_raise | apply disciplined_ret].
Qed.

Lemma disciplined_with_inference_mode {A : Type} (body : M A) w :
  (forall w', disciplined P (body w')) -> disciplined P (with_inference_mode body w).
Proof. intros Hb. unfold with_inference_mode, disciplined; simpl. apply Hb. Qed.

End Discipline.


Ltac discipline :=
  repeat first
    [ apply disciplined_ret
    | apply disciplined_raise
    | apply disciplined_truediv
    | apply disciplined_lib; [exact I || reflexivity]
    | apply disciplined_print; [exact I || reflexivity]
    | apply disciplined_with_inference_mode; intros
    | apply disciplined_bind; [| intros] ].

Section Steps.
Context `{T : Torch}.

Lemma train_batches_inner model loss_fn optimizer acc_fn device batches tl ta w :
  disciplined inner_event
    (train_batches model loss_fn optimizer acc_fn device batches tl ta w).
Proof.
  revert tl ta w. induction batches as [|[X y] rest IH]; intros tl ta w; simpl.
  - discipline.
  - discipline. apply IH.
Qed.

Lemma train_step_inner model data_loader loss_fn optimizer acc_fn device w :
  disciplined inner_event (train_step model data_loader loss_fn optimizer acc_fn device w).
Proof.
  unfold train_step. discipline. apply train_batches_inner.
Qed.

Lemma test_batches_inner model loss_fn acc_fn device batches tl ta w :
  disciplined inner_event (test_batches model loss_fn acc_fn device batches tl ta w).
Proof.
  revert tl ta w. induction batches as [|[X y] rest IH]; intros tl ta w; simpl.
  - discipline.
  - discipline. apply IH.
Qed.

Lemma test_step_inner model data_loader loss_fn acc_fn device w :
  disciplined inner_event (test_step model data_loader loss_fn acc_fn device w).
Proof.
  unfold test_step. discipline. apply test_batches_inner.
Qed.


(** [results[key].append(v)] cannot fail on a dictionary that has the key. *)
Lemma append_ok key v (results : gmap string (list float)) w :
  is_Some (results !! key) ->
  append key v results w = Outcome (inl (append_value key v results)) w [].
Proof.
  intros [l Hl]. unfold append, append_value. rewrite Hl. reflexivity.
Qed.

End Steps.

Lemma lookup_append_value key v (results : gmap string (list float)) k :
  append_value key v results !! k =
    if decide (key = k) then (fun l => l ++ [v]) <$> results !! k else results !! k.
Proof.
  unfold append_value. destruct (results !! key) as [l|] eqn:Hl.
  - rewrite lookup_insert. destruct (decide (key = k)) as [<-|]; [now rewrite Hl | reflexivity].
  - destruct (decide (key = k)) as [<-|]; [now rewrite Hl | reflexivity].
Qed.

Lemma has_keys_append_value key v results :
  has_keys results -> has_keys (append_value key v results).
Proof.
  unfold has_keys. rewrite !Stdlib.Lists.List.Forall_forall. intros H k Hk.
  rewrite lookup_append_value. specialize (H k Hk). destruct H as [l Hl].
  rewrite Hl. destruct (decide (key = k)); simpl; eauto.
Qed.

Lemma has_keys_lookup results k : has_keys results -> In k metric_names -> is_Some (results !! k).
Proof. unfold has_keys. rewrite Stdlib.Lists.List.Forall_forall. auto. Qed.

Lemma has_keys_appended results a b c d : has_keys results -> has_keys (appended results a b c d).
Proof. intros H. unfold appended. now repeat apply has_keys_append_value. Qed.

Lemma has_keys_empty : has_keys empty_results.
Proof. unfold has_keys, metric_names, empty_results. repeat constructor; vm_compute; eauto. Qed.

(** The lists of [appended]: each one more value. *)
Lemma entries_appended results a b c d k :
  has_keys results -> In k metric_names ->
  entries (appended results a b c d) k = S (entries results k).
Proof.
  intros H Hk. pose proof (has_keys_lookup _ _ H Hk) as [l Hl].
  unfold entries, appended. rewrite !lookup_append_value, Hl.
  simpl in Hk. destruct Hk as [<-|[<-|[<-|[<-|[]]]]]; simpl;
    rewrite ?length_app; simpl; lia.
Qed.

Lemma test_loss_appended results a b c d l :
  results !! "test_loss" = Some l ->
  appended results a b c d !! "test_loss" = Some (l ++ [b]).
Proof.
  intros Hl. unfold appended. rewrite !lookup_append_value, Hl. reflexivity.
Qed.

Section Runs.
Context `{T : Torch}.

Lemma bind_returned {A B : Type} (m : M A) (k : A -> M B) w a w1 tr1 :
  m w = Outcome (inl a) w1 tr1 ->
  bind m k w = Outcome (result (k a w1)) (world (k a w1)) (tr1 ++ emitted (k a w1)).
Proof. unfold bind. intros ->. reflexivity. Qed.

Lemma bind_raised {A B : Type} (m : M A) (k : A -> M B) w e w1 tr1 :
  m w = Outcome (inr e) w1 tr1 -> bind m k w = Outcome (inr e) w1 tr1.
Proof. unfold bind. intros ->. reflexivity. Qed.

(** The four appends, on a dictionary that has the four keys. *)
Lemma appends_run (results : gmap string (list float)) trl tl tra ta w :
  has_keys results ->
  (r1 <- append "train_loss" trl results ;;
   r2 <- append "test_loss" tl r1 ;;
   r3 <- append "train_acc" tra r2 ;;
   r4 <- append "test_acc" ta r3 ;;
   ret (Continue r4))%py w
  = Outcome (inl (Continue (appended results trl tl tra ta))) w [].
Proof.
  intros Hk.
  pose proof (has_keys_append_value "train_loss" trl _ Hk) as Hk1.
  pose proof (has_keys_append_value "test_loss" tl _ Hk1) as Hk2.
  pose proof (has_keys_append_value "train_acc" tra _ Hk2) as Hk3.
  rewrite (bind_returned _ _ _ _ _ _ (append_ok "train_loss" trl results w
             (has_keys_lookup _ "train_loss" Hk ltac:(simpl; tauto)))).
  rewrite (bind_returned _ _ _ _ _ _ (append_ok "test_loss" tl _ w
             (has_keys_lookup _ "test_loss" Hk1 ltac:(simpl; tauto)))).
  rewrite (bind_returned _ _ _ _ _ _ (append_ok "train_acc" tra _ w
             (has_keys_lookup _ "train_acc" Hk2 ltac:(simpl; tauto)))).
  rewrite (bind_returned _ _ _ _ _ _ (append_ok "test_acc" ta _ w
             (has_keys_lookup _ "test_acc" Hk3 ltac:(simpl; tauto)))).
  reflexivity.
Qed.

Lemma epoch_body_run model train_dataloader test_dataloader loss_fn optimizer scheduler
    acc_fn device epoch results w :
  has_keys results ->
  let o := epoch_body model train_dataloader test_dataloader loss_fn optimizer scheduler
             acc_fn device epoch results w in
  body_run epoch results (result o) (emitted o).
Proof.
  intros Hk o. subst o. unfold epoch_body.
  pose proof (train_step_inner model train_dataloader loss_fn optimizer acc_fn device w) as H1.
  unfold disciplined in H1.
  destruct (train_step model train_dataloader loss_fn optimizer acc_fn device w)
    as [[[trl tra]|e] w1 A1] eqn:E1; cbn [result emitted] in H1.
  2:{ rewrite (bind_raised _ _ _ _ _ _ E1). cbn [result emitted].
      destruct H1 as (A & -> & HA). now constructor. }
  rewrite (bind_returned _ _ _ _ _ _ E1). cbn [result emitted]. clear E1.
  pose proof (test_step_inner model test_dataloader loss_fn acc_fn device w1) as H2.
  unfold disciplined in H2.
  destruct (test_step model test_dataloader loss_fn acc_fn device w1)
    as [[[tl ta]|e] w2 A2] eqn:E2; cbn [result emitted] in H2.
  2:{ rewrite (bind_raised _ _ _ _ _ _ E2). cbn [result emitted].
      destruct H2 as (A & -> & HA). rewrite app_assoc. constructor.
      apply Forall_app; split; assumption. }
  rewrite (bind_returned _ _ _ _ _ _ E2). cbn [result emitted]. clear E2.
  assert (HA : quiet (A1 ++ A2)) by (apply Forall_app; split; assumption).
  rewrite app_assoc. generalize dependent (A1 ++ A2). intros A HA. clear H1 H2 A1 A2.
  destruct (scheduler_step scheduler tl w2) as [[[]|e] w3] eqn:E3.
  2:{ rewrite (bind_raised _ _ _ e w3 [EvCall (Cscheduler_step tl); EvRaise e])
        by (unfold lib; now rewrite E3).
      cbn [result emitted]. now constructor. }
  rewrite (bind_returned _ _ _ tt w3 [EvCall (Cscheduler_step tl)])
    by (unfold lib; now rewrite E3).
  cbn [result emitted]. clear E3.
  destruct (tl <? threshold)%float eqn:Hb.
  { cbn [ret result emitted]. rewrite app_nil_r. now constructor. }
  rewrite (bind_returned _ _ _ tt w3 (status_of epoch trl tl tra ta))
    by (unfold status_of; destruct (epoch mod 10 =? 0)%nat; reflexivity).
  rewrite appends_run by assumption. cbn [result emitted].
  rewrite app_nil_r. simpl. now constructor.
Qed.

Lemma for_epochs_run progress_bar model train_dataloader test_dataloader loss_fn optimizer
    scheduler acc_fn device indices results w :
  has_keys results ->
  let o := for_epochs progress_bar
             (epoch_body model train_dataloader test_dataloader loss_fn optimizer scheduler
                acc_fn device) indices results w in
  loop_run indices results (result o) (emitted o).
Proof.
  revert results w. induction indices as [|i rest IH]; intros results w Hk; simpl.
  - unfold bind, lib. destruct (bar_stop progress_bar w) as [[[]|e] w1]; simpl; constructor.
  - cbv beta delta [bind lib].
    destruct (bar_next progress_bar i w) as [[[]|e] w1]; simpl; [|constructor].
    pose proof (epoch_body_run model train_dataloader test_dataloader loss_fn optimizer
                  scheduler acc_fn device i results w1 Hk) as Hb. simpl in Hb.
    destruct (epoch_body model train_dataloader test_dataloader loss_fn optimizer scheduler
                acc_fn device i results w1) as [[[r'|r']|e] w2 tr]; simpl in *.
    + assert (Hk' : has_keys r').
      { inversion Hb; subst. now apply has_keys_appended. }
      specialize (IH r' w2 Hk'). simpl in IH.
      apply loop_continue with (r' := r'); assumption.
    + rewrite app_nil_r. now apply loop_break.
    + now apply loop_body_raise.
Qed.

(** The runs of [train]: the progress bar is made, then the loop runs. *)
Lemma train_run model epochs train_dataloader test_dataloader loss_fn optimizer scheduler
    acc_fn device w :
  let o := train model epochs train_dataloader test_dataloader loss_fn optimizer scheduler
             acc_fn device w in
  (exists e, result o = inr e /\ emitted o = [EvCall (Ctrange epochs); EvRaise e]) \/
  (exists tr, emitted o = EvCall (Ctrange epochs) :: tr /\
              loop_run (seq 0 (Z.to_nat epochs)) empty_results (result o) tr).
Proof.
  cbv beta zeta delta [train bind lib].
  destruct (trange epochs w) as [[bar|e] w1]; simpl.
  - right. eexists; split; [reflexivity|]. apply for_epochs_run, has_keys_empty.
  - left. eauto.
Qed.

End Runs.


(** ** Reading the log past the events of the two steps *)

Lemma executed_quiet A tr : quiet A -> executed_epochs (A ++ tr) = executed_epochs tr.
Proof.
  induction 1 as [|ev A Hev _ IH]; [reflexivity|]. simpl.
  destruct ev as [c| |]; try contradiction. destruct c; simpl in Hev; try discriminate; exact IH.
Qed.

Lemma recorded_quiet cur A tr : quiet A -> recorded_from cur (A ++ tr) = recorded_from cur tr.
Proof.
  induction 1 as [|ev A Hev _ IH]; [reflexivity|]. simpl.
  destruct ev as [c| |]; try contradiction. destruct c; simpl in Hev; try discriminate; exact IH.
Qed.

Lemma status_quiet cur A tr : quiet A -> status_epochs_from cur (A ++ tr) = status_epochs_from cur tr.
Proof.
  induction 1 as [|ev A Hev _ IH]; [reflexivity|]. simpl.
  destruct ev as [c| |]; try contradiction. destruct c; simpl in Hev; try discriminate; exact IH.
Qed.

Lemma loop_run_head indices r res tr :
  loop_run indices r res tr -> exists c rest, tr = EvCall c :: rest.
Proof. destruct 1; eauto. Qed.

Lemma returned_status epoch a b c d indices r res tr :
  loop_run indices r res tr -> returned (status_of epoch a b c d ++ tr) = true.
Proof.
  intros H. destruct (loop_run_head _ _ _ _ H) as (c' & rest & ->).
  unfold status_of. destruct (epoch mod 10 =? 0)%nat; reflexivity.
Qed.

Lemma recorded_status cur epoch a b c d tr :
  recorded_from cur (status_of epoch a b c d ++ tr) = recorded_from cur tr.
Proof. unfold status_of. destruct (epoch mod 10 =? 0)%nat; reflexivity. Qed.

Lemma status_status i epoch a b c d tr :
  status_epochs_from (Some i) (status_of epoch a b c d ++ tr) =
  (if (epoch mod 10 =? 0)%nat then [i] else []) ++ status_epochs_from (Some i) tr.
Proof. unfold status_of. destruct (epoch mod 10 =? 0)%nat; reflexivity. Qed.

(** ** Early stopping *)

Lemma stop_ok_nil {R : Type} (res : R + exn) : stop_ok res [].
Proof. intros [|? ?] tl post H; discriminate. Qed.

Lemma stop_ok_cons {R : Type} (res : R + exn) ev tr :
  (forall tl, ev <> EvCall (Cscheduler_step tl)) -> stop_ok res tr -> stop_ok res (ev :: tr).
Proof.
  intros Hne H [|ev' pre] tl post Heq Hb; simpl in Heq; inversion Heq; subst.
  - now destruct (Hne tl).
  - eapply H; eauto.
Qed.

Lemma stop_ok_passed {R : Type} (res : R + exn) tl tr :
  (tl <? threshold)%float = false -> stop_ok res tr ->
  stop_ok res (EvCall (Cscheduler_step tl) :: tr).
Proof.
  intros Hf H [|ev' pre] tl' post Heq Hb; simpl in Heq; inversion Heq; subst.
  - congruence.
  - eapply H; eauto.
Qed.

Lemma stop_ok_quiet {R : Type} (res : R + exn) A tr :
  quiet A -> stop_ok res tr -> stop_ok res (A ++ tr).
Proof.
  induction 1 as [|ev A Hev _ IH]; intros H; [exact H|]. simpl.
  apply stop_ok_cons; [|auto].
  intros tl ->. simpl in Hev. discriminate.
Qed.

Lemma stop_ok_returned {R : Type} (r : R) tl : stop_ok (inl r) [EvCall (Cscheduler_step tl)].
Proof.
  intros [|ev' [|? ?]] tl' post Heq Hb; simpl in Heq; inversion Heq; subst.
  left. eauto.
Qed.

Lemma stop_ok_raised {R : Type} e tl :
  stop_ok (inr e : R + exn) [EvCall (Cscheduler_step tl); EvRaise e].
Proof.
  intros [|ev' [|? [|? ?]]] tl' post Heq Hb; simpl in Heq; inversion Heq; subst.
  right. eauto.
Qed.

Lemma stop_ok_status {R : Type} (res : R + exn) epoch a b c d tr :
  stop_ok res tr -> stop_ok res (status_of epoch a b c d ++ tr).
Proof.
  intros H. unfold status_of. destruct (epoch mod 10 =? 0)%nat; [|exact H].
  simpl. apply stop_ok_cons; [discriminate | exact H].
Qed.

Lemma loop_run_stop_ok indices r res tr : loop_run indices r res tr -> stop_ok res tr.
Proof.
  induction 1 as [r|r e|i rest r e|i rest r e tr Hb|i rest r r' tr Hb
                 |i rest r r' tr res tr' Hb Hk Hl IH].
  - apply stop_ok_cons; [discriminate | apply stop_ok_nil].
  - repeat (apply stop_ok_cons; [discriminate |]). apply stop_ok_nil.
  - repeat (apply stop_ok_cons; [discriminate |]). apply stop_ok_nil.
  - apply stop_ok_cons; [discriminate |]. inversion Hb; subst.
    + apply stop_ok_quiet; [assumption|].
      apply stop_ok_cons; [discriminate | apply stop_ok_nil].
    + apply stop_ok_quiet; [assumption | apply stop_ok_raised].
  - apply stop_ok_cons; [discriminate |]. inversion Hb; subst.
    apply stop_ok_quiet; [assumption | apply stop_ok_returned].
  - apply stop_ok_cons; [discriminate |]. inversion Hb; subst.
    rewrite <- app_assoc. apply stop_ok_quiet; [assumption|]. simpl.
    apply stop_ok_passed; [assumption|]. now apply stop_ok_status.
Qed.

Section LoopClaims.
Context `{T : Torch}.

(** C1. As soon as the test loss of an epoch is below the threshold (7),
    [train] returns: in the log of any run, a scheduler step whose test loss
    is below the threshold is the last event and [train] returns its record
    (or, when that very call raises, the exception is the last event and is
    what [train] ends with).  No epoch is started after it. *)
Theorem train_stops_below_threshold model epochs train_dataloader test_dataloader loss_fn
    optimizer scheduler acc_fn device w pre tl post :
  let o := train model epochs train_dataloader test_dataloader loss_fn optimizer
             scheduler acc_fn device w in
  emitted o = pre ++ EvCall (Cscheduler_step tl) :: post ->
  (tl <? threshold)%float = true ->
  executed_epochs post = [] /\
  ((post = [] /\ exists r, result o = inl r) \/
   (exists e, post = [EvRaise e] /\ result o = inr e)).
Proof.
  intros o Hem Hb.
  assert (Hok : stop_ok (result o) (emitted o)).
  { destruct (train_run model epochs train_dataloader test_dataloader loss_fn optimizer
                scheduler acc_fn device w) as [(e & Hr & He)|(tr & He & Hl)];
      fold o in Hr, He || fold o in He, Hl.
    - rewrite He. repeat (apply stop_ok_cons; [discriminate |]). apply stop_ok_nil.
    - rewrite He. apply stop_ok_cons; [discriminate |]. now apply loop_run_stop_ok in Hl. }
  destruct (Hok pre tl post Hem Hb) as [[-> Hr]|(e & -> & Hr)].
  - split; [reflexivity | left; auto].
  - split; [reflexivity | right; eauto].
Qed.

End LoopClaims.


(** ** The status line *)

Lemma loop_run_status indices r res tr :
  loop_run indices r res tr ->
  forall cur,
    status_epochs_from cur tr = List.filter tenth (map fst (recorded_from cur tr)).
Proof.
  induction 1 as [r|r e|i rest r e|i rest r e tr Hb|i rest r r' tr Hb
                 |i rest r r' tr res tr' Hb Hk Hl IH]; intros cur;
    try reflexivity; simpl.
  - inversion Hb; subst; rewrite status_quiet, recorded_quiet by assumption; reflexivity.
  - inversion Hb as [| |A tl HA Hlt|]; subst.
    rewrite status_quiet, recorded_quiet by assumption. simpl. now rewrite Hlt.
  - inversion Hb as [| | |A trl tl tra ta HA Hlt]; subst.
    rewrite <- app_assoc, status_quiet, recorded_quiet by assumption. simpl.
    rewrite (returned_status _ _ _ _ _ _ _ _ _ Hl), Hlt. simpl.
    rewrite status_status, recorded_status, IH. unfold tenth at 2.
    destruct (i mod 10 =? 0)%nat; reflexivity.
Qed.

(** ** The results record *)

Lemma loop_run_record indices r res tr :
  loop_run indices r res tr ->
  forall r', res = inl r' -> has_keys r ->
  forall cur,
    has_keys r' /\
    (forall k, In k metric_names ->
       entries r' k = entries r k + length (recorded_from cur tr)) /\
    (forall l, r !! "test_loss" = Some l ->
       r' !! "test_loss" = Some (l ++ map snd (recorded_from cur tr))).
Proof.
  induction 1 as [r|r e|i rest r e|i rest r e tr Hb|i rest r r' tr Hb
                 |i rest r r' tr res tr' Hb Hk Hl IH]; intros r1 Hr Hkr cur;
    try discriminate; simpl.
  - injection Hr as <-. repeat split; [assumption | intros; lia |].
    intros l ->. now rewrite app_nil_r.
  - injection Hr as <-. inversion Hb as [| |A tl HA Hlt|]; subst.
    rewrite recorded_quiet by assumption. simpl. rewrite Hlt. simpl.
    repeat split; [assumption | intros; lia |].
    intros l ->. now rewrite app_nil_r.
  - inversion Hb as [| | |A trl tl tra ta HA Hlt]; subst.
    destruct (IH r1 eq_refl Hk (Some i)) as (Hk1 & Hlen & Htl).
    rewrite <- app_assoc, recorded_quiet by assumption. simpl.
    rewrite (returned_status _ _ _ _ _ _ _ _ _ Hl), Hlt. simpl.
    rewrite recorded_status.
    repeat split; [assumption | |].
    + intros k Hin. rewrite (Hlen k Hin), entries_appended by assumption. lia.
    + intros l Hl0. rewrite (Htl _ (test_loss_appended _ trl tl tra ta _ Hl0)).
      now rewrite <- app_assoc.
Qed.

Lemma entries_empty k : In k metric_names -> entries empty_results k = 0.
Proof. simpl. intros [<-|[<-|[<-|[<-|[]]]]]; reflexivity. Qed.

Lemma entries_lookup (r : gmap string (list float)) k n :
  is_Some (r !! k) -> entries r k = n -> exists l, r !! k = Some l /\ length l = n.
Proof. intros [l Hl] <-. unfold entries. rewrite Hl. eauto. Qed.

(** ** The loop invariant *)

Lemma balanced_appended r a b c d : balanced r -> balanced (appended r a b c d).
Proof.
  intros [Hk Hb]. split; [now apply has_keys_appended|].
  rewrite Stdlib.Lists.List.Forall_forall in *. intros k Hin.
  rewrite !entries_appended; try assumption; [|simpl; tauto].
  now rewrite (Hb k Hin).
Qed.

Lemma balanced_empty : balanced empty_results.
Proof.
  split; [apply has_keys_empty|]. repeat constructor.
Qed.

Lemma loop_run_balanced indices r res tr :
  loop_run indices r res tr -> forall r', res = inl r' -> balanced r -> balanced r'.
Proof.
  induction 1 as [r|r e|i rest r e|i rest r e tr Hb|i rest r r' tr Hb
                 |i rest r r' tr res tr' Hb Hk Hl IH]; intros r1 Hr Hbal;
    try discriminate.
  - now injection Hr as <-.
  - injection Hr as <-. now inversion Hb; subst.
  - apply IH; [assumption|]. inversion Hb; subst. now apply balanced_appended.
Qed.

Section RecordClaims.
Context `{T : Torch}.

(** C7 (as the code has it).  The status line is printed during exactly
    those epochs that go past the threshold test (their scheduler step
    returned and their test loss is not below 7) and whose index is a
    multiple of 10. *)
Theorem status_line_every_tenth_recorded_epoch model epochs train_dataloader
    test_dataloader loss_fn optimizer scheduler acc_fn device w :
  let o := train model epochs train_dataloader test_dataloader loss_fn optimizer
             scheduler acc_fn device w in
  status_epochs (emitted o) =
    List.filter (fun i => (i mod 10 =? 0)%nat) (map fst (recorded_epochs (emitted o))).
Proof.
  intros o.
  destruct (train_run model epochs train_dataloader test_dataloader loss_fn optimizer
              scheduler acc_fn device w) as [(e & Hr & He)|(tr & He & Hl)];
    fold o in Hr, He || fold o in He, Hl; rewrite He; [reflexivity|].
  unfold status_epochs, recorded_epochs. simpl.
  apply (loop_run_status _ _ _ _ Hl None).
Qed.

(** C3 (as the code has it).  The record [train] returns maps each of the
    four metric names to a list with one value per epoch that went past the
    threshold test, in order (the test losses are the ones handed to the
    scheduler); it starts empty in every call, whatever ran before. *)
Theorem train_returns_record_of_recorded_epochs model epochs train_dataloader
    test_dataloader loss_fn optimizer scheduler acc_fn device w r :
  let o := train model epochs train_dataloader test_dataloader loss_fn optimizer
             scheduler acc_fn device w in
  result o = inl r ->
  Forall (fun k => exists l, r !! k = Some l /\
                     length l = length (recorded_epochs (emitted o))) metric_names /\
  r !! "test_loss" = Some (map snd (recorded_epochs (emitted o))).
Proof.
  intros o Hres.
  destruct (train_run model epochs train_dataloader test_dataloader loss_fn optimizer
              scheduler acc_fn device w) as [(e & Hr & He)|(tr & He & Hl)];
    fold o in Hr, He || fold o in He, Hl; [congruence|].
  rewrite He. unfold recorded_epochs. simpl.
  destruct (loop_run_record _ _ _ _ Hl r Hres has_keys_empty None) as (Hk & Hlen & Htl).
  split.
  - rewrite Stdlib.Lists.List.Forall_forall. intros k Hin.
    apply entries_lookup; [now apply has_keys_lookup|].
    rewrite (Hlen k Hin), entries_empty by assumption. reflexivity.
  - apply (Htl [] eq_refl).
Qed.

(** C10.  The four metric lists have one length whenever the loop body is
    entered or left and in the record [train] returns: a pass that goes on
    adds one value to each, after the threshold test, and the pass that stops
    early hands back the record it was given; so the record returned can be
    empty after an epoch was run ([stopped_run]). *)
Theorem metric_lists_stay_balanced model epochs train_dataloader test_dataloader loss_fn
    optimizer scheduler acc_fn device epoch results w :
  balanced results ->
  match result (epoch_body model train_dataloader test_dataloader loss_fn optimizer
                  scheduler acc_fn device epoch results w) with
  | inl (Continue r') =>
      balanced r' /\ Forall (fun k => entries r' k = S (entries results k)) metric_names
  | inl (Break r') => r' = results
  | inr _ => True
  end /\
  balanced empty_results /\
  (forall r w', result (train model epochs train_dataloader test_dataloader loss_fn
                          optimizer scheduler acc_fn device w') = inl r -> balanced r) /\
  (executed_epochs (emitted stopped_run) = [0] /\ result stopped_run = inl empty_results).
Proof.
  intros Hbal. split; [|split; [|split; [|split; reflexivity]]].
  - pose proof (epoch_body_run model train_dataloader test_dataloader loss_fn optimizer
                  scheduler acc_fn device epoch results w (proj1 Hbal)) as Hb.
    simpl in Hb.
    destruct (result (epoch_body model train_dataloader test_dataloader loss_fn optimizer
                        scheduler acc_fn device epoch results w)) as [[r'|r']|e];
      [| |exact I]; inversion Hb; subst; [|reflexivity].
    split; [now apply balanced_appended|].
    rewrite Stdlib.Lists.List.Forall_forall. intros k Hin.
    apply entries_appended; [exact (proj1 Hbal) | assumption].
  - apply balanced_empty.
  - intros r w' Hres.
    destruct (train_run model epochs train_dataloader test_dataloader loss_fn optimizer
                scheduler acc_fn device w') as [(e & Hr & He)|(tr & He & Hl)];
      [congruence|].
    exact (loop_run_balanced _ _ _ _ Hl r Hres balanced_empty).
Qed.

End RecordClaims.


(** ** Exceptions in the script *)

Lemma handled_app a b : handled a -> handled b -> handled (a ++ b).
Proof.
  induction 1; intros Hb; simpl;
    [assumption | apply handled_plain; auto | apply handled_caught; auto].
Qed.

Lemma handled_of_plain tr : Forall plain_event tr -> handled tr.
Proof. induction 1; constructor; assumption. Qed.

(** Where an exception stands in a log without uncaught exceptions. *)
Lemma handled_raise_caught tr :
  handled tr -> forall pre e post, tr = pre ++ EvRaise e :: post ->
  exists pre' c post', pre = pre' ++ [EvCall c] /\ guarded_call c = true /\
    isinstance_RuntimeError e = true /\ post = EvPrint MismatchLine :: post'.
Proof.
  induction 1 as [|ev tr Hev Htr IH|c e0 tr Hc He Htr IH]; intros pre e post Heq.
  - destruct pre; discriminate.
  - destruct pre as [|ev' pre]; simpl in Heq; inversion Heq; subst.
    + contradiction.
    + destruct (IH _ _ _ eq_refl) as (pre' & c & post' & -> & Hc & He & ->).
      exists (ev' :: pre'), c, post'. auto.
  - destruct pre as [|ev1 [|ev2 [|ev3 pre]]]; simpl in Heq; inversion Heq; subst.
    + exists [], c, tr. auto.
    + destruct (IH _ _ _ eq_refl) as (pre' & c' & post' & -> & Hc' & He' & ->).
      exists (EvCall c :: EvRaise e0 :: EvPrint MismatchLine :: pre'), c', post'. auto.
Qed.

Section Propagation.
Context `{T : Torch}.

Lemma propagates_of_disciplined {A : Type} (o : outcome A) :
  disciplined plain_event o -> propagates o.
Proof.
  unfold disciplined, propagates. destruct (result o).
  - apply handled_of_plain.
  - intros (tr & -> & H). eauto using handled_of_plain.
Qed.

Lemma propagates_lib {A : Type} c (f : libfn World A) w : propagates (lib c f w).
Proof. apply propagates_of_disciplined, disciplined_lib. exact I. Qed.

Lemma propagates_print l w : propagates (print l w).
Proof. apply propagates_of_disciplined, disciplined_print. exact I. Qed.

Lemma propagates_bind {A B : Type} (m : M A) (k : A -> M B) w :
  propagates (m w) -> (forall a w', propagates (k a w')) -> propagates (bind m k w).
Proof.
  unfold propagates, bind. intros Hm Hk.
  destruct (m w) as [[a|e] w1 tr1]; simpl in *; [|assumption].
  specialize (Hk a w1). destruct (k a w1) as [[b|e] w2 tr2]; simpl in *.
  - now apply handled_app.
  - destruct Hk as (tr & -> & Htr). exists (tr1 ++ tr). split.
    + now rewrite app_assoc.
    + now apply handled_app.
Qed.

Lemma propagates_split {A : Type} (o : outcome A) pre e post :
  propagates o -> emitted o = pre ++ EvRaise e :: post ->
  (exists pre' c post', pre = pre' ++ [EvCall c] /\ guarded_call c = true /\
     isinstance_RuntimeError e = true /\ post = EvPrint MismatchLine :: post') \/
  (post = [] /\ result o = inr e).
Proof.
  unfold propagates. destruct (result o) as [a|e0]; intros H Heq.
  - left. rewrite Heq in H. exact (handled_raise_caught _ H _ _ _ eq_refl).
  - destruct H as (tr & Htr & Hh). rewrite Htr in Heq.
    destruct post as [|ev rest].
    + apply app_inj_tail in Heq as [_ Heq]. injection Heq as ->. right; auto.
    + left. remember (ev :: rest) as post eqn:Hp.
      assert (Hl : exists post0, post = post0 ++ [EvRaise e0]).
      { destruct (exists_last (l := post)) as (post0 & x & Hx); [congruence|].
        rewrite Hx in Heq. rewrite app_comm_cons, app_assoc in Heq.
        apply app_inj_tail in Heq as [_ <-]. eauto. }
      destruct Hl as (post0 & Hl). rewrite Hl in Heq.
      rewrite app_comm_cons, app_assoc in Heq. apply app_inj_tail in Heq as [Heq _].
      destruct (handled_raise_caught _ Hh _ _ _ Heq) as (pre' & c & post' & -> & Hc & He & ->).
      exists pre', c, (post' ++ [EvRaise e0]). rewrite Hl. auto.
Qed.

Lemma disciplined_mono {A : Type} (P Q : event -> Prop) (o : outcome A) :
  (forall ev, P ev -> Q ev) -> disciplined P o -> disciplined Q o.
Proof.
  intros HPQ. unfold disciplined. destruct (result o).
  - apply Stdlib.Lists.List.Forall_impl. exact HPQ.
  - intros (tr & -> & H). exists tr. split; [reflexivity|].
    revert H. apply Stdlib.Lists.List.Forall_impl. exact HPQ.
Qed.

Lemma inner_plain ev : inner_event ev -> plain_event ev.
Proof. destruct ev; simpl; auto. Qed.

Lemma append_plain key v results w : disciplined plain_event (append key v results w).
Proof. unfold append. destruct (results !! key); discipline. Qed.

Lemma epoch_body_plain model train_dataloader test_dataloader loss_fn optimizer scheduler
    acc_fn device epoch results w :
  disciplined plain_event
    (epoch_body model train_dataloader test_dataloader loss_fn optimizer scheduler
       acc_fn device epoch results w).
Proof.
  unfold epoch_body. apply disciplined_bind.
  { eapply disciplined_mono; [apply inner_plain | apply train_step_inner]. }
  intros [trl tra] w1. apply disciplined_bind.
  { eapply disciplined_mono; [apply inner_plain | apply test_step_inner]. }
  intros [tl ta] w2. apply disciplined_bind; [discipline|]. intros _ w3.
  destruct (tl <? threshold)%float; [discipline|].
  apply disciplined_bind.
  { destruct (epoch mod 10 =? 0)%nat; discipline. }
  intros _ w4.
  repeat (apply disciplined_bind; [apply append_plain | intros]). discipline.
Qed.

Lemma for_epochs_plain progress_bar model train_dataloader test_dataloader loss_fn
    optimizer scheduler acc_fn device indices results w :
  disciplined plain_event
    (for_epochs progress_bar
       (epoch_body model train_dataloader test_dataloader loss_fn optimizer scheduler
          acc_fn device) indices results w).
Proof.
  revert results w. induction indices as [|i rest IH]; intros results w; simpl.
  - discipline.
  - apply disciplined_bind; [discipline|]. intros _ w1.
    apply disciplined_bind; [apply epoch_body_plain|]. intros [r'|r'] w2.
    + apply IH.
    + discipline.
Qed.

Lemma train_plain model epochs train_dataloader test_dataloader loss_fn optimizer scheduler
    acc_fn device w :
  disciplined plain_event
    (train model epochs train_dataloader test_dataloader loss_fn optimizer scheduler
       acc_fn device w).
Proof.
  unfold train. apply disciplined_bind; [discipline|]. intros bar w1.
  apply for_epochs_plain.
Qed.

(** The statements inside the [try]: an exception there is raised by one of
    the three calls. *)
Lemma load_saved_run model w :
  let o := load_saved model w in
  match result o with
  | inl _ => Forall plain_event (emitted o)
  | inr e => exists tr c, emitted o = tr ++ [EvCall c; EvRaise e] /\
               guarded_call c = true /\ Forall plain_event tr
  end.
Proof.
  cbv beta zeta delta [load_saved bind lib].
  destruct (path_exists save_path w) as [[[|]|e] w1]; simpl.
  - destruct (torch_load save_path w1) as [[saved|e] w2]; simpl.
    + destruct (load_state_dict model saved w2) as [[[]|e] w3]; simpl.
      * repeat constructor.
      * exists [EvCall (Cexists save_path); EvCall (Ctorch_load save_path)], Cload_state_dict.
        repeat split; repeat constructor.
    + exists [EvCall (Cexists save_path)], (Ctorch_load save_path).
      repeat split; repeat constructor.
  - repeat constructor.
  - exists [], (Cexists save_path). repeat split; repeat constructor.
Qed.

Lemma load_checkpoint_propagates model w : propagates (load_checkpoint model w).
Proof.
  pose proof (load_saved_run model w) as H. simpl in H.
  unfold propagates, load_checkpoint, try_except_RuntimeError.
  destruct (load_saved model w) as [[[]|e] w1 tr1]; simpl in *.
  - now apply handled_of_plain.
  - destruct H as (tr & c & -> & Hc & Htr).
    destruct (isinstance_RuntimeError e) eqn:He; simpl.
    + rewrite <- app_assoc. simpl. apply handled_app; [now apply handled_of_plain|].
      apply handled_caught; [assumption | assumption | constructor].
    + exists (tr ++ [EvCall c]). split; [now rewrite <- app_assoc|].
      apply handled_of_plain, Forall_app. split; [assumption | repeat constructor].
Qed.

Lemma load_checkpoint_no_RuntimeError model w e :
  result (load_checkpoint model w) = inr e -> isinstance_RuntimeError e = false.
Proof.
  unfold load_checkpoint, try_except_RuntimeError.
  destruct (load_saved model w) as [[[]|e0] w1 tr1]; simpl; [discriminate|].
  destruct (isinstance_RuntimeError e0) eqn:He; simpl; [discriminate|].
  now intros [= <-].
Qed.

Lemma load_checkpoint_world model w :
  world (load_checkpoint model w) = world (load_saved model w).
Proof.
  unfold load_checkpoint, try_except_RuntimeError.
  destruct (load_saved model w) as [[[]|e0] w1 tr1]; simpl; [reflexivity|].
  destruct (isinstance_RuntimeError e0); reflexivity.
Qed.

Lemma main_propagates w : propagates (main w).
Proof.
  unfold main.
  repeat (apply propagates_bind; [apply propagates_lib | intros]).
  apply propagates_bind; [apply load_checkpoint_propagates | intros].
  apply propagates_bind; [apply propagates_of_disciplined, train_plain | intros].
  repeat (apply propagates_bind; [apply propagates_lib | intros]).
  apply propagates_print.
Qed.

(** C4 (as the code has it).  The guard of train.py:194 catches RuntimeError
    only.  An exception in the log of the script is either a RuntimeError
    raised by a call inside the [try], followed by the mismatch line, or it
    is the last event and what the process ends with.  No RuntimeError leaves
    the guard, and the guard leaves the interpreter state as the statements
    inside the [try] left it. *)
Theorem failures_propagate_unless_guarded w pre e post :
  emitted (main w) = pre ++ EvRaise e :: post ->
  ((exists pre' c post', pre = pre' ++ [EvCall c] /\ guarded_call c = true /\
      isinstance_RuntimeError e = true /\ post = EvPrint MismatchLine :: post') \/
   (post = [] /\ result (main w) = inr e)) /\
  (forall model w' e', result (load_checkpoint model w') = inr e' ->
     isinstance_RuntimeError e' = false) /\
  (forall model w', world (load_checkpoint model w') = world (load_saved model w')).
Proof.
  intros Heq. split; [|split].
  - exact (propagates_split _ _ _ _ (main_propagates w) Heq).
  - apply load_checkpoint_no_RuntimeError.
  - apply load_checkpoint_world.
Qed.


End Propagation.


(** ** Runs on the lab library *)

Example stopped_run_log :
  executed_epochs (emitted stopped_run) = [0] /\
  status_epochs (emitted stopped_run) = [] /\
  recorded_epochs (emitted stopped_run) = [] /\
  result stopped_run = inl empty_results.
Proof. repeat split; reflexivity. Qed.

Example two_epoch_run_log :
  executed_epochs (emitted two_epoch_run) = [0; 1] /\
  status_epochs (emitted two_epoch_run) = [0] /\
  recorded_epochs (emitted two_epoch_run) = [(0, 8%float)].
Proof. vm_compute. repeat split; reflexivity. Qed.

Lemma train_stops_below_threshold_witness :
  emitted two_epoch_run =
    removelast (emitted two_epoch_run) ++ EvCall (Cscheduler_step 5) :: [] /\
  (5 <? threshold)%float = true /\
  executed_epochs [] = [] /\
  ((@nil event = [] /\ exists r, result two_epoch_run = inl r) \/
   (exists e, @nil event = [EvRaise e] /\ result two_epoch_run = inr e)).
Proof.
  assert (H1 : emitted two_epoch_run =
    removelast (emitted two_epoch_run) ++ EvCall (Cscheduler_step 5) :: [])
    by (vm_compute; reflexivity).
  assert (H2 : (5 <? threshold)%float = true) by reflexivity.
  split; [exact H1 | split; [exact H2 |]].
  exact (train_stops_below_threshold tt 2 tt tt tt tt tt tt "cpu"
           (LabWorld [9; 8; 9; 5]%float ∅ None None)
           (removelast (emitted two_epoch_run)) 5%float [] H1 H2).
Defined.

(** C3 as stated fails: epoch 0 of [stopped_run] was executed, and the record
    returned has no value for it. *)
Lemma one_value_per_executed_epoch_fails :
  ~ (forall r, result stopped_run = inl r ->
       Forall (fun k => exists l, r !! k = Some l /\
                 length l = length (executed_epochs (emitted stopped_run))) metric_names).
Proof.
  intros H. specialize (H empty_results). 
  assert (Hr : result stopped_run = inl empty_results) by reflexivity.
  specialize (H Hr). inversion H as [|k ks (l & Hl & Hlen) _]; subst.
  vm_compute in Hl. injection Hl as <-. vm_compute in Hlen. discriminate.
Qed.

Lemma train_returns_record_witness :
  result two_epoch_run = inl (appended empty_results 9 8 0.5 0.5) /\
  Forall (fun k => exists l, appended empty_results 9 8 0.5 0.5 !! k = Some l /\
                     length l = length (recorded_epochs (emitted two_epoch_run)))
    metric_names /\
  appended empty_results 9 8 0.5 0.5 !! "test_loss"
    = Some (map snd (recorded_epochs (emitted two_epoch_run))).
Proof.
  assert (H1 : result two_epoch_run = inl (appended empty_results 9 8 0.5 0.5))
    by reflexivity.
  split; [exact H1 |].
  exact (train_returns_record_of_recorded_epochs tt 2 tt tt tt tt tt tt "cpu"
           (LabWorld [9; 8; 9; 5]%float ∅ None None) _ H1).
Defined.

(** C7 as stated fails: epoch 0 of [stopped_run] has an index that is a
    multiple of 10, and no status line was printed during it. *)
Lemma status_line_on_every_tenth_epoch_fails :
  status_epochs (emitted stopped_run) <>
    List.filter (fun i => (i mod 10 =? 0)%nat) (executed_epochs (emitted stopped_run)).
Proof. vm_compute. discriminate. Qed.

(** ** Runs of the whole script *)

(** C4 as stated fails: the load raises an exception that is no RuntimeError;
    no mismatch line is printed and the process ends with the exception. *)
Lemma load_failure_not_caught :
  result (main truncated_file_world) = inr (OtherException "EOFError") /\
  ~ In (EvPrint MismatchLine) (emitted (main truncated_file_world)) /\
  ~ In (EvCall (Ctrange 10)) (emitted (main truncated_file_world)).
Proof.
  vm_compute. split; [reflexivity|].
  split; intros H; repeat (destruct H as [H|H]; [discriminate|]); exact H.
Qed.

Lemma failures_propagate_witness :
  emitted (main truncated_file_world) =
    removelast (emitted (main truncated_file_world))
      ++ EvRaise (OtherException "EOFError") :: [] /\
  ((exists pre' c post',
      removelast (emitted (main truncated_file_world)) = pre' ++ [EvCall c] /\
      guarded_call c = true /\
      isinstance_RuntimeError (OtherException "EOFError") = true /\
      [] = EvPrint MismatchLine :: post') \/
   (@nil event = [] /\ result (main truncated_file_world) = inr (OtherException "EOFError"))) /\
  (forall (model : Obj) (w' : World) e', result (load_checkpoint model w') = inr e' ->
     isinstance_RuntimeError e' = false) /\
  (forall (model : Obj) (w' : World),
     world (load_checkpoint model w') = world (load_saved model w')).
Proof.
  assert (H1 : emitted (main truncated_file_world) =
    removelast (emitted (main truncated_file_world))
      ++ EvRaise (OtherException "EOFError") :: []) by (vm_compute; reflexivity).
  split; [exact H1 |].
  exact (failures_propagate_unless_guarded truncated_file_world _ _ _ H1).
Defined.





Example checkpoint_mismatch_weights :
  weights (world (load_checkpoint tt mismatch_world)) !! "fc.weight" = Some ([2], [5; 6]%Z) /\
  weights (world (load_checkpoint tt mismatch_world)) !! "fc.bias" = Some ([3], [0; 0; 0]%Z).
Proof. vm_compute. split; reflexivity. Qed.

Lemma metric_lists_witness :
  balanced empty_results /\
  match result (epoch_body tt tt tt tt tt tt tt "cpu" 0 empty_results
                  (LabWorld [9; 8]%float ∅ None None)) with
  | inl (Continue r') =>
      balanced r' /\ Forall (fun k => entries r' k = S (entries empty_results k)) metric_names
  | inl (Break r') => r' = empty_results
  | inr _ => True
  end.
Proof.
  split; [apply balanced_empty |].
  exact (proj1 (metric_lists_stay_balanced tt 1 tt tt tt tt tt tt "cpu" 0 empty_results
                  (LabWorld [9; 8]%float ∅ None None) balanced_empty)).
Defined.

End TrainProofs.

(* ===================================================================== *)
(** * Properties of models/SegRNN.py *)
(* ===================================================================== *)

Module SegRNNProofs.
Import Tensor SegRNN Shapes Numbers.

Section ShapeLemmas.
Context `{Sc : Scalar}.

Lemma last_step_has_shape t : shape <$> last_step t = last_step_shape (shape t).
Proof. unfold last_step, last_step_shape. destruct (shape t) as [|? [|? [|? ?]]]; reflexivity. Qed.

Lemma broadcast_has_shape op x y :
  shape <$> broadcast op x y = broadcast_shapes (shape x) (shape y).
Proof. unfold broadcast. destruct (broadcast_shapes (shape x) (shape y)); reflexivity. Qed.

Lemma permute021_has_shape t : shape <$> permute021 t = permute021_shape (shape t).
Proof.
  unfold permute021, permute021_shape.
  destruct (shape t) as [|? [|? [|? [|? ?]]]]; reflexivity.
Qed.

Lemma reshape_has_shape dims t : shape <$> reshape dims t = reshape_shape dims (shape t).
Proof.
  unfold reshape, reshape_shape. destruct (inferred dims) as [|[|?]]; [| |reflexivity].
  - destruct (_ =? _)%nat; reflexivity.
  - destruct (_ =? 0)%nat; [reflexivity|]. destruct (_ =? 0)%nat; reflexivity.
Qed.

Lemma unsqueeze_has_shape k t : shape <$> unsqueeze k t = unsqueeze_shape k (shape t).
Proof. unfold unsqueeze, unsqueeze_shape. destruct (_ <=? _)%nat; reflexivity. Qed.

Lemma repeat_has_shape reps t : shape <$> repeat reps t = repeat_shape reps (shape t).
Proof. unfold repeat, repeat_shape. destruct (_ <=? _)%nat; reflexivity. Qed.

Lemma cat_last_has_shape x y : shape <$> cat_last x y = cat_last_shape (shape x) (shape y).
Proof.
  unfold cat_last, cat_last_shape.
  destruct (reverse (shape x)), (reverse (shape y)); try reflexivity.
  destruct (decide _); reflexivity.
Qed.

Lemma linear_has_shape l t : shape <$> linear l t = linear_shape l (shape t).
Proof.
  unfold linear, linear_shape. destruct (reverse (shape t)); [reflexivity|].
  destruct (_ =? _)%nat; reflexivity.
Qed.

Lemma gru_has_shape ok g x h0 :
  (fun r => shape (snd r)) <$> gru ok g x h0 = gru_shape ok g (shape x) (shape <$> h0).
Proof.
  unfold gru, gru_shape. destruct (shape x) as [|n [|len [|k [|? ?]]]]; try reflexivity.
  destruct (negb _); [reflexivity|]. destruct (len =? 0)%nat; [reflexivity|].
  destruct (_ && _); [reflexivity|].
  destruct h0 as [h|]; simpl; [|reflexivity].
  destruct (decide _); reflexivity.
Qed.

(** Binding an operation whose shape is known. *)
Lemma bind_shape {A B : Type} (m : option A) (sh : A -> B) (ms : option B)
    (k : A -> option tensor) (ks : B -> option (list nat)) :
  sh <$> m = ms -> (forall a, shape <$> k a = ks (sh a)) ->
  shape <$> (m ≫= k) = ms ≫= ks.
Proof. intros <- Hk. destruct m as [a|]; simpl; [apply Hk | reflexivity]. Qed.

Lemma forward_has_shape ok self mask x :
  shape <$> forward ok self mask x = forward_shape ok self (shape x).
Proof.
  unfold forward, forward_shape, size0.
  apply bind_shape with (sh := id); [now destruct (head (shape x)) | intros batch_size].
  unfold id.
  apply bind_shape with (sh := shape); [apply last_step_has_shape | intros seq_last].
  apply bind_shape with (sh := shape); [apply broadcast_has_shape | intros x1].
  apply bind_shape with (sh := shape); [apply permute021_has_shape | intros x2].
  apply bind_shape with (sh := shape); [apply reshape_has_shape | intros x3].
  apply bind_shape with (sh := shape); [apply linear_has_shape | intros x4].
  apply bind_shape with (sh := fun r => shape (snd r));
    [apply (gru_has_shape ok (rnn self) (relu_layer x4) None) | intros enc].
  apply bind_shape with (sh := shape); [apply unsqueeze_has_shape | intros p1].
  apply bind_shape with (sh := shape); [apply repeat_has_shape | intros p2].
  apply bind_shape with (sh := shape); [apply unsqueeze_has_shape | intros c1].
  apply bind_shape with (sh := shape); [apply repeat_has_shape | intros c2].
  apply bind_shape with (sh := shape); [apply cat_last_has_shape | intros pe1].
  apply bind_shape with (sh := shape); [apply reshape_has_shape | intros pe2].
  apply bind_shape with (sh := shape); [apply repeat_has_shape | intros pe3].
  apply bind_shape with (sh := shape); [apply repeat_has_shape | intros h1].
  apply bind_shape with (sh := shape); [apply reshape_has_shape | intros h2].
  apply bind_shape with (sh := fun r => shape (snd r));
    [apply (gru_has_shape ok (rnn self) pe3 (Some h2)) | intros dec].
  apply bind_shape with (sh := shape).
  { rewrite linear_has_shape. destruct mask; reflexivity. }
  intros y1.
  apply bind_shape with (sh := shape); [apply reshape_has_shape | intros y2].
  apply bind_shape with (sh := shape); [apply permute021_has_shape | intros y3].
  apply broadcast_has_shape.
Qed.


Lemma init_built cfg v self :
  init cfg v = Some self ->
  built self /\ seq_len self = cfg_seq_len cfg /\ pred_len self = cfg_pred_len cfg /\
  enc_in self = cfg_enc_in cfg /\ d_model self = cfg_d_model cfg /\
  seg_len self = cfg_seg_len cfg.
Proof.
  unfold init. destruct (cfg_seg_len cfg =? 0)%nat eqn:Hw; [discriminate|].
  destruct (cfg_d_model cfg =? 0)%nat; [discriminate|].
  intros [= <-]. apply Nat.eqb_neq in Hw.
  split; [constructor; try reflexivity; exact Hw | repeat split].
Qed.

Lemma numel3 a b c : numel [a; b; c] = a * b * c.
Proof. unfold numel. simpl. lia. Qed.

Lemma broadcast_last_step b s c :
  broadcast_shapes [b; s; c] [b; Nat.min 1 s; c] = Some [b; s; c].
Proof.
  unfold broadcast_shapes. cbn -[Nat.eqb Nat.min]. rewrite !Nat.eqb_refl.
  destruct (s =? Nat.min 1 s)%nat eqn:E1; cbn -[Nat.eqb Nat.min]; [reflexivity|].
  destruct (s =? 1)%nat eqn:E2.
  { apply Nat.eqb_eq in E2. subst s. discriminate. }
  destruct (Nat.min 1 s =? 1)%nat eqn:E3; cbn; [reflexivity|].
  apply Nat.eqb_neq in E1, E2, E3. lia.
Qed.

(** Adding the last step back: the batch sizes must agree, or one of them be 1. *)
Lemma broadcast_denorm y p b c :
  broadcast_shapes [y; p; c] [b; 1; c] =
    if (y =? b)%nat then Some [y; p; c]
    else if (y =? 1)%nat then Some [b; p; c]
    else if (b =? 1)%nat then Some [y; p; c]
    else None.
Proof.
  unfold broadcast_shapes. cbn -[Nat.eqb]. rewrite !Nat.eqb_refl.
  destruct (p =? 1)%nat eqn:Ep; cbn -[Nat.eqb];
    (destruct (y =? b)%nat; [reflexivity|]; destruct (y =? 1)%nat; [reflexivity|];
     destruct (b =? 1)%nat; reflexivity).
Qed.

Lemma reshape_lead n w sh :
  reshape_shape [None; Some n; Some w] sh =
    if (n * w =? 0)%nat then None
    else if (numel sh mod (n * w) =? 0)%nat then Some [numel sh / (n * w); n; w] else None.
Proof.
  unfold reshape_shape, inferred, known_numel. cbn.
  replace (n * (w * 1) + 0) with (n * w) by lia. reflexivity.
Qed.

Lemma reshape_middle d sh :
  reshape_shape [Some 1; None; Some d] sh =
    if (d =? 0)%nat then None
    else if (numel sh mod d =? 0)%nat then Some [1; numel sh / d; d] else None.
Proof.
  unfold reshape_shape, inferred, known_numel. cbn.
  replace (d * 1 + 0 + 0) with d by lia. reflexivity.
Qed.

Lemma linear_shape3 l a n k :
  linear_shape l [a; n; k] =
    if (k =? in_features l)%nat then Some [a; n; out_features l] else None.
Proof. reflexivity. Qed.

Lemma repeat_positions m h c : repeat_shape [c; 1; 1] [1; m; h] = Some [c; m; h].
Proof. cbn. f_equal. f_equal; [lia | f_equal; [lia | f_equal; lia]]. Qed.

Lemma repeat_channels m h c : repeat_shape [1; m; 1] [c; 1; h] = Some [c; m; h].
Proof. cbn. f_equal. f_equal; [lia | f_equal; [lia | f_equal; lia]]. Qed.

Lemma cat_last_same c m h : cat_last_shape [c; m; h] [c; m; h] = Some [c; m; h + h].
Proof.
  unfold cat_last_shape. cbn [reverse rev_append].
  destruct (decide ([m; c] = [m; c])); [reflexivity | congruence].
Qed.

Lemma repeat_batch r d b : repeat_shape [b; 1; 1] [r; 1; d] = Some [r * b; 1; d].
Proof. cbn. f_equal. f_equal. f_equal. f_equal. lia. Qed.

Lemma repeat_hidden n d m : repeat_shape [1; 1; m] [1; n; d] = Some [1; n; d * m].
Proof. cbn. f_equal. f_equal. f_equal. lia. Qed.


Lemma gru_shape_fresh ok g n len k :
  gru_shape ok g [n; len; k] None =
    if negb (k =? input_size g)%nat then None
    else if (len =? 0)%nat then None
    else if (n =? 0)%nat && negb ok then None
    else Some [1; n; hidden_size g].
Proof. reflexivity. Qed.

Lemma gru_shape_from ok g n len k h :
  gru_shape ok g [n; len; k] (Some h) =
    if negb (k =? input_size g)%nat then None
    else if (len =? 0)%nat then None
    else if (n =? 0)%nat && negb ok then None
    else if decide (h = [1; n; hidden_size g]) then Some [1; n; hidden_size g] else None.
Proof. reflexivity. Qed.

(** The shapes along [forward], for an input of [s] steps (at least one)
    and [enc_in] channels, as far as the second call of the recurrent layer. *)
Lemma forward_shape_steps ok self b s :
  built self -> 0 < s ->
  forward_shape ok self [b; s; enc_in self] =
    let n := seg_num_x self in
    let w := seg_len self in
    let m := seg_num_y self in
    let d := d_model self in
    let c := enc_in self in
    let p := pred_len self in
    if (n * w =? 0)%nat then None
    else if ((b * c * s) mod (n * w) =? 0)%nat then
      let rows := (b * c * s) / (n * w) in
      if (rows =? 0)%nat && negb ok then None
      else if (d =? 0)%nat then None
      else if ((c * m * (d / 2 + d / 2)) mod d =? 0)%nat then
        let slots := (c * m * (d / 2 + d / 2)) / d * b in
        if (slots =? 0)%nat && negb ok then None
        else if (rows * m =? slots)%nat then
          if (c * p =? 0)%nat then None
          else if ((slots * w) mod (c * p) =? 0)%nat then
            let y := (slots * w) / (c * p) in
            if (y =? b)%nat then Some [y; p; c]
            else if (y =? 1)%nat then Some [b; p; c]
            else if (b =? 1)%nat then Some [y; p; c]
            else None
          else None
        else None
      else None
    else None.
Proof.
  intros HB Hs. destruct HB.
  unfold forward_shape. cbn [head mbind option_bind last_step_shape].
  rewrite broadcast_last_step. cbn [mbind option_bind permute021_shape].
  rewrite reshape_lead, numel3. cbv zeta.
  destruct (seg_num_x self * seg_len self =? 0)%nat eqn:Hq; [reflexivity|].
  destruct ((b * enc_in self * s) mod (seg_num_x self * seg_len self) =? 0)%nat eqn:Hm;
    [|reflexivity].
  cbn [mbind option_bind]. rewrite linear_shape3, built_embed_in0, Nat.eqb_refl.
  cbn [mbind option_bind]. rewrite gru_shape_fresh, built_embed_out0, built_rnn_in0,
    built_rnn_hidden0, Nat.eqb_refl. cbn [negb].
  assert (Hn : (seg_num_x self =? 0)%nat = false).
  { apply Nat.eqb_neq. apply Nat.eqb_neq in Hq. lia. }
  rewrite Hn.
  destruct ((_ =? 0)%nat && negb ok) eqn:Hrows; [reflexivity|].
  cbn [mbind option_bind].
  rewrite built_pos_emb0, built_channel_emb0.
  change (unsqueeze_shape 0 [seg_num_y self; d_model self / 2])
    with (Some [1; seg_num_y self; d_model self / 2]).
  cbn [mbind option_bind]. rewrite repeat_positions.
  change (unsqueeze_shape 1 [enc_in self; d_model self / 2])
    with (Some [enc_in self; 1; d_model self / 2]).
  cbn [mbind option_bind]. rewrite repeat_channels.
  cbn [mbind option_bind]. rewrite cat_last_same.
  cbn [mbind option_bind]. rewrite reshape_lead, numel3, Nat.mul_1_l.
  destruct (d_model self =? 0)%nat eqn:Hd; [reflexivity|].
  destruct (_ mod d_model self =? 0)%nat eqn:Hpe; [|reflexivity].
  cbn [mbind option_bind]. rewrite repeat_batch.
  cbn [mbind option_bind]. rewrite repeat_hidden.
  cbn [mbind option_bind]. rewrite reshape_middle, numel3, Hd.
  set (rows := (b * enc_in self * s) / (seg_num_x self * seg_len self)) in *.
  set (slots := (enc_in self * seg_num_y self * (d_model self / 2 + d_model self / 2))
                  / d_model self * b) in *.
  replace (1 * rows * (d_model self * seg_num_y self))
    with (rows * seg_num_y self * d_model self) by lia.
  apply Nat.eqb_neq in Hd.
  rewrite Nat.Div0.mod_mul, Nat.eqb_refl, Nat.div_mul by exact Hd.
  cbn [mbind option_bind].
  rewrite gru_shape_from, built_rnn_in0, built_rnn_hidden0, Nat.eqb_refl.
  cbn [negb Nat.eqb].
  destruct ((slots =? 0)%nat && negb ok) eqn:Hslots; [reflexivity|].
  destruct (rows * seg_num_y self =? slots)%nat eqn:Hrs.
  2:{ destruct (decide _) as [E|E]; [|reflexivity].
      apply Nat.eqb_neq in Hrs. congruence. }
  apply Nat.eqb_eq in Hrs. rewrite Hrs.
  destruct (decide _) as [_|E]; [|congruence].
  cbn [mbind option_bind].
  rewrite linear_shape3, built_predict_in0, Nat.eqb_refl, built_predict_out0.
  cbn [mbind option_bind]. rewrite reshape_lead, numel3, Nat.mul_1_l.
  destruct (enc_in self * pred_len self =? 0)%nat; [reflexivity|].
  destruct ((slots * seg_len self) mod (enc_in self * pred_len self) =? 0)%nat;
    [|reflexivity].
  cbn [mbind option_bind permute021_shape].
  replace (Nat.min 1 s) with 1 by lia.
  apply broadcast_denorm.
Qed.


End ShapeLemmas.

Ltac use_built HB :=
  pose proof (built_seg_len _ HB) as built_seg_len0;
  pose proof (built_seg_num_x _ HB) as built_seg_num_x0;
  pose proof (built_seg_num_y _ HB) as built_seg_num_y0.


Section ShapeClaims.
Context `{Sc : Scalar}.

Lemma forward_shape_exact ok self b :
  built self ->
  0 < b -> 0 < seq_len self -> 0 < pred_len self -> 0 < enc_in self -> 0 < d_model self ->
  d_model self mod 2 = 0 ->
  seq_len self mod seg_len self = 0 -> pred_len self mod seg_len self = 0 ->
  forward_shape ok self [b; seq_len self; enc_in self]
    = Some [b; pred_len self; enc_in self].
Proof.
  intros HB Hb Hs Hp Hc Hd Heven Hsw Hpw.
  rewrite forward_shape_steps by assumption. use_built HB. cbv zeta.
  assert (Hn : seg_num_x self * seg_len self = seq_len self).
  { rewrite built_seg_num_x0. pose proof (Nat.div_mod_eq (seq_len self) (seg_len self)). lia. }
  assert (Hm : seg_num_y self * seg_len self = pred_len self).
  { rewrite built_seg_num_y0. pose proof (Nat.div_mod_eq (pred_len self) (seg_len self)). lia. }
  assert (Hh : d_model self / 2 + d_model self / 2 = d_model self).
  { pose proof (Nat.div_mod_eq (d_model self) 2). lia. }
  assert (Hm0 : 0 < seg_num_y self) by (destruct (seg_num_y self); simpl in Hm; lia).
  rewrite Hn, Hh.
  replace (seq_len self =? 0)%nat with false by (symmetry; apply Nat.eqb_neq; lia).
  rewrite Nat.Div0.mod_mul, Nat.eqb_refl, Nat.div_mul by lia.
  replace (b * enc_in self =? 0)%nat with false by (symmetry; apply Nat.eqb_neq; lia).
  cbn [andb].
  replace (d_model self =? 0)%nat with false by (symmetry; apply Nat.eqb_neq; lia).
  rewrite Nat.Div0.mod_mul, Nat.eqb_refl, Nat.div_mul by lia.
  replace (enc_in self * seg_num_y self * b =? 0)%nat with false
    by (symmetry; apply Nat.eqb_neq; lia).
  cbn [andb].
  replace (b * enc_in self * seg_num_y self =? enc_in self * seg_num_y self * b)%nat
    with true by (symmetry; apply Nat.eqb_eq; lia).
  replace (enc_in self * pred_len self =? 0)%nat with false
    by (symmetry; apply Nat.eqb_neq; lia).
  replace (enc_in self * seg_num_y self * b * seg_len self)
    with (b * (enc_in self * pred_len self)) by (rewrite <- Hm; lia).
  rewrite Nat.Div0.mod_mul, Nat.eqb_refl, Nat.div_mul, Nat.eqb_refl by lia.
  reflexivity.
Qed.

Lemma forward_shape_exact_only ok self b :
  built self ->
  0 < b -> 0 < seq_len self -> 0 < pred_len self -> 0 < enc_in self ->
  forward_shape ok self [b; seq_len self; enc_in self]
    = Some [b; pred_len self; enc_in self] ->
  seq_len self mod seg_len self = 0 /\ pred_len self mod seg_len self = 0.
Proof.
  intros HB Hb Hs Hp Hc. rewrite forward_shape_steps by assumption. use_built HB. cbv zeta.
  set (n := seg_num_x self) in *. set (w := seg_len self) in *.
  set (m := seg_num_y self) in *. set (d := d_model self) in *.
  set (c := enc_in self) in *. set (p := pred_len self) in *. set (s := seq_len self) in *.
  destruct (n * w =? 0)%nat eqn:Hq; [discriminate|]. apply Nat.eqb_neq in Hq.
  destruct ((b * c * s) mod (n * w) =? 0)%nat eqn:Hr; [|discriminate].
  apply Nat.eqb_eq in Hr.
  set (rows := (b * c * s) / (n * w)) in *.
  destruct ((rows =? 0)%nat && negb ok); [discriminate|].
  destruct (d =? 0)%nat eqn:Hd; [discriminate|]. apply Nat.eqb_neq in Hd.
  destruct ((c * m * (d / 2 + d / 2)) mod d =? 0)%nat eqn:Hpe; [|discriminate].
  apply Nat.eqb_eq in Hpe.
  set (slots' := (c * m * (d / 2 + d / 2)) / d) in *.
  destruct ((slots' * b =? 0)%nat && negb ok); [discriminate|].
  destruct (rows * m =? slots' * b)%nat eqn:Hrs; [|discriminate]. apply Nat.eqb_eq in Hrs.
  destruct (c * p =? 0)%nat eqn:Hcp; [discriminate|].
  destruct ((slots' * b * w) mod (c * p) =? 0)%nat eqn:Hy; [|discriminate].
  apply Nat.eqb_eq in Hy.
  set (y := (slots' * b * w) / (c * p)) in *.
  intros Hres.
  assert (Hrows : rows * (n * w) = b * c * s).
  { pose proof (Nat.div_mod_eq (b * c * s) (n * w)). fold rows in H. lia. }
  assert (Hslots : slots' * d = c * m * (d / 2 + d / 2)).
  { pose proof (Nat.div_mod_eq (c * m * (d / 2 + d / 2)) d). fold slots' in H. lia. }
  assert (Hyeq : y * (c * p) = slots' * b * w).
  { pose proof (Nat.div_mod_eq (slots' * b * w) (c * p)). fold y in H. lia. }
  assert (Hnw : n * w <= s).
  { rewrite built_seg_num_x0. pose proof (Nat.div_mod_eq s w). lia. }
  assert (Hmw : m * w <= p /\ p < (m + 1) * w).
  { rewrite built_seg_num_y0.
    pose proof (Nat.div_mod_eq p w). pose proof (Nat.mod_upper_bound p w built_seg_len0).
    lia. }
  assert (Hhalf : d / 2 + d / 2 <= d).
  { pose proof (Nat.div_mod_eq d 2). lia. }
  assert (Hy1 : y = b \/ (y = 1 /\ y <> b)).
  { destruct (y =? b)%nat eqn:E1; [left; now apply Nat.eqb_eq|].
    destruct (y =? 1)%nat eqn:E2; [right; split; [now apply Nat.eqb_eq | now apply Nat.eqb_neq]|].
    destruct (b =? 1)%nat; [|discriminate].
    injection Hres as Hres. apply Nat.eqb_neq in E1. contradiction. }
  assert (Hrows_ge : b * c <= rows).
  { apply (Nat.mul_le_mono_pos_r _ _ (n * w)); [lia|]. rewrite Hrows. nia. }
  assert (Hslots_le : slots' <= c * m).
  { apply (Nat.mul_le_mono_pos_r _ _ d); [lia|]. rewrite Hslots. nia. }
  assert (Hm0 : 0 < m).
  { destruct m as [|m']; [|lia].
    assert (slots' = 0) by lia. subst slots'.
    assert (y * (c * p) = 0) by (rewrite Hyeq; lia).
    assert (y = 0) by nia. lia. }
  assert (Hrows_eq : rows = b * c).
  { assert (rows * m <= b * c * m) by (rewrite Hrs; nia).
    assert (rows <= b * c) by nia. lia. }
  assert (Hs_eq : s = n * w).
  { rewrite Hrows_eq in Hrows. nia. }
  assert (Hslots_eq : slots' = c * m).
  { rewrite Hrows_eq in Hrs. nia. }
  assert (Hp_eq : y * p = m * b * w).
  { rewrite Hslots_eq in Hyeq. nia. }
  assert (Hpm : p = m * w).
  { destruct Hy1 as [->|[Hy1 Hne]].
    - nia.
    - rewrite Hy1 in Hp_eq. assert (2 <= b) by lia. nia. }
  split.
  - rewrite Hs_eq. apply Nat.Div0.mod_mul.
  - rewrite Hpm. apply Nat.Div0.mod_mul.
Qed.


End ShapeClaims.

Section ForwardClaims.
Context `{Sc : Scalar}.

(** C5 (as the code has it).  For an input of shape [batch, seq_len, enc_in],
    all sizes positive, with [seg_len] dividing [seq_len] and [pred_len] and
    with [d_model] even, [forward] returns a tensor of shape
    [batch, pred_len, enc_in]. *)
Theorem forward_returns_forecast_shape ok cfg v self mask x b :
  init cfg v = Some self ->
  shape x = [b; cfg_seq_len cfg; cfg_enc_in cfg] ->
  0 < b -> 0 < cfg_seq_len cfg -> 0 < cfg_pred_len cfg -> 0 < cfg_enc_in cfg ->
  0 < cfg_d_model cfg -> cfg_d_model cfg mod 2 = 0 ->
  cfg_seq_len cfg mod cfg_seg_len cfg = 0 ->
  cfg_pred_len cfg mod cfg_seg_len cfg = 0 ->
  exists y, forward ok self mask x = Some y /\
            shape y = [b; cfg_pred_len cfg; cfg_enc_in cfg].
Proof.
  intros Hinit Hx Hb Hs Hp Hc Hd Heven Hsw Hpw.
  destruct (init_built _ _ _ Hinit) as (HB & Es & Ep & Ec & Ed & Ew).
  pose proof (forward_has_shape ok self mask x) as Hsh.
  rewrite Hx, <- Es, <- Ec in Hsh.
  rewrite forward_shape_exact in Hsh by (rewrite ?Es, ?Ep, ?Ec, ?Ed, ?Ew; assumption).
  destruct (forward ok self mask x) as [y|]; [|discriminate].
  exists y. split; [reflexivity|]. injection Hsh as ->. now rewrite Ep, Ec.
Qed.

(** C9 (as the code has it).  [forward] needs both divisions to be exact:
    on an input of shape [batch, seq_len, enc_in], all sizes positive, it
    returns a tensor of shape [batch, pred_len, enc_in] only if [seg_len]
    divides [seq_len] and [pred_len]. *)
Theorem forward_needs_exact_division ok cfg v self mask x b y :
  init cfg v = Some self ->
  shape x = [b; cfg_seq_len cfg; cfg_enc_in cfg] ->
  0 < b -> 0 < cfg_seq_len cfg -> 0 < cfg_pred_len cfg -> 0 < cfg_enc_in cfg ->
  forward ok self mask x = Some y ->
  shape y = [b; cfg_pred_len cfg; cfg_enc_in cfg] ->
  cfg_seq_len cfg mod cfg_seg_len cfg = 0 /\ cfg_pred_len cfg mod cfg_seg_len cfg = 0.
Proof.
  intros Hinit Hx Hb Hs Hp Hc Hy Hshape.
  destruct (init_built _ _ _ Hinit) as (HB & Es & Ep & Ec & Ed & Ew).
  pose proof (forward_has_shape ok self mask x) as Hsh.
  rewrite Hy, Hx in Hsh. cbn [fmap option_fmap option_map] in Hsh.
  rewrite Hshape, <- Es, <- Ep, <- Ec in Hsh. symmetry in Hsh.
  rewrite <- Es, <- Ep, <- Ew.
  apply (forward_shape_exact_only ok self b HB); try exact Hsh;
    rewrite ?Es, ?Ep, ?Ec; assumption.
Qed.

End ForwardClaims.

Import Residual.

Section Shift.
Context `{Sc : Scalar}.

Lemma chunks_map {A B : Type} (f : A -> B) count size (l : list A) :
  chunks count size (map f l) = map (map f) (chunks count size l).
Proof.
  revert l. induction count as [|count IH]; intros l; simpl; [reflexivity|].
  now rewrite firstn_map, skipn_map, IH.
Qed.

Lemma concat_replicate_map {A B : Type} (f : A -> B) n (l : list A) :
  concat (replicate n (map f l)) = map f (concat (replicate n l)).
Proof.
  induction n as [|n IH]; simpl; [reflexivity|]. now rewrite IH, map_app.
Qed.

Lemma expand_map (f : num -> num) src tgt l :
  expand src tgt (map f l) = map f (expand src tgt l).
Proof.
  revert tgt l. induction src as [|s src IH]; intros tgt l; [reflexivity|].
  destruct tgt as [|t tgt]; [reflexivity|]. simpl.
  rewrite chunks_map, map_map.
  rewrite (map_ext _ (fun r => map f (expand src tgt r))) by (intros; apply IH).
  rewrite <- (map_map (expand src tgt) (map f)), <- concat_map.
  destruct (s =? t)%nat; [reflexivity|]. apply concat_replicate_map.
Qed.

Lemma last_step_add_scalar x c :
  last_step (add_scalar x c) = (fun l => add_scalar l c) <$> last_step x.
Proof.
  unfold last_step, add_scalar. cbn [shape data].
  destruct (shape x) as [|b [|s [|ch rest]]]; try reflexivity.
  cbn [fmap option_fmap option_map shape data]. f_equal. f_equal.
  rewrite chunks_map, map_map, concat_map, map_map.
  f_equal. apply map_ext. intros batch. now rewrite skipn_map.
Qed.

Lemma forward_split ok self mask x :
  forward ok self mask x
    = r ← forward_before_denorm ok self mask x; broadcast sadd (fst r) (snd r).
Proof.
  unfold forward, forward_before_denorm.
  repeat (lazymatch goal with
          | |- (?m ≫= _) = _ => destruct m as [?|]; [cbn [mbind option_bind]|reflexivity]
          end).
  reflexivity.
Qed.

Lemma In_chunks {A : Type} count size (l : list A) r a :
  In r (chunks count size l) -> In a r -> In a l.
Proof.
  revert l. induction count as [|k IH]; intros l Hr Ha; simpl in Hr; [contradiction|].
  destruct Hr as [<-|Hr].
  - rewrite <- (take_drop size l). apply in_or_app. now left.
  - rewrite <- (take_drop size l). apply in_or_app. right. now apply IH.
Qed.

Lemma In_concat_replicate {A : Type} n (l : list A) a :
  In a (concat (replicate n l)) -> In a l.
Proof.
  induction n as [|n IH]; simpl; [contradiction|]. intros H.
  apply in_app_or in H as [H|H]; [assumption | now apply IH].
Qed.

Lemma In_expand src tgt (l : list num) a : In a (expand src tgt l) -> In a l.
Proof.
  revert tgt l. induction src as [|s src IH]; intros tgt l H; [exact H|].
  destruct tgt as [|t tgt]; [exact H|]. simpl in H.
  assert (Hrows : In a (concat (map (expand src tgt) (chunks s (numel src) l))) -> In a l).
  { intros Hc. apply in_concat in Hc as (row & Hrow & Ha).
    apply in_map_iff in Hrow as (r & <- & Hr).
    apply (In_chunks _ _ _ _ _ Hr). now apply (IH tgt). }
  destruct (s =? t)%nat; [now apply Hrows|].
  apply Hrows. now apply (In_concat_replicate t).
Qed.

Lemma In_last_step (x l : tensor) a : last_step x = Some l -> In a (data l) -> In a (data x).
Proof.
  unfold last_step. destruct (shape x) as [|b [|s [|c rest]]]; try discriminate.
  intros [= <-]. cbn [data]. intros H.
  apply in_concat in H as (row & Hrow & Ha).
  apply in_map_iff in Hrow as (batch & <- & Hbatch).
  apply (In_chunks _ _ _ _ _ Hbatch).
  rewrite <- (take_drop ((s - 1) * numel (c :: rest)) batch). apply in_or_app. now right.
Qed.

Variable c : num.

Lemma zip_sub_shift u v :
  (forall a b, In a u -> In b v -> ssub (sadd a c) (sadd b c) = ssub a b) ->
  zip_with ssub (map (fun a => sadd a c) u) (map (fun a => sadd a c) v) = zip_with ssub u v.
Proof.
  revert v. induction u as [|a u IH]; intros [|b v] H; simpl; try reflexivity.
  rewrite H by (now left). rewrite IH; [reflexivity|].
  intros a' b' Ha Hb. apply H; now right.
Qed.

Lemma zip_add_shift u v :
  (forall a b, In a u -> In b v -> sadd a (sadd b c) = sadd (sadd a b) c) ->
  zip_with sadd u (map (fun a => sadd a c) v) = map (fun a => sadd a c) (zip_with sadd u v).
Proof.
  revert v. induction u as [|a u IH]; intros [|b v] H; simpl; try reflexivity.
  rewrite H by (now left). rewrite IH; [reflexivity|].
  intros a' b' Ha Hb. apply H; now right.
Qed.

Lemma broadcast_sub_shift x l :
  (forall a b, In a (data x) -> In b (data l) -> ssub (sadd a c) (sadd b c) = ssub a b) ->
  broadcast ssub (add_scalar x c) (add_scalar l c) = broadcast ssub x l.
Proof.
  intros H. unfold broadcast, add_scalar. cbn [shape data].
  destruct (broadcast_shapes (shape x) (shape l)) as [sh|]; [|reflexivity].
  cbn [mbind option_bind]. rewrite !expand_map, zip_sub_shift; [reflexivity|].
  intros a b Ha Hb. apply H; eapply In_expand; eassumption.
Qed.

Lemma broadcast_add_shift y l :
  (forall a b, In a (data y) -> In b (data l) -> sadd a (sadd b c) = sadd (sadd a b) c) ->
  broadcast sadd y (add_scalar l c) = (fun r => add_scalar r c) <$> broadcast sadd y l.
Proof.
  intros H. unfold broadcast, add_scalar. cbn [shape data].
  destruct (broadcast_shapes (shape y) (shape l)) as [sh|]; [|reflexivity].
  cbn [mbind option_bind fmap option_fmap option_map shape data].
  rewrite expand_map, zip_add_shift; [reflexivity|].
  intros a b Ha Hb. apply H; eapply In_expand; eassumption.
Qed.

Lemma forward_before_denorm_shift ok self mask x :
  (forall a b, In a (data x) -> In b (data x) -> ssub (sadd a c) (sadd b c) = ssub a b) ->
  forward_before_denorm ok self mask (add_scalar x c)
    = (fun r => (fst r, add_scalar (snd r) c)) <$> forward_before_denorm ok self mask x.
Proof.
  intros H. unfold forward_before_denorm. unfold size0 at 1 2. cbn [add_scalar shape].
  destruct (head (shape x)) as [batch_size|]; [|reflexivity].
  cbn [mbind option_bind]. rewrite last_step_add_scalar.
  destruct (last_step x) as [seq_last|] eqn:Hlast; [|reflexivity].
  cbn [mbind option_bind fmap option_fmap option_map].
  change {| shape := shape x; data := map (fun v => sadd v c) (data x) |}
    with (add_scalar x c).
  rewrite broadcast_sub_shift
    by (intros a b Ha Hb; apply H; [assumption | now apply (In_last_step x seq_last)]).
  repeat (lazymatch goal with
          | |- (?m ≫= _) = _ => destruct m as [?|]; [cbn [mbind option_bind]|reflexivity]
          end).
  reflexivity.
Qed.

(** C8 (as the code has it).  Adding [c] to every element of the input adds
    [c] to every element of the output, and [forward] fails on the one input
    when it fails on the other, wherever the shift is exact on the numbers
    of the tensors: (a + c) - (b + c) = a - b for the elements a, b of the
    input, and a + (b + c) = (a + b) + c for the elements a of the tensor
    the last step is added back to and the elements b of the last step. *)
Theorem forward_shift_equivariant ok self mask x :
  (forall a b, In a (data x) -> In b (data x) -> ssub (sadd a c) (sadd b c) = ssub a b) ->
  (forall y l, forward_before_denorm ok self mask x = Some (y, l) ->
     forall a b, In a (data y) -> In b (data l) -> sadd a (sadd b c) = sadd (sadd a b) c) ->
  forward ok self mask (add_scalar x c)
    = (fun y => add_scalar y c) <$> forward ok self mask x.
Proof.
  intros Hsub Hadd. rewrite !forward_split, forward_before_denorm_shift by assumption.
  destruct (forward_before_denorm ok self mask x) as [[y l]|] eqn:E; [|reflexivity].
  cbn [fmap option_fmap option_map mbind option_bind fst snd].
  apply broadcast_add_shift. now apply Hadd.
Qed.

End Shift.

Import Bench.

(** In binary64: the input 1 of the one-step network that answers 1, shifted
    by 2.  Every sum and difference involved is an integer below 2^53. *)
Lemma forward_shift_witness :
  exists self, init (Sc := binary64) unit_cfg unit_values = Some self /\
    forward (Sc := binary64) true self None (add_scalar (Sc := binary64) unit_input 2%float)
      = (fun y => add_scalar (Sc := binary64) y 2%float)
          <$> forward (Sc := binary64) true self None unit_input.
Proof.
  eexists. split; [reflexivity|].
  apply (forward_shift_equivariant (Sc := binary64) 2%float).
  - intros a b [<-|[]] [<-|[]]. vm_compute. reflexivity.
  - intros y l H. vm_compute in H. injection H as <- <-.
    intros a b [<-|[]] [<-|[]]. vm_compute. reflexivity.
Defined.

(** C8 as stated fails in binary64: the network answers 1 whatever the input
    of one step; with the shift 2^53 the input 1 becomes 2^53 (1 + 2^53 is
    rounded), the output 1 + 2^53 = 2^53, while forward(x) + 2^53 is
    (1 + 1) + 2^53 = 2^53 + 2. *)
Lemma forward_shift_fails_in_binary64 :
  exists self, init (Sc := binary64) unit_cfg unit_values = Some self /\
    forward (Sc := binary64) true self None (add_scalar (Sc := binary64) unit_input big_shift)
      = Some (Tensor (Sc := binary64) [1; 1; 1] [9007199254740992%float]) /\
    (fun y => add_scalar (Sc := binary64) y big_shift)
      <$> forward (Sc := binary64) true self None unit_input
      = Some (Tensor (Sc := binary64) [1; 1; 1] [9007199254740994%float]) /\
    forward (Sc := binary64) true self None (add_scalar (Sc := binary64) unit_input big_shift)
      <> (fun y => add_scalar (Sc := binary64) y big_shift)
           <$> forward (Sc := binary64) true self None unit_input.
Proof.
  eexists. split; [reflexivity|].
  split; [vm_compute; reflexivity|]. split; [vm_compute; reflexivity|].
  vm_compute. intros H. discriminate H.
Qed.

Lemma forward_returns_forecast_shape_witness :
  exists self, init even_cfg (int_values even_cfg) = Some self /\
    exists y, forward true self None (int_input 2 4 3) = Some y /\ shape y = [2; 2; 3].
Proof.
  eexists. split; [reflexivity|].
  apply (forward_returns_forecast_shape (Sc := integers) true even_cfg (int_values even_cfg)
           _ None (int_input 2 4 3) 2); try reflexivity; simpl; lia.
Defined.

(** C5 as stated fails: with [d_model] = 3 and [seg_len] = 2 dividing
    [seq_len] = 4 and [pred_len] = 4, [forward] raises (the view of the
    positional embeddings into rows of [d_model] numbers, or the second
    call of the recurrent layer, refuses). *)
Lemma odd_d_model_raises :
  cfg_seq_len odd_cfg mod cfg_seg_len odd_cfg = 0 /\
  cfg_pred_len odd_cfg mod cfg_seg_len odd_cfg = 0 /\
  exists self, init odd_cfg (int_values odd_cfg) = Some self /\
    forward true self None (int_input 2 4 3) = None /\
    forward false self None (int_input 2 4 3) = None.
Proof.
  split; [reflexivity|]. split; [reflexivity|].
  eexists. split; [reflexivity|]. split; vm_compute; reflexivity.
Qed.

Lemma forward_needs_exact_division_witness :
  exists self y, init even_cfg (int_values even_cfg) = Some self /\
    forward true self None (int_input 2 4 3) = Some y /\
    cfg_seq_len even_cfg mod cfg_seg_len even_cfg = 0 /\
    cfg_pred_len even_cfg mod cfg_seg_len even_cfg = 0.
Proof.
  eexists. eexists. split; [reflexivity|]. split; [vm_compute; reflexivity|].
  eapply (forward_needs_exact_division (Sc := integers) true even_cfg (int_values even_cfg)
            _ None (int_input 2 4 3) 2);
    [reflexivity | reflexivity | simpl; lia | simpl; lia | simpl; lia | simpl; lia
    | vm_compute; reflexivity | reflexivity].
Defined.

(** C9 as stated fails for the reshape into segments: with [seq_len] = 3 and
    [seg_len] = 2 the six elements of a batch of two series are regrouped
    into three segments of two, across the two series, and no error is
    raised there; [forward] raises later, when the recurrent layer finds
    three hidden states for two series. *)
Lemma ragged_reshape_succeeds :
  cfg_seq_len ragged_cfg mod cfg_seg_len ragged_cfg <> 0 /\
  exists self, init ragged_cfg (int_values ragged_cfg) = Some self /\
    (seq_last ← last_step (int_input 2 3 1);
     x ← broadcast ssub (int_input 2 3 1) seq_last;
     x ← permute021 x;
     reshape [None; Some (seg_num_x self); Some (seg_len self)] x)
      = Some (Tensor [3; 1; 2] [-2; -1; 0; -2; -1; 0]%Z) /\
    forward true self None (int_input 2 3 1) = None.
Proof.
  split; [discriminate|].
  eexists. split; [reflexivity|]. split; vm_compute; reflexivity.
Qed.

End SegRNNProofs.

(* ===================================================================== *)
(** * train.py: the two steps, the epoch loop and the script *)
(* ===================================================================== *)

Module ScriptProofs.
Import Py Train Trace Lab Calls TrainProofs.
Local Open Scope py_scope.

Section StepRuns.
Context `{T : Torch}.

Lemma lib_cases {A : Type} c (f : libfn World A) w :
  (exists a w', lib c f w = Outcome (inl a) w' [EvCall c]) \/
  (exists e w', lib c f w = Outcome (inr e) w' [EvCall c; EvRaise e]).
Proof. unfold lib. destruct (f w) as [[a|e] w']; eauto. Qed.

Lemma lib_returns {A : Type} c (f : libfn World A) w a :
  fst (f w) = inl a -> lib c f w = Outcome (inl a) (snd (f w)) [EvCall c].
Proof. unfold lib. destruct (f w) as [[a'|e] w']; simpl; [now intros [= ->] | discriminate]. Qed.

Lemma test_batches_evaluating model loss_fn acc_fn device batches tl ta w :
  disciplined evaluating (test_batches model loss_fn acc_fn device batches tl ta w).
Proof.
  revert tl ta w. induction batches as [|[X y] rest IH]; intros tl ta w; simpl.
  - discipline.
  - discipline. apply IH.
Qed.

Lemma test_step_evaluating model data_loader loss_fn acc_fn device w :
  disciplined evaluating (test_step model data_loader loss_fn acc_fn device w).
Proof. unfold test_step. discipline. apply test_batches_evaluating. Qed.

(** X8.  [test_step] only evaluates: it never puts the model in training mode,
    clears or computes gradients, or steps the optimizer, whether it returns
    or raises. *)
Theorem test_step_updates_nothing model data_loader loss_fn acc_fn device w c :
  In (EvCall c) (emitted (test_step model data_loader loss_fn acc_fn device w)) ->
  updating_call c = false.
Proof.
  intros Hin.
  pose proof (test_step_evaluating model data_loader loss_fn acc_fn device w) as H.
  unfold disciplined in H.
  destruct (result (test_step model data_loader loss_fn acc_fn device w)).
  - rewrite Stdlib.Lists.List.Forall_forall in H. exact (H _ Hin).
  - destruct H as (tr & Htr & H). rewrite Htr in Hin.
    apply in_app_or in Hin as [Hin|[Hin|[]]]; [|discriminate].
    rewrite Stdlib.Lists.List.Forall_forall in H. exact (H _ Hin).
Qed.

Lemma count_calls_app p a b : count_calls p (a ++ b) = count_calls p a + count_calls p b.
Proof.
  induction a as [|ev a IH]; [reflexivity|]. destruct ev as [c| |]; simpl; rewrite IH; lia.
Qed.

Ltac step_call :=
  lazymatch goal with
  | |- context [bind (lib ?c ?f) ?k ?w] =>
      let E := fresh "E" in
      destruct (lib_cases c f w) as [(? & ? & E)|(? & ? & E)];
      [ rewrite (bind_returned _ _ _ _ _ _ E) | rewrite (bind_raised _ _ _ _ _ _ E) ];
      cbn [result emitted]; clear E
  end.

Lemma train_batches_in_step model loss_fn optimizer acc_fn device batches tl ta w :
  let o := train_batches model loss_fn optimizer acc_fn device batches tl ta w in
  in_step (returns (result o)) (emitted o).
Proof.
  revert tl ta w. induction batches as [|[X y] rest IH]; intros tl ta w; cbn [train_batches].
  - unfold in_step. simpl. lia.
  - cbv zeta.
    do 11 (step_call; [| unfold in_step; simpl; lia]).
    match goal with
    | |- context [train_batches _ _ _ _ _ rest ?a ?b ?w'] =>
        specialize (IH a b w'); cbv zeta in IH;
        generalize dependent (train_batches model loss_fn optimizer acc_fn device rest a b w')
    end.
    intros o (H1 & H2 & H3 & H4 & H5). unfold in_step. rewrite !count_calls_app. simpl.
    repeat split; try lia. intros Hr. specialize (H5 Hr). lia.
Qed.

Lemma truediv_cases a n w :
  (n <> 0 /\ truediv a n w = Outcome (inl (a / float_of_nat n)%float) w []) \/
  (n = 0 /\ truediv a n w = Outcome (inr ZeroDivisionError) w [EvRaise ZeroDivisionError]).
Proof.
  unfold truediv. destruct (n =? 0)%nat eqn:E.
  - right. apply Nat.eqb_eq in E. split; [assumption | reflexivity].
  - left. apply Nat.eqb_neq in E. split; [assumption | reflexivity].
Qed.

Ltac step_div :=
  lazymatch goal with
  | |- context [bind (truediv ?a ?n) ?k ?w] =>
      let E := fresh "E" in
      destruct (truediv_cases a n w) as [[_ E]|[_ E]];
      [ rewrite (bind_returned _ _ _ _ _ _ E) | rewrite (bind_raised _ _ _ _ _ _ E) ];
      cbn [result emitted]; clear E
  end.

Lemma train_step_in_step model data_loader loss_fn optimizer acc_fn device w :
  let o := train_step model data_loader loss_fn optimizer acc_fn device w in
  in_step (returns (result o)) (emitted o).
Proof.
  cbv zeta. unfold train_step.
  do 2 (step_call; [| unfold in_step; simpl; lia]).
  match goal with
  | |- context [bind (train_batches ?m ?l ?o ?a ?d ?b ?x ?y) ?k ?w'] =>
      pose proof (train_batches_in_step m l o a d b x y w') as H; cbv zeta in H;
      destruct (train_batches m l o a d b x y w') as [[sums|e] w2 tr] eqn:E
  end; cbn [result emitted returns] in H.
  2:{ rewrite (bind_raised _ _ _ _ _ _ E). cbn [result emitted returns].
      unfold in_step in *. simpl. destruct H as (H1 & H2 & H3 & H4 & _).
      repeat split; first [lia | discriminate]. }
  rewrite (bind_returned _ _ _ _ _ _ E). cbn [result emitted]. clear E.
  destruct H as (H1 & H2 & H3 & H4 & H5). specialize (H5 eq_refl).
  step_call; [| unfold in_step; simpl; rewrite !count_calls_app; simpl;
                repeat split; first [lia | discriminate]].
  step_div; [| unfold in_step; simpl; rewrite !count_calls_app; simpl;
               repeat split; first [lia | discriminate]].
  step_call; [| unfold in_step; simpl; rewrite !count_calls_app; simpl;
                repeat split; first [lia | discriminate]].
  step_div; [| unfold in_step; simpl; rewrite !count_calls_app; simpl;
               repeat split; first [lia | discriminate]].
  unfold in_step. simpl. rewrite !count_calls_app. simpl. repeat split; try lia.
Qed.

(** X7.  In [train_step] every forward pass is followed by one zero_grad, one
    backward pass and one optimizer step, in this order: a run that returns
    made as many optimizer steps as forward passes, and a run that raises
    made as many or one fewer. *)
Theorem train_step_updates_once_per_forward model data_loader loss_fn optimizer acc_fn device w :
  let o := train_step model data_loader loss_fn optimizer acc_fn device w in
  let forwards := count_calls is_forward (emitted o) in
  let steps := count_calls is_optimizer_step (emitted o) in
  steps <= count_calls is_backward (emitted o) /\
  count_calls is_backward (emitted o) <= count_calls is_zero_grad (emitted o) /\
  count_calls is_zero_grad (emitted o) <= forwards /\
  forwards <= S steps /\
  (forall r, result o = inl r -> forwards = steps).
Proof.
  cbv zeta.
  pose proof (train_step_in_step model data_loader loss_fn optimizer acc_fn device w) as H.
  cbv zeta in H. destruct H as (H1 & H2 & H3 & H4 & H5).
  repeat split; try assumption. intros r Hr. apply H5. now rewrite Hr.
Qed.

Lemma bind_ret {A B : Type} (a : A) (k : A -> M B) w :
  bind (ret a) k w = Outcome (result (k a w)) (world (k a w)) (emitted (k a w)).
Proof. reflexivity. Qed.

Section EmptyLoader.
Variables model data_loader loss_fn optimizer acc_fn : Obj.
Variable device : string.
Hypothesis train_ok : forall w, fst (model_train model w) = inl tt.
Hypothesis eval_ok : forall w, fst (model_eval model w) = inl tt.
Hypothesis no_batch : forall w, fst (loader_iter data_loader w) = inl [].
Hypothesis no_length : forall w, fst (loader_len data_loader w) = inl 0.

Lemma averages_raise (sums : float * float) w :
  let o := (n <- lib Clen (loader_len data_loader) ;;
            loss <- truediv (fst sums) n ;;
            n' <- lib Clen (loader_len data_loader) ;;
            acc <- truediv (snd sums) n' ;;
            ret (loss, acc)) w in
  result o = inr ZeroDivisionError /\ emitted o = [EvCall Clen; EvRaise ZeroDivisionError].
Proof.
  cbv zeta.
  rewrite (bind_returned _ _ _ _ _ _ (lib_returns Clen _ w _ (no_length w))).
  cbn [result emitted]. split; reflexivity.
Qed.

Lemma train_step_empty w :
  let o := train_step model data_loader loss_fn optimizer acc_fn device w in
  result o = inr ZeroDivisionError /\
  emitted o = [EvCall Cmodel_train; EvCall Citer; EvCall Clen; EvRaise ZeroDivisionError].
Proof.
  cbv zeta. unfold train_step.
  rewrite (bind_returned _ _ _ _ _ _ (lib_returns Cmodel_train _ w _ (train_ok w))).
  cbn [result emitted].
  rewrite (bind_returned _ _ _ _ _ _ (lib_returns Citer _ _ _ (no_batch _))).
  cbn [result emitted train_batches]. rewrite bind_ret. cbn [result emitted].
  match goal with
  | |- context [bind (lib Clen _) _ ?w'] => destruct (averages_raise (0, 0)%float w') as [-> ->]
  end.
  split; reflexivity.
Qed.

Lemma test_step_empty w :
  let o := test_step model data_loader loss_fn acc_fn device w in
  result o = inr ZeroDivisionError /\
  emitted o = [EvCall Cmodel_eval; EvCall Citer; EvCall Clen; EvRaise ZeroDivisionError].
Proof.
  cbv zeta. unfold test_step.
  rewrite (bind_returned _ _ _ _ _ _ (lib_returns Cmodel_eval _ w _ (eval_ok w))).
  cbn [result emitted]. unfold with_inference_mode. cbn [result emitted].
  rewrite (bind_returned _ _ _ _ _ _ (lib_returns Citer _ _ _ (no_batch _))).
  cbn [result emitted test_batches]. rewrite bind_ret. cbn [result emitted].
  match goal with
  | |- context [bind (lib Clen _) _ ?w'] => destruct (averages_raise (0, 0)%float w') as [-> ->]
  end.
  split; reflexivity.
Qed.

(** X9.  With a loader that yields no batch and has length 0, [train_step] and
    [test_step] raise ZeroDivisionError when they average the loss, having
    made no forward pass. *)
Theorem empty_loader_divides_by_zero w :
  (result (train_step model data_loader loss_fn optimizer acc_fn device w)
     = inr ZeroDivisionError /\
   emitted (train_step model data_loader loss_fn optimizer acc_fn device w)
     = [EvCall Cmodel_train; EvCall Citer; EvCall Clen; EvRaise ZeroDivisionError]) /\
  (result (test_step model data_loader loss_fn acc_fn device w) = inr ZeroDivisionError /\
   emitted (test_step model data_loader loss_fn acc_fn device w)
     = [EvCall Cmodel_eval; EvCall Citer; EvCall Clen; EvRaise ZeroDivisionError]).
Proof. split; [apply train_step_empty | apply test_step_empty]. Qed.

End EmptyLoader.

End StepRuns.

(** ** The epoch loop *)

Lemma body_run_executed epoch r res tr tr' :
  body_run epoch r res tr -> executed_epochs (tr ++ tr') = executed_epochs tr'.
Proof.
  destruct 1 as [A e HA|A tl e HA|A tl HA Hb|A trl tl tra ta HA Hb];
    rewrite <- app_assoc, (executed_quiet _ _ HA); try reflexivity.
  simpl. unfold status_of. destruct (epoch mod 10 =? 0)%nat; reflexivity.
Qed.

Lemma loop_run_executed indices r res tr :
  loop_run indices r res tr -> exists k, executed_epochs tr = take k indices.
Proof.
  induction 1 as [r|r e|i rest r e|i rest r e tr Hb|i rest r r' tr Hb
                 |i rest r r' tr res tr' Hb Hk Hl [k IH]].
  - exists 0. reflexivity.
  - exists 0. reflexivity.
  - exists 1. reflexivity.
  - exists 1. simpl. rewrite <- (app_nil_r tr), (body_run_executed _ _ _ _ [] Hb).
    now rewrite take_0.
  - exists 1. simpl. rewrite <- (app_nil_r tr), (body_run_executed _ _ _ _ [] Hb).
    now rewrite take_0.
  - exists (S k). simpl. now rewrite (body_run_executed _ _ _ _ tr' Hb), IH.
Qed.

Section Loop.
Context `{T : Torch}.
Variables model train_dataloader test_dataloader loss_fn optimizer scheduler acc_fn : Obj.
Variable device : string.

(** X10.  [train] starts the epochs in order, 0, 1, 2, ..., without a gap, and at
    most [epochs] of them. *)
Theorem train_runs_epochs_in_order epochs w :
  let o := train model epochs train_dataloader test_dataloader loss_fn optimizer scheduler
             acc_fn device w in
  exists k, k <= Z.to_nat epochs /\ executed_epochs (emitted o) = seq 0 k.
Proof.
  cbv zeta.
  destruct (train_run model epochs train_dataloader test_dataloader loss_fn optimizer
              scheduler acc_fn device w) as [(e & _ & ->)|(tr & -> & Hl)].
  - exists 0. split; [lia | reflexivity].
  - destruct (loop_run_executed _ _ _ _ Hl) as [k Hk]. simpl. rewrite Hk.
    exists (Nat.min k (Z.to_nat epochs)). split; [lia|].
    generalize (Z.to_nat epochs). intros n. clear. generalize 0.
    revert k. induction n as [|n IH]; intros [|k] s; simpl; try reflexivity.
    now rewrite IH.
Qed.

(** X11.  With [epochs] at most 0, [train] runs no epoch: it makes the progress
    bar, finds it exhausted and returns the empty record. *)
Theorem train_without_epochs epochs w :
  (epochs <= 0)%Z ->
  let o := train model epochs train_dataloader test_dataloader loss_fn optimizer scheduler
             acc_fn device w in
  (result o = inl empty_results /\
   emitted o = [EvCall (Ctrange epochs); EvCall Cstop_iteration]) \/
  (exists e, result o = inr e /\
     (emitted o = [EvCall (Ctrange epochs); EvRaise e] \/
      emitted o = [EvCall (Ctrange epochs); EvCall Cstop_iteration; EvRaise e])).
Proof.
  intros Hle. cbv zeta.
  destruct (train_run model epochs train_dataloader test_dataloader loss_fn optimizer
              scheduler acc_fn device w) as [(e & He & ->)|(tr & -> & Hl)].
  - right. eauto.
  - replace (Z.to_nat epochs) with 0 in Hl by lia. simpl in Hl.
    generalize dependent (result (train model epochs train_dataloader test_dataloader
                                    loss_fn optimizer scheduler acc_fn device w)).
    intros res Hl. inversion Hl; subst.
    + left. split; reflexivity.
    + right. eexists. split; [reflexivity | right; reflexivity].
Qed.

End Loop.

Lemma never_below_cons ev tr : never_below (ev :: tr) -> never_below tr.
Proof. intros H tl Hin. apply H. now right. Qed.

Lemma never_below_app_l a b : never_below (a ++ b) -> never_below a.
Proof. intros H tl Hin. apply H. apply in_or_app. now left. Qed.

Lemma never_below_app_r a b : never_below (a ++ b) -> never_below b.
Proof. intros H tl Hin. apply H. apply in_or_app. now right. Qed.

Lemma loop_run_full indices r r' tr :
  loop_run indices r (inl r') tr -> never_below tr -> has_keys r ->
  (forall k, In k metric_names -> entries r' k = entries r k + length indices) /\
  executed_epochs tr = indices.
Proof.
  intros H. remember (inl r') as res eqn:Hres. revert r' Hres.
  induction H as [r|r e|i rest r e|i rest r e tr Hb|i rest r r1 tr Hb
                 |i rest r r1 tr res tr' Hb Hk Hl IH]; intros r' Hres Hnb Hkeys;
    try discriminate.
  - injection Hres as <-. split; [intros; simpl; lia | reflexivity].
  - exfalso. inversion Hb; subst.
    assert (Hin : In (EvCall (Cscheduler_step tl)) (EvCall (Cnext i) :: A ++ [EvCall (Cscheduler_step tl)])).
    { right. apply in_or_app. right. now left. }
    specialize (Hnb tl Hin). congruence.
  - subst res. apply never_below_cons in Hnb.
    specialize (IH r' eq_refl (never_below_app_r _ _ Hnb) Hk) as [IH1 IH2].
    split.
    + intros k Hin. rewrite (IH1 k Hin). inversion Hb; subst.
      rewrite entries_appended by assumption. simpl. lia.
    + simpl. now rewrite (body_run_executed _ _ _ _ tr' Hb), IH2.
Qed.

Section FullRun.
Context `{T : Torch}.
Variables model train_dataloader test_dataloader loss_fn optimizer scheduler acc_fn : Obj.
Variable device : string.

(** X12.  A run of [train] that returns and in which no test loss was below the
    threshold went through all the epochs and recorded every one of them:
    each of the four lists holds [epochs] values. *)
Theorem train_records_every_epoch epochs w r :
  let o := train model epochs train_dataloader test_dataloader loss_fn optimizer scheduler
             acc_fn device w in
  result o = inl r -> never_below (emitted o) ->
  executed_epochs (emitted o) = seq 0 (Z.to_nat epochs) /\
  forall k, In k metric_names -> entries r k = Z.to_nat epochs.
Proof.
  cbv zeta. intros Hr Hnb.
  destruct (train_run model epochs train_dataloader test_dataloader loss_fn optimizer
              scheduler acc_fn device w) as [(e & He & _)|(tr & Htr & Hl)];
    [congruence|].
  rewrite Htr in *. rewrite Hr in Hl. apply never_below_cons in Hnb.
  destruct (loop_run_full _ _ _ _ Hl Hnb has_keys_empty) as [H1 H2].
  split; [simpl; exact H2|].
  intros k Hin. rewrite (H1 k Hin), entries_empty by assumption.
  rewrite length_seq. lia.
Qed.

End FullRun.

(** ** The script *)

Section Saving.
Context `{T : Torch}.

Lemma inner_not_saving ev : inner_event ev -> not_saving ev.
Proof. destruct ev as [c| |]; simpl; try contradiction. destruct c; simpl; auto; discriminate. Qed.

Lemma disciplined_try (P : event -> Prop) {A : Type} (body : M A) (handler : exn -> M A) w :
  (forall e, P (EvRaise e)) -> disciplined P (body w) ->
  (forall e w', disciplined P (handler e w')) ->
  disciplined P (try_except_RuntimeError body handler w).
Proof.
  intros Hraise Hbody Hh. unfold try_except_RuntimeError, disciplined in *.
  destruct (body w) as [[a|e] w1 tr1]; cbn [result emitted world] in *; [assumption|].
  destruct (isinstance_RuntimeError e); cbn [result emitted]; [|assumption].
  destruct Hbody as (tr & -> & Htr). specialize (Hh e w1).
  assert (Hall : Forall P (tr ++ [EvRaise e])).
  { apply Forall_app. split; [assumption | repeat constructor; apply Hraise]. }
  destruct (handler e w1) as [[a|e'] w2 tr2]; cbn [result emitted] in *.
  - apply Forall_app. split; assumption.
  - destruct Hh as (tr' & -> & Htr'). exists ((tr ++ [EvRaise e]) ++ tr'). split.
    + now rewrite app_assoc.
    + apply Forall_app. split; assumption.
Qed.

Lemma load_checkpoint_not_saving model w : disciplined not_saving (load_checkpoint model w).
Proof.
  unfold load_checkpoint. apply disciplined_try; [intros; exact I | | intros; discipline].
  unfold load_saved. apply disciplined_bind; [discipline|]. intros [|] w1; discipline.
Qed.

Lemma append_not_saving key v results w : disciplined not_saving (append key v results w).
Proof. unfold append. destruct (results !! key); discipline. Qed.

Lemma epoch_body_not_saving model train_dataloader test_dataloader loss_fn optimizer scheduler
    acc_fn device epoch results w :
  disciplined not_saving
    (epoch_body model train_dataloader test_dataloader loss_fn optimizer scheduler
       acc_fn device epoch results w).
Proof.
  unfold epoch_body. apply disciplined_bind.
  { eapply disciplined_mono; [apply inner_not_saving | apply train_step_inner]. }
  intros [trl tra] w1. apply disciplined_bind.
  { eapply disciplined_mono; [apply inner_not_saving | apply test_step_inner]. }
  intros [tl ta] w2. apply disciplined_bind; [discipline|]. intros _ w3.
  destruct (tl <? threshold)%float; [discipline|].
  apply disciplined_bind.
  { destruct (epoch mod 10 =? 0)%nat; discipline. }
  intros _ w4.
  repeat (apply disciplined_bind; [apply append_not_saving | intros]). discipline.
Qed.

Lemma train_not_saving model epochs train_dataloader test_dataloader loss_fn optimizer
    scheduler acc_fn device w :
  disciplined not_saving
    (train model epochs train_dataloader test_dataloader loss_fn optimizer scheduler
       acc_fn device w).
Proof.
  unfold train. apply disciplined_bind; [discipline|]. intros bar w1.
  generalize (seq 0 (Z.to_nat epochs)) empty_results. intros indices.
  revert w1. induction indices as [|i rest IH]; intros w1 results; simpl.
  - discipline.
  - apply disciplined_bind; [discipline|]. intros _ w2.
    apply disciplined_bind; [apply epoch_body_not_saving|]. intros [r'|r'] w3.
    + apply IH.
    + discipline.
Qed.

Lemma saved_last_bind {A : Type} (m : M A) (k : A -> M unit) w :
  disciplined not_saving (m w) ->
  (forall a w', saved_last (result (k a w')) (emitted (k a w'))) ->
  saved_last (result (bind m k w)) (emitted (bind m k w)).
Proof.
  unfold disciplined, bind. intros Hm Hk.
  destruct (m w) as [[a|e] w1 tr1]; cbn [result emitted world] in *.
  - specialize (Hk a w1). destruct (k a w1) as [[[]|e] w2 tr2]; cbn [result emitted] in *.
    + destruct Hk as (pre & -> & Hpre). exists (tr1 ++ pre). split.
      * now rewrite app_assoc.
      * apply Forall_app. split; assumption.
    + destruct Hk as (pre & -> & [Hpre|(pre' & -> & Hpre')]).
      * exists (tr1 ++ pre). split; [now rewrite app_assoc|].
        left. apply Forall_app. split; assumption.
      * exists (tr1 ++ pre' ++ [EvCall (Ctorch_save save_path)]). split.
        { now rewrite <- !app_assoc. }
        right. exists (tr1 ++ pre'). split; [now rewrite app_assoc|].
        apply Forall_app. split; assumption.
  - destruct Hm as (tr & -> & Htr). exists tr. split; [reflexivity | now left].
Qed.

Lemma save_and_report sd w :
  let o := (_ <- lib (Ctorch_save save_path) (torch_save sd save_path) ;;
            print (SavedLine save_path)) w in
  saved_last (result o) (emitted o).
Proof.
  cbv zeta. destruct (lib_cases (Ctorch_save save_path) (torch_save sd save_path) w)
    as [([] & w1 & E)|(e & w1 & E)].
  - rewrite (bind_returned _ _ _ _ _ _ E). cbn [result emitted print].
    exists []. split; [reflexivity | constructor].
  - rewrite (bind_raised _ _ _ _ _ _ E). cbn [result emitted].
    exists [EvCall (Ctorch_save save_path)]. split; [reflexivity|].
    right. exists []. split; [reflexivity | constructor].
Qed.

Lemma main_saved_last w : saved_last (result (main w)) (emitted (main w)).
Proof.
  unfold main.
  repeat (apply saved_last_bind; [solve [discipline] | intros]).
  apply saved_last_bind; [apply load_checkpoint_not_saving | intros].
  apply saved_last_bind; [apply train_not_saving | intros].
  repeat (apply saved_last_bind; [solve [discipline] | intros]).
  apply save_and_report.
Qed.

(** X13.  The script writes the checkpoint last.  A run that returns ends with
    the call of torch.save and the line that reports it, and nothing before
    wrote the file; a run that raises wrote nothing, unless torch.save itself
    raised: what was trained is lost when loading, training or plotting
    fails. *)
Theorem main_saves_last w :
  (result (main w) = inl tt ->
   exists pre,
     emitted (main w)
       = pre ++ [EvCall (Ctorch_save save_path); EvPrint (SavedLine save_path)] /\
     Forall not_saving pre) /\
  (forall e, result (main w) = inr e ->
   exists pre, emitted (main w) = pre ++ [EvRaise e] /\
     (Forall not_saving pre \/
      exists pre', pre = pre' ++ [EvCall (Ctorch_save save_path)] /\ Forall not_saving pre')).
Proof.
  pose proof (main_saved_last w) as H. unfold saved_last in H. split.
  - intros Hr. now rewrite Hr in H.
  - intros e Hr. now rewrite Hr in H.
Qed.

End Saving.

(** ** Runs on the lab library *)

Lemma test_step_updates_nothing_witness :
  In (EvCall Cforward) (emitted (test_step (T := lab) tt tt tt tt "cpu" fresh_world)) /\
  updating_call Cforward = false.
Proof.
  assert (H : In (EvCall Cforward)
                (emitted (test_step (T := lab) tt tt tt tt "cpu" fresh_world)))
    by (vm_compute; tauto).
  split; [exact H |].
  exact (test_step_updates_nothing (T := lab) tt tt tt tt "cpu" fresh_world Cforward H).
Defined.

Lemma empty_loader_divides_by_zero_witness :
  (result (train_step (T := lab_loader []) tt tt tt tt tt "cpu" fresh_world)
     = inr ZeroDivisionError /\
   emitted (train_step (T := lab_loader []) tt tt tt tt tt "cpu" fresh_world)
     = [EvCall Cmodel_train; EvCall Citer; EvCall Clen; EvRaise ZeroDivisionError]) /\
  (result (test_step (T := lab_loader []) tt tt tt tt "cpu" fresh_world)
     = inr ZeroDivisionError /\
   emitted (test_step (T := lab_loader []) tt tt tt tt "cpu" fresh_world)
     = [EvCall Cmodel_eval; EvCall Citer; EvCall Clen; EvRaise ZeroDivisionError]).
Proof.
  apply (empty_loader_divides_by_zero (T := lab_loader []) tt tt tt tt tt "cpu");
    intros; reflexivity.
Defined.

Lemma train_without_epochs_witness :
  (result (lab_train (-1) []) = inl empty_results /\
   emitted (lab_train (-1) []) = [EvCall (Ctrange (-1)); EvCall Cstop_iteration]) \/
  (exists e, result (lab_train (-1) []) = inr e /\
     (emitted (lab_train (-1) []) = [EvCall (Ctrange (-1)); EvRaise e] \/
      emitted (lab_train (-1) [])
        = [EvCall (Ctrange (-1)); EvCall Cstop_iteration; EvRaise e])).
Proof.
  apply (train_without_epochs (T := lab) tt tt tt tt tt tt tt "cpu" (-1)
           (LabWorld [] ∅ None None)).
  lia.
Defined.

Lemma train_records_every_epoch_witness :
  result full_run
    = inl (appended (appended empty_results 9 8 0.5 0.5) 9 8 0.5 0.5) /\
  executed_epochs (emitted full_run) = seq 0 (Z.to_nat 2) /\
  forall k, In k metric_names ->
    entries (appended (appended empty_results 9 8 0.5 0.5) 9 8 0.5 0.5) k = Z.to_nat 2.
Proof.
  assert (H1 : result full_run
                 = inl (appended (appended empty_results 9 8 0.5 0.5) 9 8 0.5 0.5))
    by reflexivity.
  assert (H2 : never_below (emitted full_run)).
  { intros tl Hin. vm_compute in Hin.
    repeat (destruct Hin as [Hin|Hin]; [first [discriminate Hin | injection Hin as <-; reflexivity]|]).
    destruct Hin. }
  split; [exact H1 |].
  exact (train_records_every_epoch (T := lab) tt tt tt tt tt tt tt "cpu" 2
           (LabWorld [9; 8; 9; 8]%float ∅ None None) _ H1 H2).
Defined.

End ScriptProofs.

(* ===================================================================== *)
(** * models/SegRNN.py: forward computes the forecaster *)
(* ===================================================================== *)

Module ForecasterProofs.
Import Tensor SegRNN Shapes Forecaster.

Section Rows.
Context {A : Type}.
Implicit Types (l : list A) (rows : list (list A)).


Lemma length_chunks count size l : length (chunks count size l) = count.
Proof. revert l; induction count as [|k IH]; intros l; simpl; [reflexivity | now rewrite IH]. Qed.

Lemma chunks_uniform count size l :
  count * size <= length l -> uniform size (chunks count size l).
Proof.
  revert l; induction count as [|k IH]; intros l Hl; simpl; constructor.
  - rewrite length_take. simpl in Hl. lia.
  - apply IH. rewrite length_drop. simpl in Hl. lia.
Qed.

Lemma concat_chunks count size l :
  length l = count * size -> concat (chunks count size l) = l.
Proof.
  revert l; induction count as [|k IH]; intros l Hl; simpl.
  - destruct l; [reflexivity | discriminate].
  - rewrite IH by (rewrite length_drop; simpl in Hl; lia). apply take_drop.
Qed.

Lemma chunks_concat count size rows :
  length rows = count -> uniform size rows -> chunks count size (concat rows) = rows.
Proof.
  intros <- Hu. induction Hu as [|r rows Hr Hu IH]; simpl; [reflexivity|].
  rewrite (take_app_length' r _ size (eq_sym Hr)), (drop_app_length' r _ size (eq_sym Hr)).
  now rewrite IH.
Qed.

Lemma length_concat_uniform size rows :
  uniform size rows -> length (concat rows) = length rows * size.
Proof.
  induction 1 as [|r rows Hr Hu IH]; simpl; [reflexivity|].
  rewrite length_app, IH, Hr. reflexivity.
Qed.

Lemma uniform_concat size (groups : list (list (list A))) :
  Forall (uniform size) groups -> uniform size (concat groups).
Proof.
  induction 1 as [|g groups Hg Hgs IH]; simpl; [constructor|].
  apply Forall_app; split; assumption.
Qed.

Lemma uniform_replicate size k (r : list A) : length r = size -> uniform size (replicate k r).
Proof. intros H. apply Forall_replicate. exact H. Qed.

Lemma concat_replicate_rows k rows :
  concat (replicate k (concat rows)) = concat (concat (replicate k rows)).
Proof. induction k as [|k IH]; simpl; [reflexivity|]. now rewrite concat_app, IH. Qed.

End Rows.

Lemma chunks_concat_groups {A : Type} k q size (groups : list (list A)) :
  length groups = k -> uniform (q * size) groups ->
  chunks (k * q) size (concat groups) = concat (map (chunks q size) groups).
Proof.
  intros Hk Hu.
  assert (E : concat groups = concat (concat (map (chunks q size) groups))).
  { clear Hk. induction Hu as [|g groups Hg Hu IH]; simpl; [reflexivity|].
    rewrite concat_app, <- IH, concat_chunks by assumption. reflexivity. }
  rewrite E. apply chunks_concat.
  - rewrite (length_concat_uniform q).
    + now rewrite length_map, Hk.
    + apply Forall_map. apply Forall_true. intros g. apply length_chunks.
  - apply uniform_concat. apply Forall_map.
    eapply Forall_impl; [exact Hu|]. intros g Hg. simpl in Hg |- *.
    apply chunks_uniform. lia.
Qed.


Section Zips.
Context {A B C : Type}.

Lemma zip_concat (f : A -> B -> C) (xs : list (list A)) (ys : list (list B)) :
  Forall2 (fun x y => length x = length y) xs ys ->
  zip_with f (concat xs) (concat ys) = concat (zip_with (zip_with f) xs ys).
Proof.
  induction 1 as [|x y xs ys Hxy H IH]; simpl; [reflexivity|].
  rewrite zip_with_app by assumption. now rewrite IH.
Qed.

Lemma zip_replicate_l (f : A -> B -> C) k a (ys : list B) :
  length ys = k -> zip_with f (replicate k a) ys = map (f a) ys.
Proof.
  intros <-. induction ys as [|y ys IH]; simpl; [reflexivity | now rewrite IH].
Qed.

Lemma zip_replicate_r (f : A -> B -> C) k b (xs : list A) :
  length xs = k -> zip_with f xs (replicate k b) = map (fun x => f x b) xs.
Proof.
  intros <-. induction xs as [|x xs IH]; simpl; [reflexivity | now rewrite IH].
Qed.

Lemma zip_map_same {D : Type} (f : A -> B -> C) (g : D -> A) (h : D -> B) (l : list D) :
  zip_with f (map g l) (map h l) = map (fun x => f (g x) (h x)) l.
Proof. induction l as [|x l IH]; simpl; [reflexivity | now rewrite IH]. Qed.

Lemma uniform_same_length size (xs : list (list A)) (ys : list (list B)) :
  length xs = length ys -> uniform size xs -> uniform size ys ->
  Forall2 (fun x y => length x = length y) xs ys.
Proof.
  intros Hl Hx. revert ys Hl. induction Hx as [|x xs Hx Hxs IH]; intros [|y ys] Hl Hy;
    try discriminate; constructor.
  - inversion Hy; subst. congruence.
  - apply IH; [simpl in Hl; lia | now inversion Hy].
Qed.

End Zips.

Section MoreRows.
Context {A : Type}.

Lemma map_uniform_id (f : list A -> list A) size rows :
  (forall r, length r = size -> f r = r) -> uniform size rows -> map f rows = rows.
Proof.
  intros Hf. induction 1 as [|r rows Hr Hu IH]; simpl; [reflexivity|].
  now rewrite Hf, IH.
Qed.

Lemma map_uniform_ext {B : Type} (f g : list A -> B) size rows :
  (forall r, length r = size -> f r = g r) -> uniform size rows -> map f rows = map g rows.
Proof.
  intros Hf. induction 1 as [|r rows Hr Hu IH]; simpl; [reflexivity|].
  now rewrite Hf, IH.
Qed.

Lemma chunks_one size (l : list A) : length l = size -> chunks 1 size l = [l].
Proof. intros H. simpl. rewrite take_ge by lia. reflexivity. Qed.

Lemma concat_concat_map (groups : list (list (list A))) :
  concat (map (@concat A) groups) = concat (concat groups).
Proof.
  induction groups as [|g groups IH]; simpl; [reflexivity|].
  now rewrite concat_app, IH.
Qed.

Lemma Forall_chunks (P : A -> Prop) count size l :
  Forall P l -> Forall (Forall P) (chunks count size l).
Proof.
  revert l. induction count as [|k IH]; intros l H; simpl; constructor.
  - now apply Forall_take.
  - apply IH. now apply Forall_drop.
Qed.

Lemma transpose_shape cols (rows : list (list A)) :
  uniform cols rows ->
  length (transpose cols rows) = cols /\ uniform (length rows) (transpose cols rows).
Proof.
  unfold transpose. induction 1 as [|r rows Hr Hu [IH1 IH2]]; simpl.
  - split; [apply length_replicate | now apply Forall_replicate].
  - split; [rewrite length_zip_with; lia|].
    clear IH1 Hr. revert r. induction IH2 as [|col colsl Hcol Hcols IH]; intros [|a r]; simpl;
      constructor; [simpl; now rewrite Hcol | apply IH].
Qed.

End MoreRows.

Section Stages.
Context `{Sc : Scalar}.

Lemma expand_same sh l : length l = numel sh -> expand sh sh l = l.
Proof.
  revert l. induction sh as [|s sh IH]; intros l Hl; [reflexivity|].
  cbn [expand]. rewrite Nat.eqb_refl.
  change (numel (s :: sh)) with (s * numel sh) in Hl.
  rewrite (map_uniform_id _ (numel sh)).
  - now apply concat_chunks.
  - intros r Hr. now apply IH.
  - apply chunks_uniform. lia.
Qed.

Lemma expand_cons s src t tgt l :
  expand (s :: src) (t :: tgt) l =
    let rows := map (expand src tgt) (chunks s (numel src) l) in
    if (s =? t)%nat then concat rows else concat (replicate t (concat rows)).
Proof. reflexivity. Qed.

Lemma numel1 c : numel [c] = c.
Proof. cbn. lia. Qed.

Lemma numel2 a c : numel [a; c] = a * c.
Proof. cbn. lia. Qed.

Lemma expand_last_rows b s c (lasts : list (list num)) :
  length lasts = b -> uniform c lasts ->
  expand [b; 1; c] [b; s; c] (concat lasts)
    = concat (map (fun row => concat (replicate s row)) lasts).
Proof.
  intros Hb Hu. rewrite expand_cons. cbv zeta. rewrite Nat.eqb_refl.
  rewrite numel2, Nat.mul_1_l.
  rewrite chunks_concat by assumption. f_equal.
  apply (map_uniform_ext _ _ c); [|assumption]. intros row Hrow.
  rewrite expand_cons. cbv zeta. rewrite numel1.
  rewrite (chunks_one c) by assumption. cbn [map].
  rewrite expand_same by now rewrite numel1.
  cbn [concat]. rewrite app_nil_r.
  destruct (1 =? s)%nat eqn:E; [|reflexivity].
  apply Nat.eqb_eq in E. subst s. cbn. now rewrite app_nil_r.
Qed.


Lemma cube_uniform b s c X : cube b s c X -> uniform (s * c) (map (@concat num) X).
Proof.
  intros [_ H]. apply Forall_map. eapply Forall_impl; [exact H|].
  intros rs [Hl Hu]. simpl. rewrite (length_concat_uniform c) by assumption. now rewrite Hl.
Qed.

Lemma cube_length b s c X : cube b s c X -> length (concat (map (@concat num) X)) = b * (s * c).
Proof.
  intros H. rewrite (length_concat_uniform (s * c)) by (eapply cube_uniform; eassumption).
  rewrite length_map. now destruct H as [-> _].
Qed.

Lemma last_step_rows b s c (batches : list (list num)) :
  length batches = b -> uniform (s * c) batches -> 0 < s ->
  last_step (Tensor [b; s; c] (concat batches))
    = Some (Tensor [b; 1; c] (concat (map (drop ((s - 1) * c)) batches))).
Proof.
  intros Hb Hu Hs. unfold last_step. cbn [shape data].
  replace (numel [c]) with c by (cbn; lia).
  rewrite chunks_concat by assumption.
  replace (Nat.min 1 s) with 1 by lia. reflexivity.
Qed.

Lemma broadcast_shapes_rows b s c : broadcast_shapes [b; s; c] [b; 1; c] = Some [b; s; c].
Proof.
  unfold broadcast_shapes. cbn -[Nat.eqb]. rewrite !Nat.eqb_refl.
  destruct (s =? 1)%nat eqn:E; cbn -[Nat.eqb]; rewrite ?Nat.eqb_refl; reflexivity.
Qed.

Lemma zip_rows (op : num -> num -> num) s c (rs : list (list num)) (l : list num) :
  length rs = s -> uniform c rs -> length l = c ->
  zip_with op (concat rs) (concat (replicate s l))
    = concat (map (fun r => zip_with op r l) rs).
Proof.
  intros Hs Hu Hl. rewrite zip_concat.
  - f_equal. rewrite (zip_replicate_r _ s) by assumption. reflexivity.
  - apply (uniform_same_length c); [now rewrite length_replicate | assumption |].
    now apply uniform_replicate.
Qed.

Lemma broadcast_rows op b s c X (lasts : list (list num)) :
  cube b s c X -> length lasts = b -> uniform c lasts ->
  broadcast op (Tensor [b; s; c] (concat (map (@concat num) X))) (Tensor [b; 1; c] (concat lasts))
    = Some (Tensor [b; s; c]
              (concat (zip_with (fun rs l => concat (map (fun r => zip_with op r l) rs))
                         X lasts))).
Proof.
  intros HX Hl Hu. unfold broadcast. cbn [shape data].
  rewrite broadcast_shapes_rows. cbn [mbind option_bind length pad_shape Nat.sub replicate app].
  rewrite expand_same by (rewrite (cube_length b s c) by assumption; cbn; lia).
  rewrite expand_last_rows by assumption.
  rewrite zip_concat.
  2:{ apply (uniform_same_length (s * c)).
      - rewrite !length_map. destruct HX as [-> _]. now rewrite Hl.
      - eapply cube_uniform; eassumption.
      - apply Forall_map. eapply Forall_impl; [exact Hu|]. intros l Hlen. simpl.
        rewrite (length_concat_uniform c) by now apply uniform_replicate.
        now rewrite length_replicate. }
  do 3 f_equal.
  destruct HX as [HXl HX]. clear Hl HXl. revert lasts Hu.
  induction HX as [|rs X [Hrs Hc] HX IH]; intros [|l lasts] Hu; simpl; try reflexivity.
  inversion Hu; subst.
  rewrite IH by assumption. f_equal. now apply (zip_rows op (length rs) (length l)).
Qed.

Lemma permute_rows b s c X :
  cube b s c X ->
  permute021 (Tensor [b; s; c] (concat (map (@concat num) X)))
    = Some (Tensor [b; c; s] (concat (map (fun rs => concat (transpose c rs)) X))).
Proof.
  intros HX. unfold permute021. cbn [shape data].
  rewrite chunks_concat;
    [| rewrite length_map; now destruct HX | eapply cube_uniform; eassumption].
  rewrite map_map. do 3 f_equal.
  destruct HX as [_ HX]. induction HX as [|rs X [Hrs Hc] HX IH]; simpl; [reflexivity|].
  rewrite IH. now rewrite chunks_concat.
Qed.

Lemma reshape_rows n w sh k (l : list num) :
  numel sh = k * (n * w) -> n * w <> 0 ->
  reshape [None; Some n; Some w] (Tensor sh l) = Some (Tensor [k; n; w] l).
Proof.
  intros Hn Hq. unfold reshape, inferred, known_numel. cbn -[numel Nat.div Nat.modulo].
  replace (n * (w * 1) + 0) with (n * w) by lia.
  replace (n * w =? 0)%nat with false by (symmetry; now apply Nat.eqb_neq).
  rewrite Hn, Nat.Div0.mod_mul, Nat.div_mul by assumption. reflexivity.
Qed.

Lemma reshape_middle_rows d sh k (l : list num) :
  numel sh = k * d -> d <> 0 ->
  reshape [Some 1; None; Some d] (Tensor sh l) = Some (Tensor [1; k; d] l).
Proof.
  intros Hn Hq. unfold reshape, inferred, known_numel. cbn -[numel Nat.div Nat.modulo].
  replace (d * 1 + 0 + 0) with d by lia.
  replace (d =? 0)%nat with false by (symmetry; now apply Nat.eqb_neq).
  rewrite Hn, Nat.Div0.mod_mul, Nat.div_mul by assumption. reflexivity.
Qed.

Lemma linear_rows l a n (rows : list (list num)) :
  length rows = a * n -> uniform (in_features l) rows ->
  linear l (Tensor [a; n; in_features l] (concat rows))
    = Some (Tensor [a; n; out_features l]
              (concat (map (affine (weight_rows l) (bias l)) rows))).
Proof.
  intros Hl Hu. unfold linear. cbn [shape data reverse rev_append].
  rewrite Nat.eqb_refl. rewrite numel2.
  rewrite chunks_concat by (assumption || lia). reflexivity.
Qed.

End Stages.

Section Layers.
Context `{Sc : Scalar}.

Lemma length_affine W (b row : list num) :
  length (affine W b row) = Nat.min (length W) (length b).
Proof. unfold affine. apply length_zip_with. Qed.

Lemma length_gru_cell g (h x : list num) :
  length (bias_ih g) = 3 * hidden_size g -> length (bias_hh g) = 3 * hidden_size g ->
  length h = hidden_size g ->
  length (gru_cell g h x) = hidden_size g.
Proof.
  intros Hi Hh Hl. unfold gru_cell.
  cbv zeta.
  repeat first [rewrite length_zip_with | rewrite length_take | rewrite length_drop
               | rewrite length_affine | rewrite length_chunks].
  lia.
Qed.

Lemma gru_scan_last g (h : list num) steps : snd (gru_scan g h steps) = foldl (gru_cell g) h steps.
Proof.
  revert h. induction steps as [|x steps IH]; intros h; simpl; [reflexivity|].
  rewrite <- IH. destruct (gru_scan g (gru_cell g h x) steps). reflexivity.
Qed.

Lemma length_foldl_gru_cell g (h : list num) steps :
  length (bias_ih g) = 3 * hidden_size g -> length (bias_hh g) = 3 * hidden_size g ->
  length h = hidden_size g ->
  length (foldl (gru_cell g) h steps) = hidden_size g.
Proof.
  intros Hi Hh. revert h. induction steps as [|x steps IH]; intros h Hl; simpl; [assumption|].
  apply IH. now apply length_gru_cell.
Qed.

(** The first call of the recurrent layer, from the zero state. *)
Lemma gru_fresh_rows ok g n len (seqs : list (list (list num))) :
  cube n len (input_size g) seqs -> 0 < n -> 0 < len ->
  exists out,
    gru ok g (Tensor [n; len; input_size g] (concat (map (@concat num) seqs))) None
      = Some (out, Tensor [1; n; hidden_size g]
                     (concat (map (foldl (gru_cell g) (replicate (hidden_size g) zero)) seqs))).
Proof.
  intros HX Hn Hlen. unfold gru. cbn [shape data].
  rewrite Nat.eqb_refl. cbn [negb].
  replace (len =? 0)%nat with false by (symmetry; apply Nat.eqb_neq; lia).
  replace (n =? 0)%nat with false by (symmetry; apply Nat.eqb_neq; lia).
  cbn [andb mbind option_bind].
  eexists. f_equal. f_equal. f_equal. f_equal.
  rewrite chunks_concat;
    [| rewrite length_map; now destruct HX | eapply cube_uniform; eassumption].
  destruct HX as [Hl HX]. subst n. clear Hn.
  induction HX as [|rs X [Hrs Hc] HX IH]; simpl; [reflexivity|].
  rewrite IH. f_equal. rewrite gru_scan_last. now rewrite chunks_concat.
Qed.

(** The second call: one step from a given state for every sequence. *)
Lemma gru_step_rows ok g n (xs hs : list (list num)) :
  length xs = n -> uniform (input_size g) xs ->
  length hs = n -> uniform (hidden_size g) hs -> 0 < n ->
  exists out,
    gru ok g (Tensor [n; 1; input_size g] (concat xs))
      (Some (Tensor [1; n; hidden_size g] (concat hs)))
      = Some (out, Tensor [1; n; hidden_size g] (concat (zip_with (gru_cell g) hs xs))).
Proof.
  intros Hx Hux Hh Huh Hn. unfold gru. cbn [shape data].
  rewrite Nat.eqb_refl. cbn [negb Nat.eqb].
  replace (n =? 0)%nat with false by (symmetry; apply Nat.eqb_neq; lia).
  cbn [andb]. destruct (decide _) as [_|E]; [|congruence].
  cbn [mbind option_bind]. eexists. f_equal. f_equal. f_equal. f_equal.
  rewrite Nat.mul_1_l, !chunks_concat by assumption.
  clear Hn Hx Hh. revert xs Hux.
  induction Huh as [|h hs Hh Huh IH]; intros [|x xs] Hux; simpl; try reflexivity.
  inversion Hux; subst.
  rewrite take_ge by lia. simpl. f_equal. now apply IH.
Qed.

Lemma tile_cons d sh r reps (l : list num) :
  tile (d :: sh) (r :: reps) l
    = concat (replicate r (concat (map (tile sh reps) (chunks d (numel sh) l)))).
Proof. reflexivity. Qed.

Lemma tile_ones sh (l : list num) :
  length l = numel sh -> tile sh (replicate (length sh) 1) l = l.
Proof.
  revert l. induction sh as [|d sh IH]; intros l Hl; [reflexivity|].
  cbn [length replicate]. rewrite tile_cons.
  change (numel (d :: sh)) with (d * numel sh) in Hl.
  rewrite (map_uniform_id _ (numel sh));
    [| intros; now apply IH | apply chunks_uniform; lia].
  rewrite concat_chunks by assumption. cbn. now rewrite app_nil_r.
Qed.

Lemma tile_lead k sh r (l : list num) :
  length l = k * numel sh ->
  tile (k :: sh) (r :: replicate (length sh) 1) l = concat (replicate r l).
Proof.
  intros Hl. rewrite tile_cons.
  rewrite (map_uniform_id _ (numel sh));
    [| intros; now apply tile_ones | apply chunks_uniform; lia].
  now rewrite concat_chunks.
Qed.

Lemma repeat_outer r k a d (l : list num) :
  length l = k * (a * d) ->
  repeat [r; 1; 1] (Tensor [k; a; d] l) = Some (Tensor [k * r; a; d] (concat (replicate r l))).
Proof.
  intros Hl. unfold repeat. cbn [shape data length Nat.leb pad_shape Nat.sub replicate app zip_with].
  rewrite !Nat.mul_1_r.
  rewrite (tile_lead k [a; d] r) by (rewrite numel2; assumption). reflexivity.
Qed.

Lemma repeat_middle r k d (rows : list (list num)) :
  length rows = k -> uniform d rows ->
  repeat [1; r; 1] (Tensor [k; 1; d] (concat rows))
    = Some (Tensor [k; r; d] (concat (map (fun row => concat (replicate r row)) rows))).
Proof.
  intros Hk Hu. unfold repeat. cbn [shape data length Nat.leb pad_shape Nat.sub replicate app zip_with].
  rewrite !Nat.mul_1_r, Nat.mul_1_l.
  rewrite tile_cons, numel2, Nat.mul_1_l, chunks_concat by assumption.
  cbn [replicate concat]. rewrite app_nil_r. do 3 f_equal.
  apply (map_uniform_ext _ _ d); [|assumption]. intros row Hrow.
  apply (tile_lead 1 [d] r). rewrite numel1. lia.
Qed.

Lemma repeat_inner r k d (rows : list (list num)) :
  length rows = k -> uniform d rows ->
  repeat [1; 1; r] (Tensor [1; k; d] (concat rows))
    = Some (Tensor [1; k; d * r] (concat (map (fun row => concat (replicate r row)) rows))).
Proof.
  intros Hk Hu. unfold repeat. cbn [shape data length Nat.leb pad_shape Nat.sub replicate app zip_with].
  rewrite !Nat.mul_1_r.
  rewrite tile_cons, numel2.
  rewrite (chunks_one (k * d)) by (rewrite (length_concat_uniform d) by assumption; now rewrite Hk).
  cbn [map replicate concat]. rewrite !app_nil_r.
  rewrite tile_cons, numel1, chunks_concat by assumption.
  cbn [replicate concat]. rewrite app_nil_r. do 3 f_equal.
  apply (map_uniform_ext _ _ d); [|assumption]. intros row Hrow.
  apply (tile_lead d [] r). cbn. lia.
Qed.

Lemma cat_rows c m h h' (P Q : list (list num)) :
  length P = c * m -> uniform h P -> length Q = c * m -> uniform h' Q ->
  cat_last (Tensor [c; m; h] (concat P)) (Tensor [c; m; h'] (concat Q))
    = Some (Tensor [c; m; h + h'] (concat (zip_with app P Q))).
Proof.
  intros HP HuP HQ HuQ. unfold cat_last. cbn [shape data reverse rev_append].
  destruct (decide _) as [_|E]; [|congruence].
  rewrite numel2, !chunks_concat by (assumption || lia). reflexivity.
Qed.

Lemma imap_rows {B : Type} (f : nat -> num -> B) d (rows : list (list num)) :
  uniform d rows ->
  imap f (concat rows) = concat (imap (fun r row => imap (fun k v => f (r * d + k) v) row) rows).
Proof.
  intros Hu. revert f. induction Hu as [|row rows Hrow Hu IH]; intros f; [reflexivity|].
  cbn [concat]. rewrite imap_app, imap_cons. cbn [concat]. f_equal.
  rewrite IH. f_equal. apply imap_ext. intros r rw _. apply imap_ext. intros k v _.
  simpl. f_equal. lia.
Qed.

Lemma map_imap {A B C : Type} (g : B -> C) (f : nat -> A -> B) (l : list A) :
  map g (imap f l) = imap (fun i x => g (f i x)) l.
Proof.
  revert f. induction l as [|x l IH]; intros f; [reflexivity|].
  rewrite !imap_cons. cbn [map]. now rewrite IH.
Qed.

Lemma uniform_imap {A : Type} d (f : nat -> list A -> list A) (rows : list (list A)) :
  (forall r row, length row = d -> length (f r row) = d) ->
  uniform d rows -> uniform d (imap f rows).
Proof.
  intros Hf Hu. revert f Hf. induction Hu as [|row rows Hrow Hu IH]; intros f Hf; [constructor|].
  rewrite imap_cons. constructor; [now apply Hf | apply IH; intros; now apply Hf].
Qed.

End Layers.

Section Steps.
Context `{Sc : Scalar}.

Lemma last_step_of b s c (batches : list (list num)) l :
  l = concat batches -> length batches = b -> uniform (s * c) batches -> 0 < s ->
  last_step (Tensor [b; s; c] l)
    = Some (Tensor [b; 1; c] (concat (map (drop ((s - 1) * c)) batches))).
Proof. intros ->. apply last_step_rows. Qed.

Lemma broadcast_of op b s c X (lasts : list (list num)) l :
  l = concat (map (@concat num) X) -> cube b s c X -> length lasts = b -> uniform c lasts ->
  broadcast op (Tensor [b; s; c] l) (Tensor [b; 1; c] (concat lasts))
    = Some (Tensor [b; s; c]
              (concat (zip_with (fun rs l => concat (map (fun r => zip_with op r l) rs))
                         X lasts))).
Proof. intros ->. apply broadcast_rows. Qed.

Lemma permute_of b s c X l :
  l = concat (map (@concat num) X) -> cube b s c X ->
  permute021 (Tensor [b; s; c] l)
    = Some (Tensor [b; c; s] (concat (map (fun rs => concat (transpose c rs)) X))).
Proof. intros ->. apply permute_rows. Qed.

Lemma linear_of lin a n k o (rows : list (list num)) l :
  l = concat rows -> in_features lin = k -> out_features lin = o ->
  length rows = a * n -> uniform k rows ->
  linear lin (Tensor [a; n; k] l)
    = Some (Tensor [a; n; o] (concat (map (affine (weight_rows lin) (bias lin)) rows))).
Proof. intros -> <- <-. apply linear_rows. Qed.

Lemma gru_fresh_of ok g n len k d (seqs : list (list (list num))) l :
  l = concat (map (@concat num) seqs) -> input_size g = k -> hidden_size g = d ->
  cube n len k seqs -> 0 < n -> 0 < len ->
  exists out,
    gru ok g (Tensor [n; len; k] l) None
      = Some (out, Tensor [1; n; d]
                     (concat (map (foldl (gru_cell g) (replicate d zero)) seqs))).
Proof. intros -> <- <-. apply gru_fresh_rows. Qed.

Lemma gru_step_of ok g n k d (xs hs : list (list num)) lx lh :
  lx = concat xs -> lh = concat hs -> input_size g = k -> hidden_size g = d ->
  length xs = n -> uniform k xs -> length hs = n -> uniform d hs -> 0 < n ->
  exists out,
    gru ok g (Tensor [n; 1; k] lx) (Some (Tensor [1; n; d] lh))
      = Some (out, Tensor [1; n; d] (concat (zip_with (gru_cell g) hs xs))).
Proof. intros -> -> <- <-. apply gru_step_rows. Qed.

Lemma unsqueeze_front (t : tensor) a b :
  shape t = [a; b] -> unsqueeze 0 t = Some (Tensor [1; a; b] (data t)).
Proof. intros H. unfold unsqueeze. rewrite H. reflexivity. Qed.

Lemma unsqueeze_middle (t : tensor) a b :
  shape t = [a; b] -> unsqueeze 1 t = Some (Tensor [a; 1; b] (data t)).
Proof. intros H. unfold unsqueeze. rewrite H. reflexivity. Qed.

Lemma repeat_middle_of r k d (l : list num) :
  length l = k * d ->
  repeat [1; r; 1] (Tensor [k; 1; d] l)
    = Some (Tensor [k; r; d]
              (concat (map (fun row => concat (replicate r row)) (chunks k d l)))).
Proof.
  intros Hl. rewrite <- (concat_chunks k d l Hl) at 1.
  apply repeat_middle; [apply length_chunks | apply chunks_uniform; lia].
Qed.

Lemma repeat_inner_of r k d (rows : list (list num)) l :
  l = concat rows -> length rows = k -> uniform d rows ->
  repeat [1; 1; r] (Tensor [1; k; d] l)
    = Some (Tensor [1; k; d * r] (concat (map (fun row => concat (replicate r row)) rows))).
Proof. intros ->. apply repeat_inner. Qed.

Lemma cat_of c m h h' (P Q : list (list num)) lp lq :
  lp = concat P -> lq = concat Q ->
  length P = c * m -> uniform h P -> length Q = c * m -> uniform h' Q ->
  cat_last (Tensor [c; m; h] lp) (Tensor [c; m; h'] lq)
    = Some (Tensor [c; m; h + h'] (concat (zip_with app P Q))).
Proof. intros -> ->. apply cat_rows. Qed.

End Steps.


Section Batch.
Context `{Sc : Scalar}.
Variable self : model.
Hypothesis R : ready self.

Local Abbreviation s_ := (seq_len self).
Local Abbreviation c_ := (enc_in self).
Local Abbreviation n_ := (seg_num_x self).
Local Abbreviation w_ := (seg_len self).
Local Abbreviation m_ := (seg_num_y self).
Local Abbreviation d_ := (d_model self).
Local Abbreviation p_ := (pred_len self).

Lemma ready_seg_len : 0 < w_.
Proof. pose proof (built_seg_len _ (ready_built _ R)). lia. Qed.

Lemma ready_seg_num_x : 0 < n_.
Proof. pose proof (ready_segments_x _ R). pose proof (ready_seq_len _ R). destruct n_; simpl in *; lia. Qed.

Lemma ready_seg_num_y : 0 < m_.
Proof. pose proof (ready_segments_y _ R). pose proof (ready_pred_len _ R). destruct m_; simpl in *; lia. Qed.

Lemma length_last_of batch : length batch = s_ * c_ -> length (last_of self batch) = c_.
Proof.
  intros H. unfold last_of. rewrite length_drop, H.
  pose proof (ready_seq_len _ R). nia.
Qed.


Lemma normalized_shape batch :
  length batch = s_ * c_ -> length (normalized self batch) = s_ /\ uniform c_ (normalized self batch).
Proof.
  intros H. unfold normalized. split; [now rewrite length_map, length_chunks|].
  apply Forall_map. eapply Forall_impl; [apply (chunks_uniform s_ c_); lia|].
  intros step Hstep. simpl in *. rewrite length_zip_with, Hstep, length_last_of by assumption. lia.
Qed.

Lemma series_of_shape batch :
  length batch = s_ * c_ -> length (series_of self batch) = c_ /\ uniform s_ (series_of self batch).
Proof.
  intros H. destruct (normalized_shape batch H) as [Hl Hu].
  destruct (transpose_shape c_ (normalized self batch) Hu) as [H1 H2].
  rewrite Hl in H2. split; assumption.
Qed.

Lemma length_embed segment : length (embed self segment) = d_.
Proof.
  unfold embed. rewrite length_map, length_affine. unfold weight_rows. rewrite length_chunks.
  rewrite (built_embed_out _ (ready_built _ R)), (ready_embed_bias _ R). lia.
Qed.

Lemma length_cell h x : length h = d_ -> length (gru_cell (rnn self) h x) = d_.
Proof.
  intros H. pose proof (built_rnn_hidden _ (ready_built _ R)) as E.
  rewrite <- E. apply length_gru_cell; rewrite E;
    [apply (ready_bias_ih _ R) | apply (ready_bias_hh _ R) | assumption].
Qed.

Lemma length_encode series : length (encode self series) = d_.
Proof.
  unfold encode. generalize (map (embed self) (chunks n_ w_ series)).
  assert (H0 : length (replicate d_ (zero : num)) = d_) by apply length_replicate.
  revert H0. generalize (replicate d_ (zero : num)).
  intros h Hh l. revert h Hh. induction l as [|x l IH]; intros h Hh; simpl; [assumption|].
  apply IH. now apply length_cell.
Qed.

Lemma positions_shape : length (positions self) = m_ /\ uniform (d_ / 2) (positions self).
Proof.
  unfold positions. split; [apply length_chunks|].
  apply chunks_uniform. rewrite (ready_pos_emb _ R). lia.
Qed.

Lemma channels_shape : length (channels self) = c_ /\ uniform (d_ / 2) (channels self).
Proof.
  unfold channels. split; [apply length_chunks|].
  apply chunks_uniform. rewrite (ready_channel_emb _ R). lia.
Qed.

Lemma decode_shape hidden channel :
  length hidden = d_ ->
  length (decode self hidden channel) = m_ /\ uniform d_ (decode self hidden channel).
Proof.
  intros H. unfold decode. split; [rewrite length_map; apply positions_shape|].
  apply Forall_map. apply Forall_true. intros position. simpl. now apply length_cell.
Qed.

Lemma states_of_shape batch :
  length batch = s_ * c_ ->
  length (states_of self batch) = c_ /\
  Forall (fun states => length states = m_ /\ uniform d_ states) (states_of self batch).
Proof.
  intros H. unfold states_of. destruct (series_of_shape batch H) as [Hl _].
  destruct channels_shape as [Hc _]. split; [rewrite length_zip_with; lia|].
  generalize (series_of self batch) (channels self). clear -R.
  intros a. induction a as [|x a IH]; intros [|y b]; simpl; constructor.
  - apply decode_shape. apply length_encode.
  - apply IH.
Qed.

End Batch.

Section Refinement.
Context `{Sc : Scalar}.
Variable ok : bool.
Variable self : model.
Variable mask : option (nat -> num).
Hypothesis R : ready self.

Local Abbreviation s_ := (seq_len self).
Local Abbreviation c_ := (enc_in self).
Local Abbreviation n_ := (seg_num_x self).
Local Abbreviation w_ := (seg_len self).
Local Abbreviation m_ := (seg_num_y self).
Local Abbreviation d_ := (d_model self).
Local Abbreviation p_ := (pred_len self).

Section Run.
Variable b : nat.
Variable batches : list (list num).
Hypothesis Hb : 0 < b.
Hypothesis Hlen : length batches = b.
Hypothesis Hu : uniform (s_ * c_) batches.

Lemma batches_nested : concat batches = concat (map (@concat num) (map (chunks s_ c_) batches)).
Proof.
  rewrite map_map. f_equal. symmetry.
  apply (map_uniform_id _ (s_ * c_)); [|assumption].
  intros r Hr. now apply concat_chunks.
Qed.

Lemma steps_cube : cube b s_ c_ (map (chunks s_ c_) batches).
Proof.
  split; [now rewrite length_map|].
  apply Forall_map. eapply Forall_impl; [exact Hu|]. intros batch Hl. simpl in *.
  split; [apply length_chunks | apply chunks_uniform; lia].
Qed.

Lemma lasts_uniform : uniform c_ (map (last_of self) batches).
Proof.
  apply Forall_map. eapply Forall_impl; [exact Hu|]. intros batch Hl.
  now apply length_last_of.
Qed.

Lemma normalized_cube : cube b s_ c_ (map (normalized self) batches).
Proof.
  split; [now rewrite length_map|].
  apply Forall_map. eapply Forall_impl; [exact Hu|]. intros batch Hl.
  now apply normalized_shape.
Qed.

Lemma series_cube : cube b c_ s_ (map (series_of self) batches).
Proof.
  split; [now rewrite length_map|].
  apply Forall_map. eapply Forall_impl; [exact Hu|]. intros batch Hl.
  now apply series_of_shape.
Qed.


Lemma all_series_shape : length (all_series self batches) = b * c_ /\ uniform s_ (all_series self batches).
Proof.
  unfold all_series. destruct series_cube as [Hl HF]. split.
  - rewrite (length_concat_uniform c_); [now rewrite Hl|].
    eapply Forall_impl; [exact HF|]. now intros rs [? _].
  - apply uniform_concat. eapply Forall_impl; [exact HF|]. now intros rs [_ ?].
Qed.


Lemma segments_shape : length (segments self batches) = b * c_ * n_ /\ uniform w_ (segments self batches).
Proof.
  destruct all_series_shape as [Hl HF]. unfold segments. split.
  - rewrite (length_concat_uniform n_).
    + now rewrite length_map, Hl.
    + apply Forall_map. apply Forall_true. intros xs. apply length_chunks.
  - apply uniform_concat. apply Forall_map. eapply Forall_impl; [exact HF|].
    intros xs Hx. simpl in *. apply chunks_uniform. rewrite (ready_segments_x _ R). lia.
Qed.

Lemma series_segments : concat (map (@concat num) (map (series_of self) batches)) = concat (segments self batches).
Proof.
  rewrite concat_concat_map. fold (all_series self batches). unfold segments.
  rewrite <- concat_concat_map, map_map. f_equal. symmetry.
  apply (map_uniform_id _ s_); [|apply all_series_shape].
  intros xs Hx. apply concat_chunks. now rewrite (ready_segments_x _ R).
Qed.


Lemma embedded_cube : cube (b * c_) n_ d_ (embedded self batches).
Proof.
  unfold embedded. split; [rewrite length_map; apply all_series_shape|].
  apply Forall_map. apply Forall_true. intros xs. simpl. split.
  - now rewrite length_map, length_chunks.
  - apply Forall_map. apply Forall_true. intros seg. now apply length_embed.
Qed.

Lemma segments_embedded :
  map relu (concat (map (affine (weight_rows (valueEmbedding self)) (bias (valueEmbedding self)))
                      (segments self batches)))
    = concat (map (@concat num) (embedded self batches)).
Proof.
  rewrite concat_map, map_map. unfold segments, embedded.
  change (fun x => map relu (affine (weight_rows (valueEmbedding self))
                               (bias (valueEmbedding self)) x)) with (embed self).
  rewrite concat_map, map_map, concat_concat_map. reflexivity.
Qed.


Lemma hidden_shape : length (hidden self batches) = b * c_ /\ uniform d_ (hidden self batches).
Proof.
  unfold hidden. split; [rewrite length_map; apply all_series_shape|].
  apply Forall_map. apply Forall_true. intros xs. now apply length_encode.
Qed.


Lemma positions_tiled :
  concat (replicate c_ (data (pos_emb self))) = concat (concat (replicate c_ (positions self))).
Proof.
  rewrite <- concat_replicate_rows. unfold positions.
  rewrite concat_chunks by apply (ready_pos_emb _ R). reflexivity.
Qed.

Lemma channels_tiled :
  concat (map (fun row => concat (replicate m_ row)) (channels self))
    = concat (concat (map (replicate m_) (channels self))).
Proof. rewrite <- concat_concat_map, map_map. reflexivity. Qed.

Lemma positions_tiled_shape :
  length (concat (replicate c_ (positions self))) = c_ * m_ /\
  uniform (d_ / 2) (concat (replicate c_ (positions self))).
Proof.
  destruct (positions_shape self R) as [Hl HF]. split.
  - rewrite (length_concat_uniform m_); [now rewrite length_replicate|].
    now apply uniform_replicate.
  - apply uniform_concat. now apply Forall_replicate.
Qed.

Lemma channels_tiled_shape :
  length (concat (map (replicate m_) (channels self))) = c_ * m_ /\
  uniform (d_ / 2) (concat (map (replicate m_) (channels self))).
Proof.
  destruct (channels_shape self R) as [Hl HF]. split.
  - rewrite (length_concat_uniform m_); [now rewrite length_map, Hl|].
    apply Forall_map. apply Forall_true. intros ch. apply length_replicate.
  - apply uniform_concat. apply Forall_map. eapply Forall_impl; [exact HF|].
    intros ch Hch. simpl. now apply Forall_replicate.
Qed.

Lemma queries_zip :
  zip_with app (concat (replicate c_ (positions self)))
    (concat (map (replicate m_) (channels self))) = (queries self).
Proof.
  destruct (positions_shape self R) as [Hl HF]. destruct (channels_shape self R) as [Hcl HcF].
  rewrite zip_concat.
  - unfold queries. f_equal. rewrite <- Hcl.
    generalize (channels self). intros chans.
    induction chans as [|ch chans IH]; simpl; [reflexivity|].
    rewrite IH. f_equal. now apply zip_replicate_r.
  - apply (uniform_same_length m_).
    + now rewrite length_replicate, length_map.
    + now apply uniform_replicate.
    + apply Forall_map. apply Forall_true. intros ch. apply length_replicate.
Qed.

Lemma queries_shape : length (queries self) = c_ * m_ /\ uniform d_ (queries self).
Proof.
  destruct (positions_shape self R) as [Hl HF]. destruct (channels_shape self R) as [Hcl HcF].
  unfold queries. split.
  - rewrite (length_concat_uniform m_); [now rewrite length_map, Hcl|].
    apply Forall_map. apply Forall_true. intros ch. simpl. now rewrite length_map.
  - apply uniform_concat. apply Forall_map. eapply Forall_impl; [exact HcF|].
    intros ch Hch. simpl in *. apply Forall_map. eapply Forall_impl; [exact HF|].
    intros pos Hpos. simpl in *. rewrite length_app, Hpos, Hch. apply (ready_halves _ R).
Qed.

Lemma hidden_tiled :
  concat (map (fun row => concat (replicate m_ row)) (hidden self batches))
    = concat (concat (map (replicate m_) (hidden self batches))).
Proof. rewrite <- concat_concat_map, map_map. reflexivity. Qed.

Lemma hidden_tiled_shape :
  length (concat (map (replicate m_) (hidden self batches))) = c_ * m_ * b /\
  uniform d_ (concat (map (replicate m_) (hidden self batches))).
Proof.
  destruct hidden_shape as [Hl HF]. split.
  - rewrite (length_concat_uniform m_); [rewrite length_map, Hl; lia|].
    apply Forall_map. apply Forall_true. intros h. apply length_replicate.
  - apply uniform_concat. apply Forall_map. eapply Forall_impl; [exact HF|].
    intros h Hh. simpl. now apply Forall_replicate.
Qed.

Lemma queries_tiled_shape :
  length (concat (replicate b (queries self))) = c_ * m_ * b /\
  uniform d_ (concat (replicate b (queries self))).
Proof.
  destruct queries_shape as [Hl HF]. split.
  - rewrite (length_concat_uniform (c_ * m_)); [rewrite length_replicate; lia|].
    now apply uniform_replicate.
  - apply uniform_concat. now apply Forall_replicate.
Qed.

(** The (states self batches) of one element of the batch, from the (hidden self batches) (states self batches) of its
    series and the (queries self). *)
Lemma states_of_batch batch :
  length batch = s_ * c_ ->
  zip_with (gru_cell (rnn self))
    (concat (map (replicate m_) (map (encode self) (series_of self batch)))) (queries self)
    = concat (states_of self batch).
Proof.
  intros Hl. destruct (positions_shape self R) as [Hpl _].
  unfold queries, states_of. rewrite map_map, zip_concat.
  - f_equal. generalize (series_of self batch) (channels self).
    intros ss. induction ss as [|x ss IH]; intros [|ch chans]; simpl; try reflexivity.
    rewrite IH. f_equal. unfold decode.
    rewrite (zip_replicate_l _ m_) by now rewrite length_map.
    now rewrite map_map.
  - assert (E : length (series_of self batch) = length (channels self)).
    { destruct (series_of_shape self R batch Hl) as [-> _].
      now destruct (channels_shape self R) as [-> _]. }
    revert E. generalize (series_of self batch) (channels self).
    intros ss. induction ss as [|x ss IH]; intros [|ch chans] E; simpl; try discriminate;
      constructor.
    + now rewrite length_replicate, length_map.
    + apply IH. simpl in E. lia.
Qed.


Lemma states_all :
  zip_with (gru_cell (rnn self)) (concat (map (replicate m_) (hidden self batches)))
    (concat (replicate b (queries self))) = (states self batches).
Proof.
  unfold hidden, all_series, states.
  rewrite concat_map, (concat_map (replicate m_)), <- !concat_concat_map, !map_map.
  rewrite zip_concat.
  - f_equal. rewrite (zip_replicate_r _ b) by now rewrite length_map.
    rewrite map_map.
    apply (map_uniform_ext _ _ (s_ * c_)); [|assumption].
    intros batch Hl. rewrite <- (states_of_batch batch Hl). now rewrite map_map.
  - apply (uniform_same_length (c_ * m_)).
    + now rewrite length_map, length_replicate.
    + apply Forall_map. eapply Forall_impl; [exact Hu|]. intros batch Hl. simpl in *.
      rewrite (length_concat_uniform m_).
      * rewrite !length_map. now destruct (series_of_shape self R batch Hl) as [-> _].
      * apply Forall_map. apply Forall_true. intros x. apply length_replicate.
    + apply uniform_replicate. apply queries_shape.
Qed.

Lemma states_shape : length (states self batches) = c_ * m_ * b /\ uniform d_ (states self batches).
Proof.
  rewrite <- states_all. split.
  - rewrite length_zip_with.
    destruct hidden_tiled_shape as [-> _]. destruct queries_tiled_shape as [-> _]. lia.
  - destruct hidden_tiled_shape as [_ HF]. revert HF.
    generalize (concat (map (replicate m_) (hidden self batches))) (concat (replicate b (queries self))).
    intros hs. induction hs as [|h hs IH]; intros [|q qs] HF; simpl; constructor.
    + inversion HF; subst. now apply (length_cell self R).
    + apply IH. now inversion HF.
Qed.

Lemma imap_ignore {A B : Type} (f : A -> B) (l : list A) : imap (fun _ => f) l = map f l.
Proof. induction l as [|x l IH]; [reflexivity|]. rewrite imap_cons. simpl. f_equal. apply IH. Qed.

Lemma project_rows k (rows : list (list num)) :
  length rows = k -> uniform d_ rows ->
  linear (predict self) (dropout mask (Tensor [1; k; d_] (concat rows)))
    = Some (Tensor [1; k; w_] (concat (imap (project self mask) rows))).
Proof.
  intros Hk HF. pose proof (ready_built _ R) as HB. unfold project. destruct mask as [factor|].
  - unfold dropout. cbn [shape data].
    rewrite (imap_rows _ d_) by assumption.
    erewrite (linear_of (predict self) 1 k d_ w_);
      [| reflexivity | apply (built_predict_in _ HB) | apply (built_predict_out _ HB)
       | rewrite length_imap; lia
       | apply uniform_imap; [intros; now rewrite length_imap | assumption]].
    now rewrite map_imap.
  - unfold dropout.
    rewrite (linear_of (predict self) 1 k d_ w_ rows);
      [| reflexivity | apply (built_predict_in _ HB) | apply (built_predict_out _ HB)
       | lia | assumption].
    now rewrite imap_ignore.
Qed.


Lemma predictions_shape : length (predictions self mask batches) = b * c_ * m_ /\ uniform w_ (predictions self mask batches).
Proof.
  unfold predictions. destruct states_shape as [Hl HF]. split.
  - rewrite length_imap, Hl. lia.
  - assert (Hf : forall i x, length (project self mask i x) = w_).
    { intros i x. unfold project. rewrite length_affine. unfold weight_rows.
      rewrite length_chunks, (built_predict_out _ (ready_built _ R)), (ready_predict_bias _ R).
      lia. }
    revert Hf. generalize (project self mask) (states self batches). clear.
    intros f l. revert f. induction l as [|x l IH]; intros f Hf; [constructor|].
    rewrite imap_cons. constructor; [apply Hf | apply IH; intros; apply Hf].
Qed.



Lemma per_series_shape : length (per_series self mask b batches) = b * c_ /\ uniform p_ (per_series self mask b batches).
Proof.
  destruct predictions_shape as [Hl HF]. unfold per_series. split.
  - now rewrite length_map, length_chunks.
  - apply Forall_map.
    assert (HU : uniform m_ (chunks (b * c_) m_ (predictions self mask batches))) by (apply chunks_uniform; lia).
    pose proof (Forall_chunks _ (b * c_) m_ (predictions self mask batches) HF) as HW.
    revert HU HW. generalize (chunks (b * c_) m_ (predictions self mask batches)).
    intros l. induction l as [|x l IH]; intros HU HW; constructor.
    + inversion HU; inversion HW; subst. simpl.
      rewrite (length_concat_uniform w_) by assumption.
      rewrite <- (ready_segments_y _ R). congruence.
    + inversion HU; inversion HW; subst. now apply IH.
Qed.

Lemma per_batch_cube : cube b c_ p_ (per_batch self mask b batches).
Proof.
  destruct per_series_shape as [Hl HF]. unfold per_batch. split; [apply length_chunks|].
  assert (HU : uniform c_ (chunks b c_ (per_series self mask b batches))) by (apply chunks_uniform; lia).
  pose proof (Forall_chunks _ b c_ (per_series self mask b batches) HF) as HW.
  revert HU HW. generalize (chunks b c_ (per_series self mask b batches)).
  intros l. induction l as [|x l IH]; intros HU HW; constructor.
  - inversion HU; inversion HW; subst. split; assumption.
  - inversion HU; inversion HW; subst. now apply IH.
Qed.

Lemma predictions_nested : concat (predictions self mask batches) = concat (map (@concat num) (per_batch self mask b batches)).
Proof.
  destruct predictions_shape as [Hl HF]. destruct per_series_shape as [Hl' HF'].
  unfold per_batch. rewrite concat_concat_map, concat_chunks by lia.
  unfold per_series. rewrite concat_concat_map, concat_chunks by lia. reflexivity.
Qed.

Lemma transposed_cube : cube b p_ c_ (map (transpose p_) (per_batch self mask b batches)).
Proof.
  destruct per_batch_cube as [Hl HF]. split; [now rewrite length_map|].
  apply Forall_map. eapply Forall_impl; [exact HF|]. intros rs [Hrs Hrows]. simpl.
  destruct (transpose_shape p_ rs Hrows) as [H1 H2]. rewrite Hrs in H2. now split.
Qed.

Lemma zip_maps_flip {A B A' B' C : Type} (f : A' -> B' -> C) (g : A -> A') (h : B -> B')
    (xs : list A) (ys : list B) :
  zip_with f (map g xs) (map h ys) = zip_with (fun y x => f (g x) (h y)) ys xs.
Proof.
  revert ys. induction xs as [|x xs IH]; intros [|y ys]; simpl; try reflexivity.
  now rewrite IH.
Qed.

Lemma forward_rows :
  forward ok self mask (Tensor [b; s_; c_] (concat batches))
    = Some (Tensor [b; p_; c_] (forecast_data self mask batches)).
Proof.
  pose proof (ready_built _ R) as HB.
  pose proof (ready_seq_len _ R) as Hs. pose proof (ready_enc_in _ R) as Hc.
  pose proof (ready_d_model _ R) as Hd. pose proof (ready_pred_len _ R) as Hp.
  pose proof (ready_seg_len _ R) as Hw. pose proof (ready_seg_num_x _ R) as Hn.
  pose proof (ready_seg_num_y _ R) as Hm.
  unfold forward, size0. cbn [shape head mbind option_bind].
  (* normalization and permute *)
  rewrite (last_step_of b s_ c_ batches) by first [reflexivity | assumption].
  cbn [mbind option_bind].
  change (map (drop ((s_ - 1) * c_)) batches) with (map (last_of self) batches).
  rewrite (broadcast_of ssub b s_ c_ (map (chunks s_ c_) batches) (map (last_of self) batches));
    [| apply batches_nested | apply steps_cube | now rewrite length_map | apply lasts_uniform].
  cbn [mbind option_bind].
  rewrite (permute_of b s_ c_ (map (normalized self) batches));
    [| rewrite zip_map_same, map_map; reflexivity | apply normalized_cube].
  cbn [mbind option_bind].
  (* segment and embedding *)
  rewrite (reshape_rows n_ w_ _ (b * c_));
    [| rewrite SegRNNProofs.numel3, (ready_segments_x _ R); lia | lia].
  cbn [mbind option_bind].
  rewrite (linear_of (valueEmbedding self) (b * c_) n_ w_ d_ (segments self batches));
    [| rewrite map_map, <- series_segments, map_map; reflexivity
     | apply (built_embed_in _ HB) | apply (built_embed_out _ HB)
     | apply segments_shape | apply segments_shape].
  cbn [mbind option_bind]. unfold relu_layer. cbn [shape data].
  (* encoding *)
  destruct (gru_fresh_of ok (rnn self) (b * c_) n_ d_ d_ (embedded self batches)
              (map relu (concat (map (affine (weight_rows (valueEmbedding self))
                                        (bias (valueEmbedding self))) (segments self batches)))))
    as [out1 Hgru1];
    [apply segments_embedded | apply (built_rnn_in _ HB) | apply (built_rnn_hidden _ HB)
    | apply embedded_cube | lia | lia |].
  rewrite Hgru1. cbn [mbind option_bind snd].
  (* positional and channel encodings *)
  rewrite (unsqueeze_front (pos_emb self) m_ (d_ / 2)) by apply (built_pos_emb _ HB).
  cbn [mbind option_bind].
  rewrite (repeat_outer c_ 1 m_ (d_ / 2)) by (rewrite (ready_pos_emb _ R); lia).
  cbn [mbind option_bind]. rewrite Nat.mul_1_l.
  rewrite (unsqueeze_middle (channel_emb self) c_ (d_ / 2)) by apply (built_channel_emb _ HB).
  cbn [mbind option_bind].
  rewrite (repeat_middle_of m_ c_ (d_ / 2)) by apply (ready_channel_emb _ R).
  cbn [mbind option_bind]. fold (channels self).
  rewrite (cat_of c_ m_ (d_ / 2) (d_ / 2) (concat (replicate c_ (positions self)))
             (concat (map (replicate m_) (channels self))));
    [| apply positions_tiled | apply channels_tiled
     | apply positions_tiled_shape | apply positions_tiled_shape
     | apply channels_tiled_shape | apply channels_tiled_shape].
  cbn [mbind option_bind]. rewrite queries_zip.
  rewrite (reshape_rows 1 d_ _ (c_ * m_));
    [| rewrite SegRNNProofs.numel3, (ready_halves _ R); lia | lia].
  cbn [mbind option_bind].
  rewrite (repeat_outer b (c_ * m_) 1 d_)
    by (rewrite (length_concat_uniform d_) by apply queries_shape;
        destruct queries_shape as [-> _]; lia).
  cbn [mbind option_bind].
  (* decoding *)
  rewrite (repeat_inner_of m_ (b * c_) d_ (hidden self batches));
    [| unfold hidden, embedded; rewrite map_map; reflexivity
     | apply hidden_shape | apply hidden_shape].
  cbn [mbind option_bind].
  rewrite (reshape_middle_rows d_ _ (c_ * m_ * b));
    [| rewrite SegRNNProofs.numel3; lia | lia].
  cbn [mbind option_bind].
  destruct (gru_step_of ok (rnn self) (c_ * m_ * b) d_ d_
              (concat (replicate b (queries self))) (concat (map (replicate m_) (hidden self batches)))
              (concat (replicate b (concat (queries self))))
              (concat (map (fun row => concat (replicate m_ row)) (hidden self batches))))
    as [out2 Hgru2];
    [apply concat_replicate_rows | apply hidden_tiled
    | apply (built_rnn_in _ HB) | apply (built_rnn_hidden _ HB)
    | apply queries_tiled_shape | apply queries_tiled_shape
    | apply hidden_tiled_shape | apply hidden_tiled_shape | nia |].
  rewrite Hgru2. cbn [mbind option_bind snd]. rewrite states_all.
  rewrite (project_rows (c_ * m_ * b) (states self batches)) by apply states_shape.
  cbn [mbind option_bind]. fold (predictions self mask batches).
  rewrite (reshape_rows c_ p_ _ b);
    [| rewrite SegRNNProofs.numel3, <- (ready_segments_y _ R); lia | nia].
  cbn [mbind option_bind].
  (* permute and denorm *)
  rewrite (permute_of b c_ p_ (per_batch self mask b batches));
    [| apply predictions_nested | apply per_batch_cube].
  cbn [mbind option_bind].
  rewrite (broadcast_of sadd b p_ c_ (map (transpose p_) (per_batch self mask b batches)) (map (last_of self) batches));
    [| now rewrite map_map | apply transposed_cube | now rewrite length_map
     | apply lasts_uniform].
  do 3 f_equal. rewrite zip_maps_flip.
  unfold forecast_data. cbv zeta. rewrite Hlen. reflexivity.
Qed.

End Run.
End Refinement.

Section ForecasterSteps.
Context `{Sc : Scalar}.

Lemma init_ready cfg v self :
  init cfg v = Some self -> sized cfg v ->
  0 < cfg_seq_len cfg -> 0 < cfg_pred_len cfg -> 0 < cfg_enc_in cfg -> 0 < cfg_d_model cfg ->
  cfg_d_model cfg mod 2 = 0 ->
  cfg_seq_len cfg mod cfg_seg_len cfg = 0 -> cfg_pred_len cfg mod cfg_seg_len cfg = 0 ->
  ready self.
Proof.
  intros Hinit Hsz Hs Hp Hc Hd Heven Hsw Hpw.
  destruct (SegRNNProofs.init_built _ _ _ Hinit) as (HB & _).
  unfold init in Hinit. destruct (cfg_seg_len cfg =? 0)%nat eqn:E; [discriminate|].
  destruct (cfg_d_model cfg =? 0)%nat; [discriminate|].
  injection Hinit as <-. apply Nat.eqb_neq in E.
  destruct Hsz. constructor; cbn -[Nat.div Nat.modulo]; try assumption.
  - pose proof (Nat.div_mod_eq (cfg_seq_len cfg) (cfg_seg_len cfg)). lia.
  - pose proof (Nat.div_mod_eq (cfg_pred_len cfg) (cfg_seg_len cfg)). lia.
  - pose proof (Nat.div_mod_eq (cfg_d_model cfg) 2). lia.
Qed.

Lemma forward_ready ok self mask x b :
  ready self -> shape x = [b; seq_len self; enc_in self] -> well_formed x -> 0 < b ->
  forward ok self mask x = Some (forecast self mask x).
Proof.
  intros R Hx Hwf Hb. destruct x as [sh l]. unfold forecast, well_formed in *.
  cbn [shape data] in *. subst sh. cbn [hd].
  rewrite SegRNNProofs.numel3 in Hwf.
  assert (Hl : length l = b * (seq_len self * enc_in self)) by lia.
  rewrite <- (concat_chunks b (seq_len self * enc_in self) l Hl) at 1.
  apply forward_rows; [assumption | assumption | apply length_chunks|].
  apply chunks_uniform. lia.
Qed.

End ForecasterSteps.

Section Elementwise.
Context `{Sc : Scalar}.
Variable self : model.
Hypothesis R : ready self.

Lemma zip_map_r {A B C : Type} (f : A -> B -> C) (h : A -> B) (l : list A) :
  zip_with f l (map h l) = map (fun x => f x (h x)) l.
Proof. induction l as [|x l IH]; simpl; [reflexivity | now rewrite IH]. Qed.

Lemma projected_states batch :
  length batch = seq_len self * enc_in self ->
  map (@concat num)
    (chunks (enc_in self) (seg_num_y self)
       (map (affine (weight_rows (predict self)) (bias (predict self)))
          (concat (states_of self batch))))
    = map (fun states =>
             concat (map (affine (weight_rows (predict self)) (bias (predict self))) states))
        (states_of self batch).
Proof.
  intros Hl. destruct (states_of_shape self R batch Hl) as [Hlen HF].
  rewrite concat_map, chunks_concat.
  - now rewrite map_map.
  - now rewrite length_map.
  - apply Forall_map. eapply Forall_impl; [exact HF|]. intros st [Hst _]. simpl.
    now rewrite length_map.
Qed.

Lemma forecast_data_elementwise batches :
  uniform (seq_len self * enc_in self) batches ->
  forecast_data self None batches = concat (map (forecast_element self) batches).
Proof.
  intros Hu. unfold forecast_data. cbv zeta.
  change (project self None)
    with (fun _ : nat => affine (weight_rows (predict self)) (bias (predict self))).
  rewrite imap_ignore, <- concat_concat_map, map_map, concat_map, map_map.
  rewrite (chunks_concat_groups (length batches) (enc_in self) (seg_num_y self)).
  2:{ now rewrite length_map. }
  2:{ apply Forall_map. eapply Forall_impl; [exact Hu|]. intros batch Hl. simpl in *.
      destruct (states_of_shape self R batch Hl) as [Hlen HF].
      rewrite length_map, (length_concat_uniform (seg_num_y self)); [now rewrite Hlen|].
      eapply Forall_impl; [exact HF|]. now intros st [? _]. }
  rewrite map_map, concat_map, map_map, chunks_concat.
  2:{ now rewrite length_map. }
  2:{ apply Forall_map. apply Forall_true. intros batch. simpl.
      now rewrite length_map, length_chunks. }
  rewrite zip_map_r. f_equal.
  apply (map_uniform_ext _ _ (seq_len self * enc_in self)); [|assumption].
  intros batch Hl. unfold forecast_element. now rewrite projected_states.
Qed.

Lemma forward_element ok batch :
  length batch = seq_len self * enc_in self ->
  forward ok self None (Tensor [1; seq_len self; enc_in self] batch)
    = Some (Tensor [1; pred_len self; enc_in self] (forecast_element self batch)).
Proof.
  intros Hl.
  rewrite (forward_ready ok self None _ 1 R); [| reflexivity | | lia].
  - unfold forecast. cbn [shape data hd]. rewrite (chunks_one _ batch Hl).
    rewrite forecast_data_elementwise by (constructor; [assumption | constructor]).
    cbn [map concat]. now rewrite app_nil_r.
  - unfold well_formed. cbn [shape data]. rewrite SegRNNProofs.numel3. lia.
Qed.

Lemma forward_elements ok x b :
  shape x = [b; seq_len self; enc_in self] -> well_formed x -> 0 < b ->
  let batches := chunks b (seq_len self * enc_in self) (data x) in
  forward ok self None x
    = Some (Tensor [b; pred_len self; enc_in self] (concat (map (forecast_element self) batches)))
  /\ Forall (fun batch =>
               forward ok self None (Tensor [1; seq_len self; enc_in self] batch)
                 = Some (Tensor [1; pred_len self; enc_in self] (forecast_element self batch)))
       batches.
Proof.
  intros Hx Hwf Hb batches.
  assert (Hu : uniform (seq_len self * enc_in self) batches).
  { apply chunks_uniform. unfold well_formed in Hwf. rewrite Hx, SegRNNProofs.numel3 in Hwf. lia. }
  split.
  - rewrite (forward_ready ok self None x b R Hx Hwf Hb). unfold forecast. rewrite Hx. cbn [hd].
    fold batches. now rewrite forecast_data_elementwise.
  - eapply Forall_impl; [exact Hu|]. intros batch Hl. now apply forward_element.
Qed.

End Elementwise.

Section Columns.
Context `{Sc : Scalar}.

Lemma nth_zip_with {A B C : Type} (f : A -> B -> C) i (a : list A) (b : list B) da db dc :
  i < length a -> i < length b ->
  nth i (zip_with f a b) dc = f (nth i a da) (nth i b db).
Proof.
  revert a b. induction i as [|i IH]; intros [|x a] [|y b] Ha Hb; simpl in *; try lia.
  - reflexivity.
  - apply IH; lia.
Qed.

Lemma column_transpose c i (rows : list (list num)) :
  uniform c rows -> i < c -> nth i (transpose c rows) [] = column i rows.
Proof.
  intros Hu Hi. unfold transpose, column.
  induction Hu as [|r rows Hr Hu IH]; simpl.
  - clear Hi. revert i. induction c as [|c IH]; intros [|i]; simpl; try reflexivity. apply IH.
  - destruct (transpose_shape c rows Hu) as [Hl _]. unfold transpose in Hl.
    rewrite (nth_zip_with cons i r _ zero [] []) by lia. now rewrite IH.
Qed.

Lemma column_zip (op : num -> num -> num) c i (rows : list (list num)) l :
  uniform c rows -> length l = c -> i < c ->
  column i (map (fun step => zip_with op step l) rows)
    = map (fun v => op v (nth i l zero)) (column i rows).
Proof.
  intros Hu Hl Hi. unfold column. rewrite !map_map.
  induction Hu as [|r rows Hr Hu IH]; simpl; [reflexivity|].
  rewrite IH. f_equal. apply nth_zip_with; lia.
Qed.

Lemma column_zip_cons i (r : list num) (T : list (list num)) :
  length r = length T ->
  column i (zip_with cons r T) = match i with 0 => r | S j => column j T end.
Proof.
  unfold column. revert T. induction r as [|x r IH]; intros [|t T] Hl; simpl in *; try lia.
  - now destruct i.
  - specialize (IH T ltac:(lia)). destruct i; simpl in *; now rewrite IH.
Qed.

Lemma column_of_columns p i (F : list (list num)) :
  uniform p F -> i < length F -> column i (transpose p F) = nth i F [].
Proof.
  intros Hu. revert i. induction Hu as [|r F Hr Hu IH]; intros i Hi; simpl in *; [lia|].
  destruct (transpose_shape p F Hu) as [Hl _].
  change (transpose p (r :: F)) with (zip_with cons r (transpose p F)).
  rewrite column_zip_cons by lia. destruct i; [reflexivity|]. apply IH. lia.
Qed.

Lemma last_chunks s c (l : list num) :
  0 < s -> List.last (chunks s c l) [] = take c (drop ((s - 1) * c) l).
Proof.
  intros Hs. revert l. induction s as [|s IH]; intros l; [lia|].
  destruct s as [|s]; [reflexivity|].
  change (chunks (S (S s)) c l) with (take c l :: chunks (S s) c (drop c l)).
  change (List.last (take c l :: chunks (S s) c (drop c l)) [])
    with (List.last (chunks (S s) c (drop c l)) []).
  rewrite IH by lia. rewrite drop_drop. do 2 f_equal. simpl. lia.
Qed.

Lemma last_map_default {A B : Type} (f : A -> B) (l : list A) d :
  List.last (map f l) (f d) = f (List.last l d).
Proof.
  induction l as [|x l IH]; [reflexivity|]. simpl. destruct l; [reflexivity|]. exact IH.
Qed.

End Columns.

Section Channels.
Context `{Sc : Scalar}.
Variable self : model.
Hypothesis R : ready self.

Lemma last_of_last batch :
  length batch = seq_len self * enc_in self ->
  last_of self batch = List.last (chunks (seq_len self) (enc_in self) batch) [].
Proof.
  intros Hl. rewrite last_chunks by apply (ready_seq_len _ R). unfold last_of.
  rewrite take_ge; [reflexivity|]. rewrite length_drop, Hl.
  pose proof (ready_seq_len _ R). nia.
Qed.

Lemma last_value_of batch i :
  length batch = seq_len self * enc_in self ->
  nth i (last_of self batch) zero
    = List.last (column i (chunks (seq_len self) (enc_in self) batch)) zero.
Proof.
  intros Hl. rewrite (last_of_last batch Hl). unfold column.
  pose proof (last_map_default (fun r : list num => nth i r zero)
                (chunks (seq_len self) (enc_in self) batch) []) as H.
  cbv beta in H. replace (nth i [] zero) with (zero : num) in H by now destruct i.
  now rewrite H.
Qed.

Lemma series_of_channel batch i :
  length batch = seq_len self * enc_in self -> i < enc_in self ->
  let series := column i (chunks (seq_len self) (enc_in self) batch) in
  nth i (series_of self batch) [] = map (fun v => ssub v (List.last series zero)) series.
Proof.
  intros Hl Hi. cbv zeta. unfold series_of.
  destruct (normalized_shape self R batch Hl) as [_ Hu].
  rewrite (column_transpose _ _ _ Hu Hi). unfold normalized.
  rewrite (column_zip ssub (enc_in self));
    [| apply chunks_uniform; lia | now apply (length_last_of self R) | assumption].
  now rewrite last_value_of.
Qed.

Lemma states_of_channel batch i :
  length batch = seq_len self * enc_in self -> i < enc_in self ->
  nth i (states_of self batch) []
    = decode self (encode self (nth i (series_of self batch) [])) (nth i (channels self) []).
Proof.
  intros Hl Hi. unfold states_of.
  destruct (series_of_shape self R batch Hl) as [Hs _].
  destruct (channels_shape self R) as [Hc _].
  apply (nth_zip_with (fun series channel => decode self (encode self series) channel)
           i (series_of self batch) (channels self) [] [] []); lia.
Qed.

Lemma forecast_element_channel batch i :
  length batch = seq_len self * enc_in self -> i < enc_in self ->
  column i (chunks (pred_len self) (enc_in self) (forecast_element self batch))
    = forecast_channel self (nth i (channels self) [])
        (column i (chunks (seq_len self) (enc_in self) batch)).
Proof.
  intros Hl Hi. unfold forecast_element, forecast_channel.
  destruct (states_of_shape self R batch Hl) as [Hlen HF].
  set (project := affine (weight_rows (predict self)) (bias (predict self))).
  set (F := map (fun states => concat (map project states)) (states_of self batch)).
  assert (HFu : uniform (pred_len self) F).
  { unfold F. apply Forall_map. eapply Forall_impl; [exact HF|]. intros st [Hm Hd]. simpl.
    rewrite (length_concat_uniform (seg_len self)).
    - rewrite length_map, Hm. apply (ready_segments_y _ R).
    - apply Forall_map. apply Forall_true. intros x. unfold project.
      rewrite length_affine. unfold weight_rows.
      rewrite length_chunks, (built_predict_out _ (ready_built _ R)), (ready_predict_bias _ R).
      lia. }
  assert (HFl : length F = enc_in self) by (unfold F; now rewrite length_map).
  destruct (transpose_shape (pred_len self) F HFu) as [HTl HTu]. rewrite HFl in HTu.
  rewrite chunks_concat.
  2:{ now rewrite length_map. }
  2:{ apply Forall_map. eapply Forall_impl; [exact HTu|]. intros step Hstep. simpl in *.
      rewrite length_zip_with, Hstep, (length_last_of self R) by assumption. lia. }
  rewrite (column_zip sadd (enc_in self));
    [| assumption | now apply (length_last_of self R) | assumption].
  rewrite column_of_columns by (assumption || lia).
  rewrite last_value_of by assumption.
  f_equal. unfold F.
  pose proof (map_nth (fun states => concat (map project states)) (states_of self batch) [] i)
    as H.
  cbn [map concat] in H. rewrite H, states_of_channel, series_of_channel by assumption.
  reflexivity.
Qed.

Lemma length_forecast_element batch :
  length batch = seq_len self * enc_in self ->
  length (forecast_element self batch) = pred_len self * enc_in self.
Proof.
  intros Hl. unfold forecast_element.
  destruct (states_of_shape self R batch Hl) as [Hlen HF].
  set (project := affine (weight_rows (predict self)) (bias (predict self))).
  set (F := map (fun states => concat (map project states)) (states_of self batch)).
  assert (HFu : uniform (pred_len self) F).
  { unfold F. apply Forall_map. eapply Forall_impl; [exact HF|]. intros st [Hm Hd]. simpl.
    rewrite (length_concat_uniform (seg_len self)).
    - rewrite length_map, Hm. apply (ready_segments_y _ R).
    - apply Forall_map. apply Forall_true. intros x. unfold project.
      rewrite length_affine. unfold weight_rows.
      rewrite length_chunks, (built_predict_out _ (ready_built _ R)), (ready_predict_bias _ R).
      lia. }
  assert (HFl : length F = enc_in self) by (unfold F; now rewrite length_map).
  destruct (transpose_shape (pred_len self) F HFu) as [HTl HTu]. rewrite HFl in HTu.
  rewrite (length_concat_uniform (enc_in self)).
  - now rewrite length_map, HTl.
  - apply Forall_map. eapply Forall_impl; [exact HTu|]. intros step Hstep. simpl in *.
    rewrite length_zip_with, Hstep, (length_last_of self R) by assumption. lia.
Qed.

Lemma forward_channels ok x b :
  shape x = [b; seq_len self; enc_in self] -> well_formed x -> 0 < b ->
  exists y, forward ok self None x = Some y /\
    shape y = [b; pred_len self; enc_in self] /\
    forall bi ci, bi < b -> ci < enc_in self ->
      column ci (chunks (pred_len self) (enc_in self)
                   (nth bi (chunks b (pred_len self * enc_in self) (data y)) []))
        = forecast_channel self (nth ci (channels self) [])
            (column ci (chunks (seq_len self) (enc_in self)
                          (nth bi (chunks b (seq_len self * enc_in self) (data x)) []))).
Proof.
  intros Hx Hwf Hb.
  destruct (forward_elements self R ok x b Hx Hwf Hb) as [Hall _].
  eexists. split; [exact Hall|]. split; [reflexivity|]. cbn [data].
  intros bi ci Hbi Hci.
  set (batches := chunks b (seq_len self * enc_in self) (data x)).
  assert (Hu : uniform (seq_len self * enc_in self) batches).
  { apply chunks_uniform. unfold well_formed in Hwf. rewrite Hx, SegRNNProofs.numel3 in Hwf. lia. }
  assert (Hlen : length batches = b) by apply length_chunks.
  rewrite chunks_concat.
  2:{ now rewrite length_map. }
  2:{ apply Forall_map. eapply Forall_impl; [exact Hu|]. intros batch Hl.
      now apply length_forecast_element. }
  pose proof (map_nth (forecast_element self) batches [] bi) as H.
  assert (Hb' : length (nth bi batches []) = seq_len self * enc_in self).
  { unfold uniform in Hu. rewrite Stdlib.Lists.List.Forall_forall in Hu.
    apply Hu. apply nth_In. lia. }
  rewrite (nth_indep _ [] (forecast_element self [])) by (rewrite length_map; lia).
  rewrite H. now apply forecast_element_channel.
Qed.

End Channels.

Section ForecasterClaims.
Context `{Sc : Scalar}.

(** X1.  [forward] computes the segment-wise recurrent forecaster: on an input of
    shape [batch, seq_len, enc_in] it returns, for every series, the
    predictions of its segments concatenated, with the last step taken off
    before and added back after. *)
Theorem forward_is_segment_forecaster ok cfg v self mask x b :
  init cfg v = Some self -> sized cfg v ->
  shape x = [b; cfg_seq_len cfg; cfg_enc_in cfg] -> well_formed x ->
  0 < b -> 0 < cfg_seq_len cfg -> 0 < cfg_pred_len cfg -> 0 < cfg_enc_in cfg ->
  0 < cfg_d_model cfg -> cfg_d_model cfg mod 2 = 0 ->
  cfg_seq_len cfg mod cfg_seg_len cfg = 0 ->
  cfg_pred_len cfg mod cfg_seg_len cfg = 0 ->
  forward ok self mask x = Some (forecast self mask x).
Proof.
  intros Hinit Hsz Hx Hwf Hb Hs Hp Hc Hd Heven Hsw Hpw.
  destruct (SegRNNProofs.init_built _ _ _ Hinit) as (_ & Es & _ & Ec & _).
  apply (forward_ready ok self mask x b); try assumption.
  - now apply (init_ready cfg v).
  - now rewrite Es, Ec.
Qed.

(** X3.  In evaluation mode the elements of a batch do not influence each other:
    the forecast of a batch is, element after element, the forecast
    [forward] returns for that element alone. *)
Theorem forward_batch_elementwise ok cfg v self x b :
  init cfg v = Some self -> sized cfg v ->
  shape x = [b; cfg_seq_len cfg; cfg_enc_in cfg] -> well_formed x ->
  0 < b -> 0 < cfg_seq_len cfg -> 0 < cfg_pred_len cfg -> 0 < cfg_enc_in cfg ->
  0 < cfg_d_model cfg -> cfg_d_model cfg mod 2 = 0 ->
  cfg_seq_len cfg mod cfg_seg_len cfg = 0 ->
  cfg_pred_len cfg mod cfg_seg_len cfg = 0 ->
  exists outs,
    forward ok self None x
      = Some (Tensor [b; cfg_pred_len cfg; cfg_enc_in cfg] (concat outs)) /\
    Forall2 (fun batch out =>
               forward ok self None (Tensor [1; cfg_seq_len cfg; cfg_enc_in cfg] batch)
                 = Some (Tensor [1; cfg_pred_len cfg; cfg_enc_in cfg] out))
      (chunks b (cfg_seq_len cfg * cfg_enc_in cfg) (data x)) outs.
Proof.
  intros Hinit Hsz Hx Hwf Hb Hs Hp Hc Hd Heven Hsw Hpw.
  destruct (SegRNNProofs.init_built _ _ _ Hinit) as (_ & Es & Ep & Ec & _).
  pose proof (init_ready cfg v self Hinit Hsz Hs Hp Hc Hd Heven Hsw Hpw) as R.
  rewrite <- Es, <- Ep, <- Ec in *.
  destruct (forward_elements self R ok x b Hx Hwf Hb) as [Hall Heach].
  exists (map (forecast_element self) (chunks b (seq_len self * enc_in self) (data x))).
  split; [exact Hall|].
  revert Heach. generalize (chunks b (seq_len self * enc_in self) (data x)).
  intros l. induction 1 as [|batch l Hbatch Hl IH]; simpl; constructor; assumption.
Qed.

(** X2.  In evaluation mode [forward] treats the channels independently: the
    forecast of a channel of an element of the batch is computed from the
    series of that channel alone, as [forecast_channel] says, with the
    embedding of the channel. *)
Theorem forward_channel_by_channel ok cfg v self x b :
  init cfg v = Some self -> sized cfg v ->
  shape x = [b; cfg_seq_len cfg; cfg_enc_in cfg] -> well_formed x ->
  0 < b -> 0 < cfg_seq_len cfg -> 0 < cfg_pred_len cfg -> 0 < cfg_enc_in cfg ->
  0 < cfg_d_model cfg -> cfg_d_model cfg mod 2 = 0 ->
  cfg_seq_len cfg mod cfg_seg_len cfg = 0 ->
  cfg_pred_len cfg mod cfg_seg_len cfg = 0 ->
  exists y, forward ok self None x = Some y /\
    shape y = [b; cfg_pred_len cfg; cfg_enc_in cfg] /\
    forall bi ci, bi < b -> ci < cfg_enc_in cfg ->
      column ci (chunks (cfg_pred_len cfg) (cfg_enc_in cfg)
                   (nth bi (chunks b (cfg_pred_len cfg * cfg_enc_in cfg) (data y)) []))
        = forecast_channel self (nth ci (channels self) [])
            (column ci (chunks (cfg_seq_len cfg) (cfg_enc_in cfg)
                          (nth bi (chunks b (cfg_seq_len cfg * cfg_enc_in cfg) (data x)) []))).
Proof.
  intros Hinit Hsz Hx Hwf Hb Hs Hp Hc Hd Heven Hsw Hpw.
  destruct (SegRNNProofs.init_built _ _ _ Hinit) as (_ & Es & Ep & Ec & _).
  pose proof (init_ready cfg v self Hinit Hsz Hs Hp Hc Hd Heven Hsw Hpw) as R.
  rewrite <- Es, <- Ep, <- Ec in *.
  now apply forward_channels.
Qed.

(** X4.  A model with an odd [d_model] raises on every input of shape
    [batch, seq_len, enc_in]: the two halves of the positional and channel
    encodings hold [d_model - 1] numbers, not [d_model]. *)
Theorem forward_needs_even_d_model ok cfg v self mask x b :
  init cfg v = Some self ->
  shape x = [b; cfg_seq_len cfg; cfg_enc_in cfg] ->
  0 < b -> 0 < cfg_seq_len cfg -> 0 < cfg_enc_in cfg ->
  cfg_seq_len cfg mod cfg_seg_len cfg = 0 ->
  cfg_seg_len cfg <= cfg_pred_len cfg ->
  cfg_d_model cfg mod 2 = 1 ->
  forward ok self mask x = None.
Proof.
  intros Hinit Hx Hb Hs Hc Hsw Hpw Hodd.
  destruct (SegRNNProofs.init_built _ _ _ Hinit) as (HB & Es & Ep & Ec & Ed & Ew).
  pose proof (SegRNNProofs.forward_has_shape ok self mask x) as H.
  rewrite Hx, <- Es, <- Ec in H.
  rewrite SegRNNProofs.forward_shape_steps in H by (rewrite ?Es; assumption).
  cbv zeta in H.
  pose proof (built_seg_len _ HB) as Hw. pose proof (built_seg_num_x _ HB) as Hnx.
  pose proof (built_seg_num_y _ HB) as Hny.
  assert (Hn : seg_num_x self * seg_len self = seq_len self).
  { rewrite Hnx. pose proof (Nat.div_mod_eq (seq_len self) (seg_len self)).
    rewrite Es, Ew in *. lia. }
  assert (Hm : 0 < seg_num_y self).
  { rewrite Hny, Ep, Ew. apply Nat.div_str_pos. lia. }
  assert (Hh : d_model self / 2 + d_model self / 2 + 1 = d_model self).
  { pose proof (Nat.div_mod_eq (d_model self) 2). rewrite Ed in *. lia. }
  rewrite Hn in H.
  replace (seq_len self =? 0)%nat with false in H by (symmetry; apply Nat.eqb_neq; lia).
  rewrite Nat.Div0.mod_mul, Nat.eqb_refl, Nat.div_mul in H by lia.
  assert (Hnone : forall o : option tensor, shape <$> o = None -> o = None).
  { intros [t|]; [discriminate | reflexivity]. }
  apply Hnone. rewrite H. clear H Hnone.
  destruct ((_ =? 0)%nat && negb ok); [reflexivity|].
  destruct (d_model self =? 0)%nat eqn:Hd0; [reflexivity|]. apply Nat.eqb_neq in Hd0.
  destruct (_ mod d_model self =? 0)%nat eqn:Hmod; [|reflexivity]. apply Nat.eqb_eq in Hmod.
  destruct ((_ =? 0)%nat && negb ok); [reflexivity|].
  destruct (_ =? _)%nat eqn:Hrows; [|reflexivity]. exfalso.
  apply Nat.eqb_eq in Hrows.
  pose proof (Nat.div_mod_eq (enc_in self * seg_num_y self * (d_model self / 2 + d_model self / 2))
                (d_model self)) as Hdiv.
  rewrite Hmod in Hdiv.
  set (q := (enc_in self * seg_num_y self * (d_model self / 2 + d_model self / 2))
              / d_model self) in *.
  assert (Hq : q * d_model self = enc_in self * seg_num_y self * (d_model self - 1)) by nia.
  assert (Hq' : b * enc_in self * seg_num_y self * d_model self
                = enc_in self * seg_num_y self * (d_model self - 1) * b) by nia.
  assert (0 < b * enc_in self * seg_num_y self) by nia.
  nia.
Qed.

End ForecasterClaims.

Section InputChecks.
Context `{Sc : Scalar}.

Lemma length_broadcast_rev a b r :
  broadcast_rev a b = Some r -> length r = Nat.max (length a) (length b).
Proof.
  revert b r. induction a as [|x a IH]; intros b r H.
  - destruct b; injection H as <-; reflexivity.
  - destruct b as [|y b]; [injection H as <-; simpl; lia|].
    simpl in H. destruct (broadcast_rev a b) as [rest|] eqn:E; [|discriminate].
    simpl in H. specialize (IH _ _ E).
    destruct (x =? y)%nat; [injection H as <-; simpl; lia|].
    destruct (x =? 1)%nat; [injection H as <-; simpl; lia|].
    destruct (y =? 1)%nat; [injection H as <-; simpl; lia | discriminate].
Qed.

Lemma length_broadcast_shapes a b r :
  broadcast_shapes a b = Some r -> length r = Nat.max (length a) (length b).
Proof.
  unfold broadcast_shapes. intros H.
  destruct (broadcast_rev (reverse a) (reverse b)) as [r'|] eqn:E; [|discriminate].
  injection H as <-. rewrite length_reverse, (length_broadcast_rev _ _ _ E), !length_reverse.
  reflexivity.
Qed.

Lemma forward_shape_rank ok self sh : length sh <> 3 -> forward_shape ok self sh = None.
Proof.
  intros Hr. unfold forward_shape.
  destruct sh as [|b [|s [|c rest]]]; try reflexivity.
  cbn [head mbind option_bind last_step_shape].
  destruct (broadcast_shapes _ _) as [r|] eqn:E; [|reflexivity].
  cbn [mbind option_bind]. apply length_broadcast_shapes in E.
  destruct rest as [|e rest]; [simpl in Hr; lia|].
  destruct r as [|? [|? [|? [|? ?]]]]; simpl in E; try lia. reflexivity.
Qed.

(** X6.  [forward] raises on every input that is not three-dimensional. *)
Theorem forward_needs_three_dimensions ok self mask x :
  length (shape x) <> 3 -> forward ok self mask x = None.
Proof.
  intros Hr. pose proof (SegRNNProofs.forward_has_shape ok self mask x) as H.
  rewrite forward_shape_rank in H by assumption.
  destruct (forward ok self mask x); [discriminate | reflexivity].
Qed.

Lemma forward_shape_length ok self b s :
  ready self -> 0 < b -> 0 < s -> s <> seq_len self ->
  forward_shape ok self [b; s; enc_in self] = None.
Proof.
  intros R Hb Hs Hne.
  pose proof (ready_built _ R) as HB. pose proof (ready_segments_x _ R) as Hn.
  pose proof (ready_halves _ R) as Hh. pose proof (ready_seq_len _ R) as Hsl.
  pose proof (ready_enc_in _ R) as Hc. pose proof (ready_d_model _ R) as Hd.
  pose proof (ready_seg_num_y _ R) as Hm.
  rewrite SegRNNProofs.forward_shape_steps by assumption. cbv zeta.
  rewrite Hn, Hh.
  replace (seq_len self =? 0)%nat with false by (symmetry; apply Nat.eqb_neq; lia).
  destruct ((b * enc_in self * s) mod seq_len self =? 0)%nat eqn:Hmod; [|reflexivity].
  apply Nat.eqb_eq in Hmod.
  destruct ((_ =? 0)%nat && negb ok); [reflexivity|].
  replace (d_model self =? 0)%nat with false by (symmetry; apply Nat.eqb_neq; lia).
  rewrite Nat.Div0.mod_mul, Nat.eqb_refl, Nat.div_mul by lia.
  destruct ((_ =? 0)%nat && negb ok); [reflexivity|].
  destruct (_ =? _)%nat eqn:Hrows; [|reflexivity].
  apply Nat.eqb_eq in Hrows. exfalso. apply Hne.
  pose proof (Nat.div_mod_eq (b * enc_in self * s) (seq_len self)) as Hdiv.
  rewrite Hmod in Hdiv.
  set (rows := (b * enc_in self * s) / seq_len self) in *.
  assert (rows = b * enc_in self) by nia.
  nia.
Qed.

(** X5.  A model built with exact divisions and an even [d_model] raises on an
    input whose number of steps is not [seq_len]. *)
Theorem forward_needs_seq_len_steps ok cfg v self mask x b s :
  init cfg v = Some self -> sized cfg v ->
  shape x = [b; s; cfg_enc_in cfg] ->
  0 < b -> 0 < s -> 0 < cfg_seq_len cfg -> 0 < cfg_pred_len cfg -> 0 < cfg_enc_in cfg ->
  0 < cfg_d_model cfg -> cfg_d_model cfg mod 2 = 0 ->
  cfg_seq_len cfg mod cfg_seg_len cfg = 0 ->
  cfg_pred_len cfg mod cfg_seg_len cfg = 0 ->
  s <> cfg_seq_len cfg ->
  forward ok self mask x = None.
Proof.
  intros Hinit Hsz Hx Hb Hs0 Hs Hp Hc Hd Heven Hsw Hpw Hne.
  destruct (SegRNNProofs.init_built _ _ _ Hinit) as (_ & Es & Ep & Ec & _).
  pose proof (init_ready cfg v self Hinit Hsz Hs Hp Hc Hd Heven Hsw Hpw) as R.
  pose proof (SegRNNProofs.forward_has_shape ok self mask x) as H.
  rewrite Hx, <- Ec, forward_shape_length in H by (rewrite ?Es; assumption).
  destruct (forward ok self mask x); [discriminate | reflexivity].
Qed.

End InputChecks.

Section SegmentClaim.
Context `{Sc : Scalar}.

(** C6.  [forward] follows the segment-wise recurrent forecaster: on an
    input of shape [batch, seq_len, enc_in] it returns the tensor
    [forecast], in which every series is split into [seq_len // seg_len]
    segments of [seg_len] numbers that make up the series, every segment is
    embedded (linear layer, then ReLU) into [d_model] numbers, the
    embeddings are fed in order through the recurrent layer, and the
    recurrent states, [pred_len // seg_len] of them for a series, are each
    projected to a prediction of [seg_len] numbers, the predictions of a
    series being concatenated into its forecast. *)
Theorem forward_follows_segment_forecaster ok cfg v self mask x b :
  init cfg v = Some self -> sized cfg v ->
  shape x = [b; cfg_seq_len cfg; cfg_enc_in cfg] -> well_formed x ->
  0 < b -> 0 < cfg_seq_len cfg -> 0 < cfg_pred_len cfg -> 0 < cfg_enc_in cfg ->
  0 < cfg_d_model cfg -> cfg_d_model cfg mod 2 = 0 ->
  cfg_seq_len cfg mod cfg_seg_len cfg = 0 ->
  cfg_pred_len cfg mod cfg_seg_len cfg = 0 ->
  forward ok self mask x = Some (forecast self mask x) /\
  (forall series : list num, length series = cfg_seq_len cfg ->
     length (chunks (seg_num_x self) (seg_len self) series)
       = cfg_seq_len cfg / cfg_seg_len cfg /\
     uniform (cfg_seg_len cfg) (chunks (seg_num_x self) (seg_len self) series) /\
     concat (chunks (seg_num_x self) (seg_len self) series) = series) /\
  (forall segment : list num, length (embed self segment) = cfg_d_model cfg) /\
  (forall hidden channel : list num, length hidden = cfg_d_model cfg ->
     length (decode self hidden channel) = cfg_pred_len cfg / cfg_seg_len cfg /\
     uniform (cfg_d_model cfg) (decode self hidden channel)) /\
  (forall slot (state : list num), length (project self mask slot state) = cfg_seg_len cfg).
Proof.
  intros Hinit Hsz Hx Hwf Hb Hs Hp Hc Hd Heven Hsw Hpw.
  destruct (SegRNNProofs.init_built _ _ _ Hinit) as (HB & Es & Ep & Ec & Ed & Ew).
  pose proof (init_ready cfg v self Hinit Hsz Hs Hp Hc Hd Heven Hsw Hpw) as R.
  pose proof (built_seg_num_x _ HB) as Hnx. pose proof (built_seg_num_y _ HB) as Hny.
  rewrite <- Es, <- Ep, <- Ec, <- Ed, <- Ew in *.
  split; [now apply (forward_ready ok self mask x b)|].
  split; [|split; [|split]].
  - intros series Hl. rewrite length_chunks. split; [exact Hnx|].
    split.
    + apply chunks_uniform. rewrite (ready_segments_x _ R). lia.
    + apply concat_chunks. now rewrite (ready_segments_x _ R).
  - intros segment. now apply length_embed.
  - intros hidden channel Hh. rewrite <- Hny. now apply decode_shape.
  - intros slot state. unfold project. rewrite length_affine. unfold weight_rows.
    rewrite length_chunks, (built_predict_out _ HB), (ready_predict_bias _ R). lia.
Qed.

End SegmentClaim.

Import Numbers Bench.

Lemma forward_is_segment_forecaster_witness :
  exists self, init even_cfg (int_values even_cfg) = Some self /\
    forward true self (Some (fun i => Z.of_nat (i mod 3))) (int_input 2 4 3)
      = Some (forecast self (Some (fun i => Z.of_nat (i mod 3))) (int_input 2 4 3)).
Proof.
  eexists. split; [reflexivity|].
  apply (forward_is_segment_forecaster (Sc := integers) true even_cfg (int_values even_cfg)
           _ _ (int_input 2 4 3) 2);
    [reflexivity | constructor; reflexivity | reflexivity | reflexivity
    | simpl; lia | simpl; lia | simpl; lia | simpl; lia | simpl; lia
    | reflexivity | reflexivity | reflexivity].
Defined.

Lemma forward_batch_elementwise_witness :
  exists self, init even_cfg (int_values even_cfg) = Some self /\
  exists outs,
    forward true self None (int_input 2 4 3) = Some (Tensor [2; 2; 3] (concat outs)) /\
    Forall2 (fun batch out =>
               forward true self None (Tensor [1; 4; 3] batch) = Some (Tensor [1; 2; 3] out))
      (chunks 2 (4 * 3) (data (int_input 2 4 3))) outs.
Proof.
  eexists. split; [reflexivity|].
  apply (forward_batch_elementwise (Sc := integers) true even_cfg (int_values even_cfg)
           _ (int_input 2 4 3) 2);
    [reflexivity | constructor; reflexivity | reflexivity | reflexivity
    | simpl; lia | simpl; lia | simpl; lia | simpl; lia | simpl; lia
    | reflexivity | reflexivity | reflexivity].
Defined.

Lemma forward_needs_three_dimensions_witness :
  exists self, init even_cfg (int_values even_cfg) = Some self /\
    forward true self None (Tensor [4; 3] (map Z.of_nat (seq 0 12))) = None.
Proof.
  eexists. split; [reflexivity|].
  apply (forward_needs_three_dimensions (Sc := integers)). simpl. lia.
Defined.

Lemma forward_needs_seq_len_steps_witness :
  exists self, init even_cfg (int_values even_cfg) = Some self /\
    forward true self None (int_input 2 6 3) = None.
Proof.
  eexists. split; [reflexivity|].
  apply (forward_needs_seq_len_steps (Sc := integers) true even_cfg (int_values even_cfg)
           _ None (int_input 2 6 3) 2 6);
    [reflexivity | constructor; reflexivity | reflexivity
    | simpl; lia | simpl; lia | simpl; lia | simpl; lia | simpl; lia | simpl; lia
    | reflexivity | reflexivity | reflexivity | simpl; lia].
Defined.

Lemma forward_channel_by_channel_witness :
  exists self, init even_cfg (int_values even_cfg) = Some self /\
  exists y, forward true self None (int_input 2 4 3) = Some y /\
    shape y = [2; 2; 3] /\
    forall bi ci, bi < 2 -> ci < 3 ->
      column ci (chunks 2 3 (nth bi (chunks 2 (2 * 3) (data y)) []))
        = forecast_channel self (nth ci (channels self) [])
            (column ci (chunks 4 3 (nth bi (chunks 2 (4 * 3) (data (int_input 2 4 3))) []))).
Proof.
  eexists. split; [reflexivity|].
  apply (forward_channel_by_channel (Sc := integers) true even_cfg (int_values even_cfg)
           _ (int_input 2 4 3) 2);
    [reflexivity | constructor; reflexivity | reflexivity | reflexivity
    | simpl; lia | simpl; lia | simpl; lia | simpl; lia | simpl; lia
    | reflexivity | reflexivity | reflexivity].
Defined.

Lemma forward_needs_even_d_model_witness :
  exists self, init odd_cfg (int_values odd_cfg) = Some self /\
    forward true self None (int_input 2 4 3) = None.
Proof.
  eexists. split; [reflexivity|].
  apply (forward_needs_even_d_model (Sc := integers) true odd_cfg (int_values odd_cfg)
           _ None (int_input 2 4 3) 2);
    [reflexivity | reflexivity | simpl; lia | simpl; lia | simpl; lia
    | reflexivity | simpl; lia | reflexivity].
Defined.

Lemma forward_follows_segment_forecaster_witness :
  exists self, init even_cfg (int_values even_cfg) = Some self /\
    forward true self None (int_input 2 4 3) = Some (forecast self None (int_input 2 4 3)) /\
    forecast self None (int_input 2 4 3)
      = Tensor [2; 2; 3] [-189; -190; -191; -189; -190; -191;
                           -177; -178; -179; -177; -178; -179]%Z.
Proof.
  eexists. split; [reflexivity|].
  split; [|vm_compute; reflexivity].
  apply (forward_follows_segment_forecaster (Sc := integers) true even_cfg
           (int_values even_cfg) _ None (int_input 2 4 3) 2);
    [reflexivity | constructor; reflexivity | reflexivity | reflexivity
    | simpl; lia | simpl; lia | simpl; lia | simpl; lia | simpl; lia
    | reflexivity | reflexivity | reflexivity].
Defined.

End ForecasterProofs.
